(** * plotchecker: review-response parsing, rewrite splitting, highlighting
      and aggregation

    A shallow embedding of the text-processing core of the repository:

    - [parse_review_response] and [highlight_issues_in_text] (app.py),
    - [_parse_review_response], [_parse_rewrite_response] and
      [extract_issues_summary] (utils/reviewer.py),
    - [_parse_text_response] (scenario_review_tool.py).

    A Python [str] is a sequence of Unicode code points; it is modelled as a
    list of code points ([N]).  The Python built-ins the code calls
    ([str.split], [str.replace], [str.strip], [in], slicing, [re.match]) are
    modelled in the first part of the file, the functions of the repository
    in the second part, the definitions the properties are stated with in
    the third, and the properties in the fourth. *)

From Stdlib Require Import NArith ZArith Lia List Bool Ascii String Sorted.
From stdpp Require Import base list option numbers countable gmap fin_maps.
Import ListNotations.

#[local] Set Warnings "-clear-no-such-hyp".
Local Open Scope nat_scope.

(* ===================================================================== *)
(** * Part I: Python strings and the built-ins used by the code          *)
(* ===================================================================== *)

(** A code point. *)
Abbreviation char := N (only parsing).

(** A Python [str]. *)
Abbreviation str := (list N) (only parsing).

(** ** Literals

    The literals of the source are written as UTF-8 text and decoded to code
    points by [U]. *)

Fixpoint utf8_decode_go (more : nat) (acc : N) (s : string) : str :=
  match s with
  | EmptyString => []
  | String a s' =>
      let b := N_of_ascii a in
      match more with
      | O =>
          if (b <? 128)%N then b :: utf8_decode_go 0 0%N s'
          else if (b <? 224)%N then utf8_decode_go 1 (b - 192)%N s'
          else if (b <? 240)%N then utf8_decode_go 2 (b - 224)%N s'
          else utf8_decode_go 3 (b - 240)%N s'
      | S O => (acc * 64 + (b - 128))%N :: utf8_decode_go 0 0%N s'
      | S m => utf8_decode_go m (acc * 64 + (b - 128))%N s'
      end
  end.

Definition U (s : string) : str := utf8_decode_go 0 0%N s.

(** The characters the parsers look for. *)
Definition NL : char := 10%N.           (* '\n' *)
Definition QUOTE : char := 34%N.        (* the ASCII double quote *)
Definition SPACE : char := 32%N.        (* ' ' *)
Definition DASH : char := 45%N.         (* '-' *)
Definition LBRACKET : char := 12304%N.  (* 【 U+3010 *)
Definition RBRACKET : char := 12305%N.  (* 】 U+3011 *)
Definition COLON : char := 65306%N.     (* ： U+FF1A, full-width colon *)
Definition ARROW : char := 8594%N.      (* → U+2192 *)

(** ** [str.isspace] on one character and [str.strip()]

    [str.strip()] without argument removes the characters for which
    [str.isspace] holds: the code points below. *)
Definition is_space (c : char) : bool :=
  ((9 <=? c) && (c <=? 13) || (28 <=? c) && (c <=? 32)
   || (c =? 133) || (c =? 160) || (c =? 5760)
   || (8192 <=? c) && (c <=? 8202)
   || (c =? 8232) || (c =? 8233) || (c =? 8239) || (c =? 8287)
   || (c =? 12288))%N.

Fixpoint lstrip (s : str) : str :=
  match s with
  | [] => []
  | c :: s' => if is_space c then lstrip s' else s
  end.

Definition rstrip (s : str) : str := rev (lstrip (rev s)).

Definition strip (s : str) : str := rstrip (lstrip s).

(** ** [str.startswith], [str.endswith], [str.find], [in] *)

Fixpoint startswith (p s : str) : bool :=
  match p, s with
  | [], _ => true
  | _ :: _, [] => false
  | a :: p', b :: s' => (a =? b)%N && startswith p' s'
  end.

Definition endswith (p s : str) : bool := startswith (rev p) (rev s).

(** Index of the first occurrence of [sub] in [s] ([str.find], with [None]
    for -1). *)
Fixpoint find (sub s : str) : option nat :=
  if startswith sub s then Some 0
  else match s with
       | [] => None
       | _ :: s' => option_map S (find sub s')
       end.

(** [sub in s] *)
Definition contains (sub s : str) : bool :=
  match find sub s with Some _ => true | None => false end.

(** ** Slicing

    [s[i:j]] with Python's treatment of negative and out-of-range bounds;
    [j = None] is the open upper bound of [s[i:]]. *)
Definition slice_index (len : nat) (i : Z) : nat :=
  let l := Z.of_nat len in
  let i' := if (i <? 0)%Z then (i + l)%Z else i in
  Z.to_nat (Z.min l (Z.max 0 i')).

Definition slice (i : Z) (j : option Z) (s : str) : str :=
  let lo := slice_index (length s) i in
  let hi := match j with
            | Some j => slice_index (length s) j
            | None => length s
            end in
  firstn (hi - lo) (skipn lo s).

(** ** [str.split(sep, maxsplit)] and [str.split(sep)] for a non-empty
       separator

    CPython searches the separator from the left, cuts, and goes on after
    it, at most [maxsplit] times.  Without [maxsplit] the number of cuts is
    bounded by the length of the string, since every cut consumes at least
    one character. *)
Fixpoint split_max (n : nat) (sep s : str) : list str :=
  match n with
  | O => [s]
  | S n' =>
      match find sep s with
      | None => [s]
      | Some i => firstn i s :: split_max n' sep (skipn (i + length sep) s)
      end
  end.

Definition split (sep s : str) : list str := split_max (S (length s)) sep s.

(** ** [str.replace(old, new, count)] and [str.replace(old, new)]

    The non-overlapping occurrences of [old] are replaced from the left, at
    most [count] of them; without [count], all of them (there are at most
    as many as characters).  With an empty [old] and no [count], [new] is
    inserted before every character and at the end. *)
Fixpoint replace_max (n : nat) (old new s : str) : str :=
  match n with
  | O => s
  | S n' =>
      match find old s with
      | None => s
      | Some i =>
          firstn i s ++ new ++ replace_max n' old new (skipn (i + length old) s)
      end
  end.

Definition replace (old new s : str) : str :=
  match old with
  | [] => new ++ flat_map (fun c => c :: new) s
  | _ :: _ => replace_max (S (length s)) old new s
  end.

(** ** Indexing a list: [parts[i]]

    The code indexes the result of [split] at 0 (always present) and at 1
    behind a length test, so no [IndexError] can arise; the default value
    stands for the unreachable case. *)
Definition item (parts : list str) (i : nat) : str := nth i parts [].

(** Truth value of a string in a condition: non-empty. *)
Definition truthy (s : str) : bool :=
  match s with [] => false | _ :: _ => true end.

(** ** [re.match]

    The patterns of the source use literal characters, [.], [$], lazy
    [+?], the greedy optional [?], alternation and capturing groups.  The
    matcher below is the backtracking matcher of [re] restricted to these
    constructs: it tries the alternatives in the order [re] tries them and
    returns the first match, as a table from group numbers to captured
    texts. *)
Inductive regex : Type :=
| Chr (c : char)                (* a literal character *)
| Dot                           (* .    any character but a newline *)
| Eos                           (* $    the end, or before a final newline *)
| Seq (r1 r2 : regex)           (* r1r2 *)
| Alt (r1 r2 : regex)           (* r1|r2 *)
| PlusLazy (r : regex)          (* r+?  *)
| Opt (r : regex)               (* r?   *)
| Group (i : nat) (r : regex).  (* (r), the i-th capturing group *)

Infix "+>" := Seq (at level 60, right associativity).

Fixpoint re_go (r : regex) (s : str) (g : gmap nat str)
    (k : str → gmap nat str → option (gmap nat str)) {struct r}
    : option (gmap nat str) :=
  match r with
  | Chr c =>
      match s with
      | x :: s' => if (x =? c)%N then k s' g else None
      | [] => None
      end
  | Dot =>
      match s with
      | x :: s' => if (x =? NL)%N then None else k s' g
      | [] => None
      end
  | Eos =>
      match s with
      | [] => k s g
      | [x] => if (x =? NL)%N then k s g else None
      | _ => None
      end
  | Seq r1 r2 => re_go r1 s g (fun s' g' => re_go r2 s' g' k)
  | Alt r1 r2 =>
      match re_go r1 s g k with
      | Some m => Some m
      | None => re_go r2 s g k
      end
  | PlusLazy r1 =>
      (* one repetition, then the rest of the pattern; one more repetition
         only when the rest fails *)
      (fix loop (n : nat) (s : str) (g : gmap nat str) : option (gmap nat str) :=
         match n with
         | O => None
         | S n' =>
             re_go r1 s g (fun s' g' =>
               match k s' g' with
               | Some m => Some m
               | None => loop n' s' g'
               end)
         end) (S (length s)) s g
  | Opt r1 =>
      match re_go r1 s g k with
      | Some m => Some m
      | None => k s g
      end
  | Group i r1 =>
      re_go r1 s g (fun s' g' =>
        k s' (<[i := firstn (length s - length s') s]> g'))
  end.

(** [re.match(pattern, s)]: anchored at the start of [s]. *)
Definition re_match (r : regex) (s : str) : option (gmap nat str) :=
  re_go r s ∅ (fun _ g => Some g).

(* ===================================================================== *)
(** * Part II: the functions of the repository                           *)
(* ===================================================================== *)

(** ** Issue records

    app.py and utils/reviewer.py build every finding as a dict with the
    four keys [category], [location], [issue] and [suggestion];
    scenario_review_tool.py uses the dataclass [ReviewPoint] with the same
    four fields.  Both are modelled by one record. *)
Record IssueRecord : Type := mkIssue {
  category : str;
  location : str;
  issue : str;
  suggestion : str
}.

(** [d.get(key, default)] on such a dict. *)
Definition dict_get (d : IssueRecord) (key default : str) : str :=
  if decide (key = U "category") then category d
  else if decide (key = U "location") then location d
  else if decide (key = U "issue") then issue d
  else if decide (key = U "suggestion") then suggestion d
  else default.

(** The groups of a match object of the issue pattern, as app.py and
    utils/reviewer.py read them: [group(1).strip()], [group(2).strip()],
    and [group(3).strip()] when group 3 is present and non-empty, the empty
    string otherwise.  Groups 1 and 2 take part in every match of the
    pattern (lemma [issue_match_record]); the first branch is the only
    reachable one. *)
Definition record_of_match (current_category : str) (m : gmap nat str)
    : option IssueRecord :=
  match m !! 1, m !! 2 with
  | Some g1, Some g2 =>
      Some {| category := current_category;
              location := strip g1;
              issue := strip g2;
              suggestion := match m !! 3 with
                            | Some g3 => if truthy g3 then strip g3 else []
                            | None => []
                            end |}
  | _, _ => None
  end.

Module App.

(** *** app.py *)

(** [r'- (.+?)：(.+?)(?:→(.+?))?$'] *)
Definition issue_pattern : regex :=
  Chr DASH +> Chr SPACE +> Group 1 (PlusLazy Dot) +> Chr COLON +>
  Group 2 (PlusLazy Dot) +> Opt (Chr ARROW +> Group 3 (PlusLazy Dot)) +> Eos.

(** The body of the loop of [parse_review_response], on the state
    [(current_category, reviews)]. *)
Definition parse_review_line (st : str * list IssueRecord) (line : str)
    : str * list IssueRecord :=
  let '(current_category, reviews) := st in
  if startswith (U "【") line && endswith (U "】") line then
    (slice 1 (Some (-1)%Z) line, reviews)
  else if startswith (U "- ") line && truthy current_category then
    match re_match issue_pattern line with
    | Some m =>
        match record_of_match current_category m with
        | Some r => (current_category, reviews ++ [r])
        | None => st
        end
    | None => st
    end
  else st.

Definition parse_review_response (response_text : str) : list IssueRecord :=
  snd (fold_left parse_review_line (split [NL] response_text) ([], [])).

(** [f'<span class="highlighted-text">{location}</span>'] *)
Definition highlighted (loc : str) : str :=
  U "<span class=" ++ [QUOTE] ++ U "highlighted-text" ++ [QUOTE] ++ U ">"
    ++ loc ++ U "</span>".

(** The body of the loop of [highlight_issues_in_text]. *)
Definition highlight_issue (highlighted_content : str) (review : IssueRecord)
    : str :=
  let loc := location review in
  if contains loc highlighted_content then
    replace loc (highlighted loc) highlighted_content
  else highlighted_content.

Definition highlight_issues_in_text (content : str)
    (reviews : list IssueRecord) : str :=
  fold_left highlight_issue reviews content.

(** The statistics of the review branch (lines 465-468):
    [category_counts[cat] = category_counts.get(cat, 0) + 1]. *)
Definition category_counts (reviews : list IssueRecord) : gmap str nat :=
  fold_left
    (fun counts review =>
       let cat := category review in
       <[cat := default 0 (counts !! cat) + 1]> counts)
    reviews ∅.

(** The rewrite branch (lines 420-423): the two parts when both markers
    are present; otherwise the text is shown as it is and nothing is
    split. *)
Definition rewrite_parts (result_text : str) : option (str * str) :=
  if contains (U "【リライト後】") result_text
     && contains (U "【変更点】") result_text then
    let parts := split (U "【変更点】") result_text in
    let rewritten := strip (replace (U "【リライト後】") [] (item parts 0)) in
    let changes := if 1 <? length parts then strip (item parts 1) else [] in
    Some (rewritten, changes)
  else None.

End App.

Module Reviewer.

(** *** utils/reviewer.py *)

(** The dataclass [ReviewResult]. *)
Record ReviewResult : Type := mkReviewResult {
  phase : str;
  issues : list IssueRecord;
  suggestions : list str;
  overall_evaluation : str;
  rewritten_content : option str;
  changes_summary : option str
}.

(** [r'【(.+?)】'] *)
Definition category_pattern : regex :=
  Chr LBRACKET +> Group 1 (PlusLazy Dot) +> Chr RBRACKET.

(** [r'- (.+?)：(.+?)(?:→(.+?))?(?:\n|$)'] *)
Definition issue_pattern : regex :=
  Chr DASH +> Chr SPACE +> Group 1 (PlusLazy Dot) +> Chr COLON +>
  Group 2 (PlusLazy Dot) +> Opt (Chr ARROW +> Group 3 (PlusLazy Dot)) +>
  Alt (Chr NL) Eos.

(** The body of the loop of [_parse_review_response], on the state
    [(current_category, issues, suggestions)]. *)
Definition parse_review_line (st : str * list IssueRecord * list str)
    (line : str) : str * list IssueRecord * list str :=
  let '(current_category, issues, suggestions) := st in
  match re_match category_pattern line with
  | Some category_match =>
      (* current_category = category_match.group(1); continue *)
      (default [] (category_match !! 1), issues, suggestions)
  | None =>
      match re_match issue_pattern line with
      | Some issue_match =>
          if truthy current_category then
            match record_of_match current_category issue_match with
            | Some r =>
                (current_category, issues ++ [r],
                 if truthy (suggestion r) then suggestions ++ [suggestion r]
                 else suggestions)
            | None => st
            end
          else st
      | None => st
      end
  end.

(** [s.find(sub)] as an integer, -1 when absent. *)
Definition find_int (sub s : str) : Z :=
  match find sub s with Some i => Z.of_nat i | None => (-1)%Z end.

Definition _parse_review_response (response_text phase : str)
    : ReviewResult :=
  let '(_, issues, suggestions) :=
    fold_left parse_review_line (split [NL] response_text) ([], [], []) in
  let overall_evaluation :=
    if contains (U "全体評価") response_text
       || contains (U "総評") response_text then
      let eval_start := Z.max (find_int (U "全体評価") response_text)
                              (find_int (U "総評") response_text) in
      if (-1 <? eval_start)%Z then
        strip (List.last (split_max 2 [NL] (slice eval_start None response_text)) [])
      else []
    else [] in
  {| phase := phase;
     issues := issues;
     suggestions := suggestions;
     overall_evaluation := overall_evaluation;
     rewritten_content := None;
     changes_summary := None |}.

Definition _parse_rewrite_response (response_text : str) : str * str :=
  if contains (U "【リライト後】") response_text
     && contains (U "【変更点】") response_text then
    let parts := split (U "【変更点】") response_text in
    let rewritten := strip (replace (U "【リライト後】") [] (item parts 0)) in
    let changes := if 1 <? length parts then strip (item parts 1) else [] in
    (rewritten, changes)
  else
    (strip response_text, U "変更点のサマリーは提供されていません。").

(** [summary[category] = summary.get(category, 0) + 1] with
    [category = issue.get("category", "その他")]. *)
Definition extract_issues_summary (review_result : ReviewResult)
    : gmap str nat :=
  fold_left
    (fun summary issue =>
       let category := dict_get issue (U "category") (U "その他") in
       <[category := default 0 (summary !! category) + 1]> summary)
    (issues review_result) ∅.

End Reviewer.

Module Tool.

(** *** scenario_review_tool.py *)

(** The body of the loop of [_parse_text_response], on the state
    [(current_category, issues)]. *)
Definition parse_text_line (st : str * list IssueRecord) (line : str)
    : str * list IssueRecord :=
  let '(current_category, issues) := st in
  if startswith (U "【") line && endswith (U "】") line then
    (slice 1 (Some (-1)%Z) line, issues)
  else if startswith (U "- ") line then
    match split_max 1 [COLON] (slice 2 None line) with
    | [loc; issue_and_suggestion] =>
        let '(iss, sug) :=
          if contains [ARROW] issue_and_suggestion then
            match split_max 1 [ARROW] issue_and_suggestion with
            | [iss; sug] => (iss, sug)
            | _ => (issue_and_suggestion, [])
            end
          else (issue_and_suggestion, []) in
        (current_category,
         issues ++ [ {| category := current_category;
                        location := strip loc;
                        issue := strip iss;
                        suggestion := strip sug |} ])
    | _ => st
    end
  else st.

Definition _parse_text_response (text : str) : list IssueRecord :=
  snd (fold_left parse_text_line (split [NL] text) ([], [])).

End Tool.

(* ===================================================================== *)
(** * Part III: vocabulary of the properties                              *)
(* ===================================================================== *)

(** ** The marker literals *)

Definition REWRITTEN_MARK : str := U "【リライト後】".
Definition CHANGES_MARK : str := U "【変更点】".
Definition NO_SUMMARY : str := U "変更点のサマリーは提供されていません。".

(** ** Texts around occurrences *)

(** [sep.join(parts)], used to describe the result of [replace]. *)
Fixpoint join (sep : str) (parts : list str) : str :=
  match parts with
  | [] => []
  | [p] => p
  | p :: ps => p ++ sep ++ join sep ps
  end.

(** The text after the first occurrence of [sep] (empty when there is
    none), for comparison with what the splitter returns. *)
Definition text_after_first (sep s : str) : str :=
  match find sep s with
  | Some i => drop (i + length sep) s
  | None => []
  end.

(** The text before the first occurrence of [sep]. *)
Definition text_before_first (sep s : str) : str :=
  match find sep s with
  | Some i => take i s
  | None => s
  end.

(** ** The highlighter of the specification *)

(** The highlighter as the specification words it: each record replaces
    the first occurrence of its location only ([str.replace] with a count
    of 1).  It is compared with [App.highlight_issues_in_text] below. *)
Definition highlight_first_only (content : str) (reviews : list IssueRecord)
    : str :=
  fold_left
    (fun c review =>
       let loc := location review in
       if contains loc c then replace_max 1 loc (App.highlighted loc) c else c)
    reviews content.

(** ** Counting *)

(** [sum(d.values())] *)
Definition sum_values (d : gmap str nat) : nat :=
  map_fold (fun _ v acc => v + acc) 0 d.

(** Both aggregations are the same loop, up to how the category is read
    from the record. *)
Definition count_by (key : IssueRecord → str) (l : list IssueRecord)
    (d : gmap str nat) : gmap str nat :=
  fold_left (fun d x => <[key x := default 0 (d !! key x) + 1]> d) l d.

(** ** Patterns *)

(** What [(.+?)] followed by the rest [k] of a pattern does: it tries the
    non-empty newline-free prefixes of the text, shortest first, and keeps
    the first one after which [k] succeeds. *)
Fixpoint lazy_dot {R : Type} (k : str → option R) (s : str) : option R :=
  match s with
  | [] => None
  | x :: s' =>
      if (x =? NL)%N then None
      else match k s' with
           | Some m => Some m
           | None => lazy_dot k s'
           end
  end.

(** The end of the issue pattern, after group 2: [(?:→(.+?))?$]. *)
Definition issue_tail : regex :=
  Opt (Chr ARROW +> Group 3 (PlusLazy Dot)) +> Eos.

(** The end of the issue pattern of reviewer.py: [(?:→(.+?))?(?:\n|$)]. *)
Definition issue_tail_nl : regex :=
  Opt (Chr ARROW +> Group 3 (PlusLazy Dot)) +> Alt (Chr NL) Eos.

Definition accept : str → gmap nat str → option (gmap nat str) :=
  fun _ g => Some g.

(** ** Lines and records *)

(** The header test of app.py and scenario_review_tool.py. *)
Definition bracketed (line : str) : bool :=
  startswith (U "【") line && endswith (U "】") line.

(** The header test of utils/reviewer.py. *)
Definition reviewer_header (line : str) : bool :=
  match re_match Reviewer.category_pattern line with
  | Some _ => true
  | None => false
  end.

(** The record [r] was made from the issue line [line] under the category
    [cat]: the category is active, and location and issue are the trimmed
    texts of two non-empty groups around the first usable ：. *)
Definition emitted_from (cat line : str) (r : IssueRecord) : Prop :=
  cat ≠ [] ∧ category r = cat
  ∧ ∃ g1 g2 tail,
      line = DASH :: SPACE :: g1 ++ COLON :: g2 ++ tail
      ∧ g1 ≠ [] ∧ g2 ≠ []
      ∧ location r = strip g1 ∧ issue r = strip g2.

(** The header lines of app.py: a category between the two brackets. *)
Definition app_sets_cat (line cat : str) : Prop :=
  line = LBRACKET :: cat ++ [RBRACKET].

(** The header lines of utils/reviewer.py: a non-empty category after the
    opening bracket and before a closing bracket, and any text after it. *)
Definition reviewer_sets_cat (line cat : str) : Prop :=
  cat ≠ [] ∧ ∃ rest, line = LBRACKET :: cat ++ RBRACKET :: rest.

(** ** Texts in the expected format *)

(** Texts in the expected format.  A line that starts with 【 is a header
    [【category】] whose category is non-empty and has no 】.  A line that
    starts with ["- "] and has a ： comes after a header, has a non-empty
    location before its first ： and a non-empty text after it; when that
    text has a →, the issue before the first → and the suggestion after it
    are non-empty.  Other lines are free. *)
Definition regular_header (line : str) : bool :=
  bracketed line
  && truthy (slice 1 (Some (-1)%Z) line)
  && negb (contains [RBRACKET] (slice 1 (Some (-1)%Z) line)).

Definition regular_issue (body : str) (i : nat) : bool :=
  let rest := drop (i + 1) body in
  (0 <? i) && truthy rest
  && match find [ARROW] rest with
     | None => true
     | Some j => (0 <? j) && (j + 1 <? length rest)
     end.

Definition regular_line (active : bool) (line : str) : bool :=
  if startswith (U "【") line then regular_header line
  else if startswith (U "- ") line then
    match find [COLON] (slice 2 None line) with
    | None => true
    | Some i => active && regular_issue (slice 2 None line) i
    end
  else true.

Fixpoint regular_lines (active : bool) (lines : list str) : bool :=
  match lines with
  | [] => true
  | line :: rest =>
      regular_line active line
      && regular_lines (active || startswith (U "【") line) rest
  end.

Definition regular (text : str) : bool :=
  regular_lines false (split [NL] text).

(** ** Sample texts *)

Definition example_review : str :=
  U "【設定の矛盾】" ++ [NL] ++ U "- 義父：死亡後に登場→矛盾を削除" ++ [NL]
  ++ U "【リアリティ】" ++ [NL] ++ U "- 慰謝料：高すぎる" ++ [NL].

Definition rewrite_sample : str :=
  U "【リライト後】REWRITTEN" ++ [NL] ++ U "【変更点】SUMMARY".

Definition orphan_sample : str := U "- a：b".
Definition headed_sample : str := U "【A】" ++ [NL] ++ U "- c：d→e".

Definition blank_issue_sample : str := U "【A】" ++ [NL] ++ U "- a： ".

Definition blank_issue_record : IssueRecord :=
  {| category := U "A"; location := U "a"; issue := []; suggestion := [] |}.

(* ===================================================================== *)
(** * Part III bis: the other functions of the files                      *)
(* ===================================================================== *)

(** The other text-processing functions of the repository:

    - [estimate_tokens], [create_backup] and the length check of the input
      column (app.py),
    - [check_ng_expressions] and [validate_scenario_length]
      (utils/reviewer.py), with the constants of config.py they read,
    - [_fetch_and_format_transcript] and [get_summary]
      (utils/youtube_transcript.py),
    - [_summarize_issues] (utils/prompts.py),
    - [extract_video_id] (utils/youtube_helper.py).

    What these functions get from the network, the clock or the session
    (the fetched subtitles, the timestamp, the stored backups) is an
    argument of the model.  Their properties are in the fifth part. *)

(** ** More built-ins *)

(** [l[-n:]] for a positive [n]: the last [n] items, all of them when the
    list is shorter. *)
Definition last_items {A : Type} (n : nat) (l : list A) : list A :=
  skipn (length l - n) l.

(** [[c]+] at the start of a text, for a class [c] of characters: the
    longest run of characters of the class and what follows it; no match
    when the run is empty. *)
Fixpoint class_run (c : char → bool) (s : str) : str * str :=
  match s with
  | [] => ([], [])
  | x :: s' =>
      if c x then let '(run, rest) := class_run c s' in (x :: run, rest)
      else ([], s)
  end.

Definition class_plus (c : char → bool) (s : str) : option (str * str) :=
  match class_run c s with
  | ([], _) => None
  | (run, rest) => Some (run, rest)
  end.

(** [re.findall(p, s)] for a pattern [p] without groups that never matches
    the empty string, given as the function that matches [p] at the start
    of a text and returns the match and the rest: the matches are taken
    from the left and do not overlap; where [p] does not match, the search
    moves on by one character.  Every step consumes a character, which
    bounds the recursion. *)
Fixpoint findall_fuel (n : nat) (p : str → option (str * str)) (s : str)
    : list str :=
  match n with
  | O => []
  | S n' =>
      match s with
      | [] => []
      | _ :: s' =>
          match p s with
          | Some (m, rest) => m :: findall_fuel n' p rest
          | None => findall_fuel n' p s'
          end
      end
  end.

Definition findall (p : str → option (str * str)) (s : str) : list str :=
  findall_fuel (S (length s)) p s.

(** [[m.start() for m in re.finditer(re.escape(sub), s)]] for a non-empty
    [sub]: the positions of the occurrences of the literal [sub], from the
    left, not overlapping.  [offset] is the position of [s] in the whole
    text. *)
Fixpoint occurrences_fuel (n : nat) (sub s : str) (offset : nat) : list nat :=
  match n with
  | O => []
  | S n' =>
      match find sub s with
      | None => []
      | Some i =>
          (offset + i)
            :: occurrences_fuel n' sub (skipn (i + length sub) s)
                 (offset + i + length sub)
      end
  end.

Definition occurrences (sub s : str) : list nat :=
  occurrences_fuel (S (length s)) sub s 0.

(** [sorted(l, key=key)]: the sort is stable, which fixes its result; it is
    written as the insertion sort that puts an item before the first item
    with a key that is not smaller. *)
Fixpoint insert_by {A : Type} (key : A → nat) (x : A) (l : list A) : list A :=
  match l with
  | [] => [x]
  | y :: l' => if key x <=? key y then x :: l else y :: insert_by key x l'
  end.

Fixpoint sorted_by {A : Type} (key : A → nat) (l : list A) : list A :=
  match l with
  | [] => []
  | x :: l' => insert_by key x (sorted_by key l')
  end.

(** [re.sub(r'\n+', '\n', s)]: every run of newlines becomes one newline
    (a newline that is followed by a newline is dropped). *)
Fixpoint collapse_newlines (s : str) : str :=
  match s with
  | [] => []
  | c :: s' =>
      if (c =? NL)%N then
        match s' with
        | d :: _ => if (d =? NL)%N then collapse_newlines s'
                    else NL :: collapse_newlines s'
        | [] => [NL]
        end
      else c :: collapse_newlines s'
  end.

(** ** app.py: [estimate_tokens] and [create_backup] *)

Module AppMore.

(** The three classes of [r'[ぁ-ん]+|[ァ-ヴー]+|[一-龠]+']. *)
Definition hiragana (c : char) : bool := ((12353 <=? c) && (c <=? 12435))%N.
Definition katakana (c : char) : bool :=
  ((12449 <=? c) && (c <=? 12532) || (c =? 12540))%N.
Definition kanji (c : char) : bool := ((19968 <=? c) && (c <=? 40864))%N.

(** The pattern at the start of a text: the first alternative that
    matches. *)
Definition japanese_run (s : str) : option (str * str) :=
  match class_plus hiragana s with
  | Some m => Some m
  | None =>
      match class_plus katakana s with
      | Some m => Some m
      | None => class_plus kanji s
      end
  end.

(** [japanese_chars] is the number of matches of the pattern;
    [len(text) - japanese_chars] is never negative (lemma
    [findall_length]), so the subtraction of [nat] is the one of the
    code. *)
Definition estimate_tokens (text : str) : nat :=
  let japanese_chars := length (findall japanese_run text) in
  let other_chars := length text - japanese_chars in
  japanese_chars + other_chars / 4.

(** [create_backup(data)], on the list [st.session_state.backup_data];
    [now] is [datetime.now().isoformat()].  An entry is the pair of the
    timestamp and the data. *)
Definition create_backup {D : Type} (now : str) (data : D)
    (backup_data : list (str * D)) : list (str * D) :=
  let backup_data := backup_data ++ [(now, data)] in
  if 10 <? length backup_data then last_items 10 backup_data
  else backup_data.

(** The length check of the input column (line 318), made in the two
    scenario phases; [char_count] is [len(content)]. *)
Definition length_recommended (content : str) : bool :=
  let char_count := Z.of_nat (length content) in
  ((5000 <=? char_count) && (char_count <=? 7000))%Z.

End AppMore.

(** ** config.py *)

Module Config.

Definition SCENARIO_MIN_LENGTH : Z := 5000%Z.
Definition SCENARIO_MAX_LENGTH : Z := 7000%Z.
Definition SCENARIO_OPTIMAL_LENGTH : Z := 6000%Z.

Definition NG_EXPRESSIONS : list str :=
  [ U "のだ。";
    U "のだった。";
    U "していたんだ。";
    U "そう、その時です。";
    U "地球の裏側まで届くような";
    U "～であった。";
    U "～なのであった。" ].

End Config.

(** ** utils/reviewer.py: [check_ng_expressions] and
       [validate_scenario_length] *)

Module ReviewerMore.

(** The loop over [NG_EXPRESSIONS], in the order of the list, then the
    sort by position. *)
Definition found_ng (content : str) : list (str * nat) :=
  flat_map (fun ng => map (fun pos => (ng, pos)) (occurrences ng content))
    Config.NG_EXPRESSIONS.

Definition check_ng_expressions (content : str) : list (str * nat) :=
  sorted_by snd (found_ng content).

(** The dict that [validate_scenario_length] returns. *)
Record LengthReport : Type := mkLengthReport {
  length : Z;
  is_valid : bool;
  is_optimal : bool;
  min_length : Z;
  max_length : Z;
  optimal_length : Z
}.

Definition validate_scenario_length (content : str) : LengthReport :=
  let len := Z.of_nat (List.length content) in
  {| length := len;
     is_valid := ((Config.SCENARIO_MIN_LENGTH <=? len)
                  && (len <=? Config.SCENARIO_MAX_LENGTH))%Z;
     is_optimal :=
       (Z.abs (len - Config.SCENARIO_OPTIMAL_LENGTH) <=? 500)%Z;
     min_length := Config.SCENARIO_MIN_LENGTH;
     max_length := Config.SCENARIO_MAX_LENGTH;
     optimal_length := Config.SCENARIO_OPTIMAL_LENGTH |}.

End ReviewerMore.


(** ** utils/youtube_transcript.py *)

Module Transcript.

(** [_fetch_and_format_transcript], from what [transcript.fetch()] gives:
    [None] stands for a fetch that raises (the function then returns
    [None]), [Some] for the fetched entries, each given by its ['text']. *)
Definition _fetch_and_format_transcript (fetched : option (list str))
    : option str :=
  match fetched with
  | None => None
  | Some subtitle_data =>
      match subtitle_data with
      | [] => None
      | _ :: _ =>
          let text_parts := List.filter truthy (map strip subtitle_data) in
          match text_parts with
          | [] => None
          | _ :: _ => Some (collapse_newlines (join [NL] text_parts))
          end
      end
  end.

(** The dict that [get_summary] returns; the key ['length'] is present on
    success only. *)
Record Summary : Type := mkSummary {
  success : bool;
  message : str;
  text : str;
  length : option Z
}.

(** [get_summary], from what [get_transcript(video_id)] gives. *)
Definition get_summary (transcript : option str) (max_length : Z) : Summary :=
  match transcript with
  | Some (c :: t) =>
      let transcript := c :: t in
      let transcript :=
        if (max_length <? Z.of_nat (List.length transcript))%Z then
          slice 0 (Some max_length) transcript
            ++ U "..." ++ [NL] ++ U "（以下省略）"
        else transcript in
      {| success := true;
         message := U "字幕を取得しました";
         text := transcript;
         length := Some (Z.of_nat (List.length transcript)) |}
  | _ =>
      {| success := false;
         message := U "字幕を取得できませんでした。手動でのコピー＆ペーストをお試しください。";
         text := [];
         length := None |}
  end.

End Transcript.

(** ** utils/prompts.py: [_summarize_issues] *)

Module Prompts.

(** The dict [summary_by_category] keeps the order in which its keys were
    first set: it is a list of keys with their values.
    [if k not in d: d[k] = []] followed by [d[k].append(v)]: *)
Fixpoint dict_append (k v : str) (d : list (str * list str))
    : list (str * list str) :=
  match d with
  | [] => [(k, [v])]
  | (k', vs) :: d' =>
      if decide (k = k') then (k', vs ++ [v]) :: d'
      else (k', vs) :: dict_append k v d'
  end.

(** [f"- {issue['location']}: {issue['issue']}"] *)
Definition issue_line (r : IssueRecord) : str :=
  U "- " ++ location r ++ U ": " ++ issue r.

Definition summary_by_category (issues : list IssueRecord)
    : list (str * list str) :=
  fold_left
    (fun d issue =>
       let category := dict_get issue (U "category") (U "その他") in
       dict_append category (issue_line issue) d)
    issues [].

(** The list [summary_text]. *)
Definition summary_text (issues : list IssueRecord) : list str :=
  flat_map
    (fun '(category, issue_list) =>
       [U "【" ++ category ++ U "】"] ++ issue_list ++ [[]])
    (summary_by_category issues).

Definition _summarize_issues (issues : list IssueRecord) : str :=
  match issues with
  | [] => U "特に大きな問題点はありませんが、より良い作品にするため全体的にブラッシュアップしてください。"
  | _ :: _ => join [NL] (summary_text issues)
  end.

End Prompts.

(** ** Vocabulary of the further properties *)

(** A text of white space only. *)
Definition blank (s : str) : Prop := ∀ c, c ∈ s → is_space c = true.

(** The text fields of a record are their own trimming. *)
Definition trimmed (r : IssueRecord) : Prop :=
  strip (location r) = location r
  ∧ strip (issue r) = issue r
  ∧ strip (suggestion r) = suggestion r.

(** The lines from which scenario_review_tool.py makes a record. *)
Definition tool_issue_line (line : str) : bool :=
  negb (bracketed line)
  && startswith (U "- ") line
  && contains [COLON] (slice 2 None line).

Definition evaluation_sample : str :=
  U "【全体評価】" ++ [NL] ++ U "良い作品です。" ++ [NL] ++ U "改善点は二つ。".

(** The distinct elements of a list, in the order of their first
    occurrence: the order of the keys of a Python dict filled from it. *)
Fixpoint first_occurrences (l : list str) : list str :=
  match l with
  | [] => []
  | x :: l' => x :: filter (fun y => y ≠ x) (first_occurrences l')
  end.

(** The lines of one category in the summary of the rewrite prompt. *)
Definition category_block (issues : list IssueRecord) (k : str) : list str :=
  [U "【" ++ k ++ U "】"]
  ++ map Prompts.issue_line (filter (fun r => category r = k) issues)
  ++ [[]].

Definition summary_sample : list IssueRecord :=
  [mkIssue (U "A") (U "p1") (U "x") [];
   mkIssue (U "B") (U "p2") (U "y") (U "s");
   mkIssue (U "A") (U "p3") (U "z") []].

Definition summary_result : Reviewer.ReviewResult :=
  Reviewer.mkReviewResult [] summary_sample [U "s"] [] None None.


(** ** utils/youtube_helper.py *)

Module YouTube.

(** The constructs of the three patterns of [extract_video_id].  The
    escapes [\.], [\/] and [\?] of the source stand for the characters
    themselves. *)
Inductive pattern : Type :=
| Lit (s : str)              (* a literal text *)
| NoneOf (cs : list char)    (* [^...] *)
| AnyChar                    (* [.]: any character but a line break *)
| Cat (p q : pattern)        (* p followed by q *)
| Or (p q : pattern)         (* p|q, p tried first *)
| Star (p : pattern)         (* p*, greedy *)
| Plus (p : pattern)         (* p+, greedy *)
| Capture (p : pattern).     (* ( ... ), the group of the pattern *)

(** A backtracking matcher in continuation-passing style: [k] receives the
    text that is left and the text of the group.  [star m n] is the greedy
    repetition of the matcher [m]: one more round is tried first, the
    continuation only when that fails; a round must consume something. *)
Fixpoint star {R : Type}
    (m : str → option str → (str → option str → option R) → option R)
    (n : nat) (s : str) (g : option str)
    (k : str → option str → option R) : option R :=
  match n with
  | O => k s g
  | S n' =>
      match m s g (fun s' g' =>
                     if length s' <? length s then star m n' s' g' k
                     else None) with
      | Some r => Some r
      | None => k s g
      end
  end.

Fixpoint go {R : Type} (p : pattern) (s : str) (g : option str)
    (k : str → option str → option R) : option R :=
  match p with
  | Lit l => if startswith l s then k (drop (length l) s) g else None
  | NoneOf cs =>
      match s with
      | x :: s' => if existsb (N.eqb x) cs then None else k s' g
      | [] => None
      end
  | AnyChar =>
      match s with
      | x :: s' => if (x =? NL)%N then None else k s' g
      | [] => None
      end
  | Cat p q => go p s g (fun s' g' => go q s' g' k)
  | Or p q =>
      match go p s g k with
      | Some r => Some r
      | None => go q s g k
      end
  | Star p => star (go p) (S (length s)) s g k
  | Plus p =>
      go p s g (fun s' g' => star (go p) (S (length s')) s' g' k)
  | Capture p =>
      go p s g (fun s' _ => k s' (Some (take (length s - length s') s)))
  end.

(** [re.search(pattern, url)]: the match at the leftmost position that has
    one; the result is the group of the match. *)
Fixpoint search (p : pattern) (s : str) : option (option str) :=
  match go p s None (fun _ g => Some g) with
  | Some g => Some g
  | None =>
      match s with
      | [] => None
      | _ :: s' => search p s'
      end
  end.

(** [[^&\n?#]] *)
Definition id_chars : pattern := NoneOf [38%N; NL; 63%N; 35%N].

Definition patterns : list pattern :=
  [ Cat (Or (Lit (U "youtube.com/watch?v="))
           (Or (Lit (U "youtu.be/")) (Lit (U "youtube.com/embed/"))))
        (Capture (Plus id_chars));
    Cat (Lit (U "youtube.com/watch?"))
        (Cat (Star AnyChar) (Cat (Lit (U "v=")) (Capture (Plus id_chars))));
    Cat (Lit (U "youtu.be/")) (Capture (Plus id_chars)) ].

(** The loop over the patterns: [match.group(1)] of the first pattern that
    is found in the URL. *)
Fixpoint first_found (ps : list pattern) (url : str) : option str :=
  match ps with
  | [] => None
  | p :: ps' =>
      match search p url with
      | Some g => g
      | None => first_found ps' url
      end
  end.

Definition extract_video_id (url : str) : option str :=
  first_found patterns url.

(** The entries ['url'] and ['embed_url'] of the dict of
    [get_video_info] (lines 50-51); the title and the author come from the
    network. *)
Definition info_url (video_id : str) : str :=
  U "https://www.youtube.com/watch?v=" ++ video_id.

Definition info_embed_url (video_id : str) : str :=
  U "https://www.youtube.com/embed/" ++ video_id.

End YouTube.

(** The characters that end a video id: [&], the line break, [?], [#]. *)
Definition ID_STOP : list char := [38%N; NL; 63%N; 35%N].

(** A text at which a video id ends: the end of the URL, or one of the
    four characters. *)
Definition stops (rest : str) : bool :=
  match rest with
  | [] => true
  | c :: _ => existsb (N.eqb c) ID_STOP
  end.

(** The patterns without a group. *)
Fixpoint plain (p : YouTube.pattern) : bool :=
  match p with
  | YouTube.Lit _ | YouTube.NoneOf _ | YouTube.AnyChar => true
  | YouTube.Cat p q | YouTube.Or p q => plain p && plain q
  | YouTube.Star p | YouTube.Plus p => plain p
  | YouTube.Capture _ => false
  end.


(** ** The groups of an issue line *)

(** The groups of the issue pattern on a line without line break, said
    without the pattern.  The line is ["- " g1 "：" g2], followed by nothing
    or by [→ g3].  Group 1 is not empty and has no ： after its first
    character: it ends before the first ： that is not the first character
    of the text.  Group 2 is not empty.  With a group 3, group 2 has no →
    after its first character and group 3 is the non-empty rest of the
    line; without one, group 2 is the rest of the line, and a → after its
    first character can only be its last character. *)
Definition issue_groups (line g1 g2 : str) (g3 : option str) : Prop :=
  g1 ≠ [] ∧ (COLON ∉ drop 1 g1) ∧ g2 ≠ []
  ∧ match g3 with
    | Some g3 =>
        line = DASH :: SPACE :: g1 ++ COLON :: g2 ++ ARROW :: g3
        ∧ g3 ≠ [] ∧ (ARROW ∉ drop 1 g2)
    | None =>
        line = DASH :: SPACE :: g1 ++ COLON :: g2
        ∧ ∀ j, 0 < j → g2 !! j = Some ARROW → S j = length g2
    end.

(** The match object with these groups. *)
Definition groups_match (g1 g2 : str) (g3 : option str) : gmap nat str :=
  match g3 with
  | Some g3 => <[3 := g3]> (<[2 := g2]> (<[1 := g1]> ∅))
  | None => <[2 := g2]> (<[1 := g1]> ∅)
  end.

(** A text without a line that starts with 【 and ends with 】. *)
Definition unclosed_header_sample : str := U "【A】x" ++ [NL] ++ U "- a：b".

(* ===================================================================== *)
(** * Part IV: properties                                                 *)
(* ===================================================================== *)

(** Closed side conditions of the examples. *)
Ltac by_computation :=
  first
    [ vm_compute; reflexivity
    | refine (bool_decide_unpack _ _); vm_compute; exact I
    | apply list_elem_of_In; vm_compute; tauto ].

(** ** Prefixes and first occurrences *)

Section Find.

Lemma startswith_spec (p s : str) :
  startswith p s = true ↔ s = p ++ drop (length p) s.
Proof.
  revert s; induction p as [|a p IH]; intros s; simpl.
  - rewrite drop_0. tauto.
  - destruct s as [|b s]; simpl; [split; discriminate|].
    rewrite andb_true_iff, N.eqb_eq, IH. split.
    + intros [-> H]. by rewrite <- H.
    + intros H. injection H as -> H. done.
Qed.

Lemma startswith_app (p t : str) : startswith p (p ++ t) = true.
Proof. apply startswith_spec. by rewrite drop_app_length. Qed.

Lemma startswith_nil (p : str) : startswith p [] = true → p = [].
Proof. by destruct p. Qed.

(** [find] returns the position of an occurrence ... *)
Lemma find_Some (sub s : str) (i : nat) :
  find sub s = Some i →
  s = take i s ++ sub ++ drop (i + length sub) s.
Proof.
  revert i; induction s as [|c s IH]; intros i; simpl.
  - destruct (startswith sub []) eqn:E; [|discriminate].
    intros [= <-]. apply startswith_nil in E. by subst.
  - destruct (startswith sub (c :: s)) eqn:E.
    + intros [= <-]. by apply startswith_spec in E.
    + destruct (find sub s) as [j|]; simpl; [|discriminate].
      intros [= <-]. simpl. f_equal. by apply IH.
Qed.

(** ... and no occurrence starts before it. *)
Lemma find_Some_first (sub s : str) (i j : nat) :
  find sub s = Some i → j < i → startswith sub (drop j s) = false.
Proof.
  revert i j; induction s as [|c s IH]; intros i j; simpl.
  - destruct (startswith sub []); [|discriminate]. intros [= <-]. lia.
  - destruct (startswith sub (c :: s)) eqn:E; [intros [= <-]; lia|].
    destruct (find sub s) as [i'|] eqn:F; simpl; [|discriminate].
    intros [= <-] Hj. destruct j as [|j]; [done|].
    simpl. apply (IH i'); [done | lia].
Qed.

Lemma find_None (sub s : str) (j : nat) :
  find sub s = None → startswith sub (drop j s) = false.
Proof.
  revert j; induction s as [|c s IH]; intros j; simpl.
  - destruct (startswith sub []) eqn:E; [discriminate|]. by rewrite drop_nil.
  - destruct (startswith sub (c :: s)) eqn:E; [discriminate|].
    destruct (find sub s) eqn:F; simpl; [discriminate|].
    intros _. destruct j; [done|]. by apply IH.
Qed.

Lemma find_bound (sub s : str) (i : nat) :
  find sub s = Some i → i + length sub ≤ length s.
Proof.
  revert i; induction s as [|c s IH]; intros i; simpl.
  - destruct (startswith sub []) eqn:E; [|discriminate].
    intros [= <-]. apply startswith_nil in E. by subst.
  - destruct (startswith sub (c :: s)) eqn:E.
    + intros [= <-]. apply startswith_spec in E.
      apply (f_equal length) in E. rewrite length_app in E. simpl in *. lia.
    + destruct (find sub s) as [j|]; simpl; [|discriminate].
      intros [= <-]. specialize (IH j eq_refl). lia.
Qed.

Lemma find_nil (s : str) : find [] s = Some 0.
Proof. by destruct s. Qed.

(** For a one-character pattern: membership. *)
Lemma find_char_None (c : char) (s : str) : find [c] s = None ↔ c ∉ s.
Proof.
  induction s as [|x s IH]; simpl.
  - split; [intros _; apply not_elem_of_nil | done].
  - rewrite andb_true_r. destruct (N.eqb_spec c x) as [->|Hne].
    + split; [discriminate|]. intros H. exfalso. apply H. left.
    + rewrite not_elem_of_cons. destruct (find [c] s); simpl.
      * split; [discriminate|]. intros [_ H]. by apply IH in H.
      * split; [|done]. intros _. split; [done|]. by apply IH.
Qed.

Lemma find_char_app (c : char) (pre post : str) :
  c ∉ pre → find [c] (pre ++ c :: post) = Some (length pre).
Proof.
  induction pre as [|x pre IH]; simpl; intros H.
  - by rewrite N.eqb_refl.
  - apply not_elem_of_cons in H as [Hne H].
    rewrite andb_true_r. destruct (N.eqb_spec c x); [done|].
    by rewrite IH.
Qed.

Lemma find_char_Some (c : char) (s : str) (i : nat) :
  find [c] s = Some i →
  s = take i s ++ (c :: drop (S i) s) ∧ (c ∉ take i s) ∧ i < length s.
Proof.
  intros H. pose proof (find_Some _ _ _ H) as E.
  pose proof (find_bound _ _ _ H) as B. simpl in *.
  replace (i + 1) with (S i) in E by lia. split; [done|]. split; [|lia].
  intros Hin. apply list_elem_of_lookup in Hin as [j Hj].
  pose proof (lookup_lt_Some _ _ _ Hj) as Hlt.
  rewrite length_take in Hlt.
  rewrite lookup_take_lt in Hj by lia.
  pose proof (find_Some_first _ _ _ j H ltac:(lia)) as F.
  rewrite (drop_S _ _ _ Hj) in F. simpl in F.
  by rewrite N.eqb_refl in F.
Qed.

Lemma contains_true (sub s : str) :
  contains sub s = true ↔ ∃ i, find sub s = Some i.
Proof.
  unfold contains. destruct (find sub s) as [i|].
  - split; [intros _; by exists i | done].
  - split; [done | intros [i Hi]; done].
Qed.

Lemma contains_false (sub s : str) :
  contains sub s = false ↔ find sub s = None.
Proof. unfold contains. destruct (find sub s); split; done. Qed.

Lemma contains_char (c : char) (s : str) : contains [c] s = true ↔ c ∈ s.
Proof.
  unfold contains. pose proof (find_char_None c s) as H.
  destruct (find [c] s).
  - split; [|done]. intros _. destruct (decide (c ∈ s)); [done|].
    by apply H in n0.
  - split; [done|]. intros Hin. exfalso. by apply H.
Qed.

End Find.

(** ** Cutting and replacing *)

Section SplitReplace.

Variable sep : str.
Hypothesis sep_nonempty : sep ≠ [].

Lemma find_consumes (s : str) (i : nat) :
  find sep s = Some i → length (drop (i + length sep) s) < length s.
Proof.
  intros H. apply find_bound in H. rewrite length_drop.
  destruct sep; [done|]. simpl in *. lia.
Qed.

(** The bound on the number of cuts is never reached. *)
Lemma split_max_enough (n m : nat) (s : str) :
  length s < n → length s < m → split_max n sep s = split_max m sep s.
Proof.
  revert m s; induction n as [|n IH]; intros m s Hn Hm; [lia|].
  destruct m as [|m]; [lia|]. simpl.
  destruct (find sep s) as [i|] eqn:F; [|done].
  pose proof (find_consumes _ _ F). f_equal. apply IH; lia.
Qed.

Lemma split_unfold (s : str) :
  split sep s =
  match find sep s with
  | None => [s]
  | Some i => take i s :: split sep (drop (i + length sep) s)
  end.
Proof.
  unfold split at 1. simpl. destruct (find sep s) as [i|] eqn:F; [|done].
  pose proof (find_consumes _ _ F). f_equal.
  unfold split. apply split_max_enough; lia.
Qed.

Lemma replace_max_enough (n m : nat) (new s : str) :
  length s < n → length s < m →
  replace_max n sep new s = replace_max m sep new s.
Proof.
  revert m s; induction n as [|n IH]; intros m s Hn Hm; [lia|].
  destruct m as [|m]; [lia|]. simpl.
  destruct (find sep s) as [i|] eqn:F; [|done].
  pose proof (find_consumes _ _ F). do 2 f_equal. apply IH; lia.
Qed.

Lemma replace_unfold (new s : str) :
  replace sep new s =
  match find sep s with
  | None => s
  | Some i => take i s ++ new ++ replace sep new (drop (i + length sep) s)
  end.
Proof.
  assert (∀ t, replace sep new t = replace_max (S (length t)) sep new t)
    as E by (intros t; unfold replace; by destruct sep).
  rewrite E. simpl.
  destruct (find sep s) as [i|] eqn:F; [|done].
  pose proof (find_consumes _ _ F). do 2 f_equal.
  rewrite E. apply replace_max_enough; lia.
Qed.

Lemma split_nonempty (s : str) : split sep s ≠ [].
Proof. rewrite split_unfold. by destruct (find sep s). Qed.

(** [s.replace(sep, new) == new.join(s.split(sep))]: the pieces between
    the occurrences are kept and every occurrence becomes [new]. *)
Lemma replace_join (new s : str) :
  replace sep new s = join new (split sep s).
Proof.
  remember (length s) as n eqn:Hn. revert s Hn.
  induction (lt_wf n) as [n _ IH]; intros s ->.
  rewrite replace_unfold, split_unfold.
  destruct (find sep s) as [i|] eqn:F; [|done].
  pose proof (find_consumes _ _ F) as Hlt.
  rewrite (IH _ Hlt _ eq_refl). simpl.
  pose proof (split_nonempty (drop (i + length sep) s)).
  by destruct (split sep (drop (i + length sep) s)).
Qed.

(** The first two parts of a cut at an occurrence. *)
Lemma split_two (s : str) (i : nat) :
  find sep s = Some i →
  let rest := drop (i + length sep) s in
  item (split sep s) 0 = take i s ∧
  1 < length (split sep s) ∧
  item (split sep s) 1 =
    match find sep rest with Some j => take j rest | None => rest end.
Proof.
  intros F rest. rewrite split_unfold, F. fold rest.
  rewrite (split_unfold rest).
  destruct (find sep rest) as [j|]; simpl; repeat split; lia.
Qed.

End SplitReplace.

(** The lines of a text contain no newline. *)
Lemma split_lines_no_NL (s line : str) : line ∈ split [NL] s → NL ∉ line.
Proof.
  remember (length s) as n eqn:Hn. revert s Hn.
  induction (lt_wf n) as [n _ IH]; intros s ->.
  rewrite split_unfold by done.
  destruct (find [NL] s) as [i|] eqn:F.
  - intros [->|Hin]%elem_of_cons.
    + by apply find_char_Some in F as (_ & H & _).
    + eapply IH; [|reflexivity|exact Hin]. by apply find_consumes.
  - intros ->%list_elem_of_singleton. by apply find_char_None.
Qed.

(** The lines of [s1 + "\n" + s2] are the lines of [s1] followed by the
    lines of [s2]. *)
Lemma split_lines_app (s1 s2 : str) :
  split [NL] (s1 ++ NL :: s2) = split [NL] s1 ++ split [NL] s2.
Proof.
  remember (length s1) as n eqn:Hn. revert s1 Hn.
  induction (lt_wf n) as [n _ IH]; intros s1 ->.
  rewrite (split_unfold [NL] ltac:(done) s1).
  destruct (find [NL] s1) as [i|] eqn:F.
  - pose proof (find_char_Some _ _ _ F) as (E & Hni & Hlt).
    rewrite (split_unfold [NL] ltac:(done) (s1 ++ NL :: s2)).
    assert (find [NL] (s1 ++ NL :: s2) = Some i) as ->.
    { rewrite E at 1. rewrite <- app_assoc. simpl.
      rewrite find_char_app by done. by rewrite length_take_le by lia. }
    simpl. rewrite take_app_le by lia. f_equal.
    rewrite drop_app_le by lia.
    apply (IH (length (drop (i + 1) s1))); [|done].
    by apply (find_consumes [NL]).
  - apply find_char_None in F.
    rewrite (split_unfold [NL] ltac:(done) (s1 ++ NL :: s2)).
    rewrite find_char_app by done. simpl.
    rewrite take_app_length. f_equal.
    replace (length s1 + 1) with (length s1 + 1 + 0) by lia.
    rewrite <- Nat.add_assoc.
    rewrite drop_app_add'; [|done]. by simpl.
Qed.

(** ** Counting by category *)

Section Counting.

Variable key : IssueRecord → str.

Lemma sum_values_incr (d : gmap str nat) (k : str) :
  sum_values (<[k := default 0 (d !! k) + 1]> d) = S (sum_values d).
Proof.
  unfold sum_values. destruct (d !! k) as [v|] eqn:E; simpl.
  - rewrite <- insert_delete_eq.
    rewrite map_fold_insert_L; [|intros; lia|apply lookup_delete_eq].
    rewrite (map_fold_delete_L _ _ k v d); [lia|intros; lia|done].
  - rewrite map_fold_insert_L; [lia|intros; lia|done].
Qed.

Lemma count_by_sum (l : list IssueRecord) (d : gmap str nat) :
  sum_values (count_by key l d) = sum_values d + length l.
Proof.
  unfold count_by.
  revert d; induction l as [|x l IH]; intros d; simpl; [lia|].
  rewrite IH, sum_values_incr. lia.
Qed.

Lemma count_by_dom (l : list IssueRecord) (d : gmap str nat) :
  dom (count_by key l d) = dom d ∪ list_to_set (key <$> l).
Proof.
  unfold count_by.
  revert d; induction l as [|x l IH]; intros d; simpl.
  - set_solver.
  - rewrite IH, dom_insert_L. set_solver.
Qed.

End Counting.

Lemma dict_get_category (d : IssueRecord) (dflt : str) :
  dict_get d (U "category") dflt = category d.
Proof. unfold dict_get. by rewrite decide_True. Qed.

(** C9: the counts of the aggregation add up to the number of records, and
    its keys are exactly the categories that occur, for
    [extract_issues_summary] of utils/reviewer.py as for the statistics of
    app.py. *)
Theorem aggregate_sum_and_keys (rr : Reviewer.ReviewResult) (reviews : list IssueRecord) :
  (sum_values (Reviewer.extract_issues_summary rr) = length (Reviewer.issues rr)
   ∧ dom (Reviewer.extract_issues_summary rr)
       = list_to_set (category <$> Reviewer.issues rr))
  ∧ (sum_values (App.category_counts reviews) = length reviews
     ∧ dom (App.category_counts reviews) = list_to_set (category <$> reviews)).
Proof.
  split.
  - assert (Reviewer.extract_issues_summary rr
            = count_by category (Reviewer.issues rr) ∅) as ->.
    { unfold Reviewer.extract_issues_summary, count_by.
      generalize (∅ : gmap str nat).
      induction (Reviewer.issues rr) as [|x l IH]; intros d; simpl; [done|].
      by rewrite dict_get_category, IH. }
    rewrite count_by_sum, count_by_dom. unfold sum_values.
    rewrite map_fold_empty, dom_empty_L. split; [lia | set_solver].
  - change (App.category_counts reviews) with (count_by category reviews ∅).
    rewrite count_by_sum, count_by_dom. unfold sum_values.
    rewrite map_fold_empty, dom_empty_L. split; [lia | set_solver].
Qed.

(** ** The end-to-end example *)

(** C3: on the example text the extractor returns exactly the two records
    of the specification, in this order. *)
Theorem example_two_records :
  App.parse_review_response example_review =
  [ {| category := U "設定の矛盾"; location := U "義父";
       issue := U "死亡後に登場"; suggestion := U "矛盾を削除" |};
    {| category := U "リアリティ"; location := U "慰謝料";
       issue := U "高すぎる"; suggestion := [] |} ].
Proof. vm_compute. reflexivity. Qed.

(** ** The rewrite splitter *)

Lemma CHANGES_MARK_nonempty : CHANGES_MARK ≠ [].
Proof. intros H. vm_compute in H. discriminate. Qed.

Lemma REWRITTEN_MARK_nonempty : REWRITTEN_MARK ≠ [].
Proof. intros H. vm_compute in H. discriminate. Qed.

(** With both markers present, the two results of the splitter in terms of
    the position [i] of the first changes marker. *)
Lemma rewrite_split_at (s : str) (i : nat) :
  contains REWRITTEN_MARK s = true →
  find CHANGES_MARK s = Some i →
  let rest := drop (i + length CHANGES_MARK) s in
  let summary := text_before_first CHANGES_MARK rest in
  Reviewer._parse_rewrite_response s
    = (strip (replace REWRITTEN_MARK [] (take i s)), strip summary)
  ∧ App.rewrite_parts s
    = Some (strip (replace REWRITTEN_MARK [] (take i s)), strip summary).
Proof.
  intros H1 F rest summary.
  assert (contains CHANGES_MARK s = true) as H2 by (apply contains_true; eauto).
  destruct (split_two CHANGES_MARK CHANGES_MARK_nonempty s i F)
    as (E0 & Hlen & E1).
  apply Nat.ltb_lt in Hlen. subst summary rest.
  unfold text_before_first.
  unfold Reviewer._parse_rewrite_response, App.rewrite_parts.
  unfold REWRITTEN_MARK, CHANGES_MARK in *.
  rewrite H1, H2. cbn [andb]. cbv zeta. rewrite Hlen, E0, E1.
  split; reflexivity.
Qed.

(** The guarded index [parts[1]] is in range whenever the changes marker
    occurs, and [parts[0]] always is. *)
Lemma rewrite_parts_in_range (s : str) :
  split CHANGES_MARK s ≠ []
  ∧ (contains CHANGES_MARK s = true → 1 < length (split CHANGES_MARK s)).
Proof.
  split; [apply split_nonempty, CHANGES_MARK_nonempty|].
  intros [i F]%contains_true.
  by destruct (split_two CHANGES_MARK CHANGES_MARK_nonempty s i F) as (_ & H & _).
Qed.

(** C2, as the code has it: with both markers present, the changes are the
    text between the first changes marker and the next one (or the end of
    the text when there is no other), trimmed; what follows a second
    changes marker is dropped.  The same holds for the inline split of
    app.py. *)
Theorem rewrite_changes_up_to_next_marker (s : str) :
  contains REWRITTEN_MARK s = true →
  contains CHANGES_MARK s = true →
  ∃ before after : str,
    s = before ++ CHANGES_MARK ++ after
    ∧ find CHANGES_MARK s = Some (length before)
    ∧ snd (Reviewer._parse_rewrite_response s)
        = strip (text_before_first CHANGES_MARK after)
    ∧ snd <$> App.rewrite_parts s
        = Some (strip (text_before_first CHANGES_MARK after)).
Proof.
  intros H1 [i F]%contains_true.
  pose proof (find_Some _ _ _ F) as E. pose proof (find_bound _ _ _ F) as B.
  exists (take i s), (drop (i + length CHANGES_MARK) s).
  rewrite length_take_le by lia.
  destruct (rewrite_split_at s i H1 F) as [-> ->].
  repeat split; assumption || reflexivity.
Qed.

Lemma rewrite_changes_up_to_next_marker_witness :
  contains REWRITTEN_MARK rewrite_sample = true
  ∧ contains CHANGES_MARK rewrite_sample = true
  ∧ ∃ before after : str,
      rewrite_sample = before ++ CHANGES_MARK ++ after
      ∧ find CHANGES_MARK rewrite_sample = Some (length before)
      ∧ snd (Reviewer._parse_rewrite_response rewrite_sample)
          = strip (text_before_first CHANGES_MARK after)
      ∧ snd <$> App.rewrite_parts rewrite_sample
          = Some (strip (text_before_first CHANGES_MARK after)).
Proof.
  split; [vm_compute; reflexivity|]. split; [vm_compute; reflexivity|].
  apply (rewrite_changes_up_to_next_marker rewrite_sample);
    vm_compute; reflexivity.
Defined.

(** A text with a second changes marker: the changes are not the whole
    text after the first marker. *)
Lemma rewrite_changes_second_marker_cut :
  let s := U "【リライト後】A【変更点】B【変更点】C" in
  contains REWRITTEN_MARK s = true
  ∧ contains CHANGES_MARK s = true
  ∧ strip (text_after_first CHANGES_MARK s) = U "B【変更点】C"
  ∧ snd (Reviewer._parse_rewrite_response s) = U "B"
  ∧ snd (Reviewer._parse_rewrite_response s)
      ≠ strip (text_after_first CHANGES_MARK s).
Proof. vm_compute. repeat split; discriminate. Qed.

(** C7, as the code has it: with both markers present, the document is the
    part before the first changes marker with every occurrence of the
    rewritten marker removed (the pieces around the occurrences, glued
    together), then trimmed.  The same holds for the inline split of
    app.py. *)
Theorem rewrite_document_all_markers_removed (s : str) :
  contains REWRITTEN_MARK s = true →
  contains CHANGES_MARK s = true →
  ∃ before after : str,
    s = before ++ CHANGES_MARK ++ after
    ∧ find CHANGES_MARK s = Some (length before)
    ∧ fst (Reviewer._parse_rewrite_response s)
        = strip (concat (split REWRITTEN_MARK before))
    ∧ fst <$> App.rewrite_parts s
        = Some (strip (concat (split REWRITTEN_MARK before))).
Proof.
  intros H1 [i F]%contains_true.
  pose proof (find_Some _ _ _ F) as E. pose proof (find_bound _ _ _ F) as B.
  exists (take i s), (drop (i + length CHANGES_MARK) s).
  rewrite length_take_le by lia.
  destruct (rewrite_split_at s i H1 F) as [-> ->].
  rewrite (replace_join REWRITTEN_MARK REWRITTEN_MARK_nonempty).
  assert (∀ l, join [] l = concat l) as ->.
  { induction l as [|p [|q l] IH]; [reflexivity| |].
    - simpl. by rewrite app_nil_r.
    - change (p ++ join [] (q :: l) = p ++ concat (q :: l)). by rewrite IH. }
  repeat split; assumption || reflexivity.
Qed.

Lemma rewrite_document_all_markers_removed_witness :
  contains REWRITTEN_MARK rewrite_sample = true
  ∧ contains CHANGES_MARK rewrite_sample = true
  ∧ ∃ before after : str,
      rewrite_sample = before ++ CHANGES_MARK ++ after
      ∧ find CHANGES_MARK rewrite_sample = Some (length before)
      ∧ fst (Reviewer._parse_rewrite_response rewrite_sample)
          = strip (concat (split REWRITTEN_MARK before))
      ∧ fst <$> App.rewrite_parts rewrite_sample
          = Some (strip (concat (split REWRITTEN_MARK before))).
Proof.
  split; [vm_compute; reflexivity|]. split; [vm_compute; reflexivity|].
  apply (rewrite_document_all_markers_removed rewrite_sample);
    vm_compute; reflexivity.
Defined.

(** A text with the rewritten marker twice before the changes marker: the
    document is not the part before the changes marker with only the first
    rewritten marker removed; the second one is removed as well. *)
Lemma rewrite_document_second_marker_removed :
  let s := U "【リライト後】A【リライト後】B【変更点】C" in
  contains REWRITTEN_MARK s = true
  ∧ contains CHANGES_MARK s = true
  ∧ strip (replace_max 1 REWRITTEN_MARK [] (text_before_first CHANGES_MARK s))
      = U "A【リライト後】B"
  ∧ fst (Reviewer._parse_rewrite_response s) = U "AB"
  ∧ fst (Reviewer._parse_rewrite_response s)
      ≠ strip (replace_max 1 REWRITTEN_MARK []
                 (text_before_first CHANGES_MARK s)).
Proof. vm_compute. repeat split; discriminate. Qed.

(** C8: when one of the two markers is missing, the splitter returns the
    whole text, trimmed, and the fixed sentence saying that no summary was
    provided.  (The function is total: it returns a pair of strings on
    every input.) *)
Theorem rewrite_fallback_without_markers (s : str) :
  contains REWRITTEN_MARK s = false ∨ contains CHANGES_MARK s = false →
  Reviewer._parse_rewrite_response s = (strip s, NO_SUMMARY).
Proof.
  intros H. unfold Reviewer._parse_rewrite_response.
  unfold REWRITTEN_MARK, CHANGES_MARK, NO_SUMMARY in *.
  destruct H as [H | H]; rewrite H; [|rewrite andb_false_r]; reflexivity.
Qed.

Lemma rewrite_fallback_without_markers_witness :
  (contains REWRITTEN_MARK (U "hello world") = false
   ∨ contains CHANGES_MARK (U "hello world") = false)
  ∧ Reviewer._parse_rewrite_response (U "hello world")
      = (U "hello world", NO_SUMMARY).
Proof.
  split; [left; vm_compute; reflexivity|].
  rewrite (rewrite_fallback_without_markers (U "hello world"))
    by (left; vm_compute; reflexivity).
  vm_compute; reflexivity.
Defined.

(** ** The highlighter *)

(** C1, as the code has it: the records are processed in sequence order on
    one working copy; a record whose location does not occur in the current
    copy leaves it unchanged; a record whose location occurs replaces every
    occurrence of it in the current copy, not the first one only: the
    pieces between the occurrences are kept and each occurrence is wrapped.
    An empty location, which [in] finds in every text, puts the wrapper
    before every character and at the end. *)
Theorem highlight_wraps_every_occurrence
    (content : str) (reviews : list IssueRecord) (r : IssueRecord) :
  App.highlight_issues_in_text content [] = content
  ∧ App.highlight_issues_in_text content (reviews ++ [r]) =
      let copy := App.highlight_issues_in_text content reviews in
      let wrapped := App.highlighted (location r) in
      if contains (location r) copy then
        match location r with
        | [] => wrapped ++ flat_map (fun ch => ch :: wrapped) copy
        | _ :: _ => join wrapped (split (location r) copy)
        end
      else copy.
Proof.
  split; [reflexivity|].
  unfold App.highlight_issues_in_text. rewrite fold_left_app. cbn [fold_left].
  cbv zeta. generalize (fold_left App.highlight_issue reviews content) as c.
  intros c. unfold App.highlight_issue. cbv zeta.
  destruct (contains (location r) c); [|reflexivity].
  destruct (location r) as [|x loc] eqn:E; [reflexivity|].
  by apply replace_join.
Qed.

(** A content with two occurrences of the location: both are wrapped,
    where replacing the first occurrence only would leave the second. *)
Lemma highlight_second_occurrence_wrapped :
  let content := U "abab" in
  let r := {| category := U "A"; location := U "ab";
              issue := U "x"; suggestion := [] |} in
  highlight_first_only content [r] = App.highlighted (U "ab") ++ U "ab"
  ∧ App.highlight_issues_in_text content [r]
      = App.highlighted (U "ab") ++ App.highlighted (U "ab")
  ∧ App.highlight_issues_in_text content [r] ≠ highlight_first_only content [r].
Proof. vm_compute. repeat split; discriminate. Qed.

(** ** The lazy group [(.+?)] *)

Section Regex.

Implicit Types (r : regex) (s : str) (g : gmap nat str).
Implicit Types (k : str → gmap nat str → option (gmap nat str)).

Lemma re_go_seq r1 r2 s g k :
  re_go (r1 +> r2) s g k = re_go r1 s g (fun s' g' => re_go r2 s' g' k).
Proof. reflexivity. Qed.

Lemma re_go_chr c s g k :
  re_go (Chr c) s g k =
  match s with
  | x :: s' => if (x =? c)%N then k s' g else None
  | [] => None
  end.
Proof. reflexivity. Qed.

Lemma re_go_eos s g k :
  re_go Eos s g k =
  match s with
  | [] => k s g
  | [x] => if (x =? NL)%N then k s g else None
  | _ => None
  end.
Proof. reflexivity. Qed.

Lemma re_go_opt r s g k :
  re_go (Opt r) s g k =
  match re_go r s g k with Some m => Some m | None => k s g end.
Proof. reflexivity. Qed.

Lemma re_go_alt r1 r2 s g k :
  re_go (Alt r1 r2) s g k =
  match re_go r1 s g k with Some m => Some m | None => re_go r2 s g k end.
Proof. reflexivity. Qed.

(** The bound on the repetitions of [.+?] is never the reason of a
    failure: the loop is [lazy_dot]. *)
Lemma re_go_plus_lazy_dot s g k :
  re_go (PlusLazy Dot) s g k = lazy_dot (fun s' => k s' g) s.
Proof.
  cbn [re_go].
  assert (length s < S (length s)) as Hn by lia. revert Hn.
  generalize (S (length s)) as n. intros n. revert s.
  induction n as [|n IH]; intros s Hn; [lia|].
  destruct s as [|x s]; [reflexivity|]. cbn [lazy_dot].
  destruct (x =? NL)%N; [reflexivity|].
  destruct (k s g); [reflexivity|]. apply IH. simpl in Hn. lia.
Qed.

Lemma re_go_group_lazy_dot i s g k :
  re_go (Group i (PlusLazy Dot)) s g k =
  lazy_dot (fun s' => k s' (<[i := take (length s - length s') s]> g)) s.
Proof.
  change (re_go (Group i (PlusLazy Dot)) s g k)
    with (re_go (PlusLazy Dot) s g (fun s' g' =>
            k s' (<[i := take (length s - length s') s]> g'))).
  by rewrite re_go_plus_lazy_dot.
Qed.

End Regex.

Section LazyDot.

Context {R : Type}.
Implicit Types (k : str → option R) (s pre post : str).

Lemma lazy_dot_Some k s m :
  lazy_dot k s = Some m →
  ∃ pre post, s = pre ++ post ∧ pre ≠ [] ∧ (NL ∉ pre) ∧ k post = Some m.
Proof.
  induction s as [|x s IH]; simpl; [discriminate|].
  destruct (N.eqb_spec x NL) as [|Hx]; [discriminate|].
  destruct (k s) as [m'|] eqn:E.
  - intros [= <-]. exists [x], s. repeat split; [done| |done].
    intros Heq%list_elem_of_singleton. congruence.
  - intros (pre & post & -> & _ & Hnl & Hk)%IH.
    exists (x :: pre), post. repeat split; [done| |done].
    intros [Heq|]%elem_of_cons; [congruence|done].
Qed.

(** The first prefix after which [k] succeeds is the one chosen. *)
Lemma lazy_dot_first k pre post m :
  pre ≠ [] → NL ∉ pre → k post = Some m →
  (∀ j, 0 < j < length pre → k (drop j (pre ++ post)) = None) →
  lazy_dot k (pre ++ post) = Some m.
Proof.
  induction pre as [|x pre IH]; intros Hne Hnl Hk Hmin; [done|].
  apply not_elem_of_cons in Hnl as [Hx Hnl].
  change (lazy_dot k (x :: (pre ++ post)) = Some m). cbn [lazy_dot].
  destruct (N.eqb_spec x NL) as [|_]; [congruence|].
  destruct pre as [|y pre].
  - change (k ([] ++ post)) with (k post). by rewrite Hk.
  - pose proof (Hmin 1 ltac:(simpl; lia)) as H1.
    change (k ((y :: pre) ++ post) = None) in H1. rewrite H1.
    apply IH; [done|done|done|]. intros j Hj.
    apply (Hmin (S j)). simpl in *. lia.
Qed.

Lemma lazy_dot_None k s :
  (∀ j, 0 < j ≤ length s → k (drop j s) = None) → lazy_dot k s = None.
Proof.
  induction s as [|x s IH]; intros H; [done|]. cbn [lazy_dot].
  destruct (x =? NL)%N; [done|].
  pose proof (H 1 ltac:(simpl; lia)) as H1.
  change (k s = None) in H1. rewrite H1.
  apply IH. intros j Hj. apply (H (S j)). simpl. lia.
Qed.

Lemma lazy_dot_ext k1 k2 s :
  (∀ j, 0 < j ≤ length s → k1 (drop j s) = k2 (drop j s)) →
  lazy_dot k1 s = lazy_dot k2 s.
Proof.
  induction s as [|x s IH]; intros H; [done|]. cbn [lazy_dot].
  destruct (x =? NL)%N; [done|].
  pose proof (H 1 ltac:(simpl; lia)) as H1.
  change (k1 s = k2 s) in H1. rewrite <- H1.
  destruct (k1 s); [done|].
  apply IH. intros j Hj. apply (H (S j)). simpl. lia.
Qed.

End LazyDot.

Lemma take_captured (pre post : str) :
  take (length (pre ++ post) - length post) (pre ++ post) = pre.
Proof.
  rewrite length_app. replace (length pre + length post - length post)
    with (length pre) by lia. apply take_app_length.
Qed.

(** ** The issue pattern *)

Section IssuePattern.

Lemma issue_tail_Some (s : str) (g m : gmap nat str) :
  re_go issue_tail s g accept = Some m →
  (m = g ∧ (s = [] ∨ s = [NL]))
  ∨ ∃ g3 e, s = ARROW :: g3 ++ e ∧ g3 ≠ [] ∧ (NL ∉ g3)
            ∧ (e = [] ∨ e = [NL]) ∧ m = <[3 := g3]> g.
Proof.
  unfold issue_tail. rewrite re_go_seq, re_go_opt.
  destruct (re_go (Chr ARROW +> Group 3 (PlusLazy Dot)) s g
              (fun s' g' => re_go Eos s' g' accept)) as [m'|] eqn:E.
  - intros [= <-]. right.
    rewrite re_go_seq, re_go_chr in E. destruct s as [|x s]; [done|].
    destruct (N.eqb_spec x ARROW) as [->|]; [|done].
    rewrite re_go_group_lazy_dot in E.
    apply lazy_dot_Some in E as (g3 & e & -> & Hne & Hnl & E).
    rewrite take_captured, re_go_eos in E. exists g3, e.
    destruct e as [|y [|z e]]; [| |done].
    + injection E as <-. eauto 10.
    + destruct (N.eqb_spec y NL) as [->|]; [|done].
      injection E as <-. eauto 10.
  - rewrite re_go_eos. intros H. left.
    destruct s as [|y [|z s]]; [| |done].
    + injection H as <-. eauto.
    + destruct (N.eqb_spec y NL) as [->|]; [|done].
      injection H as <-. eauto.
Qed.

(** Every match of the issue pattern of app.py: the line is
    ["- " g1 "：" g2] followed by nothing or by [→ g3], the three groups
    are non-empty, and groups 1 and 2 always take part. *)
Lemma issue_match_sound (line : str) (m : gmap nat str) :
  re_match App.issue_pattern line = Some m →
  ∃ g1 g2 tail,
    line = DASH :: SPACE :: g1 ++ COLON :: g2 ++ tail
    ∧ g1 ≠ [] ∧ g2 ≠ []
    ∧ m !! 1 = Some g1 ∧ m !! 2 = Some g2
    ∧ (m !! 3 = None ∨ ∃ g3, g3 ≠ [] ∧ m !! 3 = Some g3).
Proof.
  unfold re_match, App.issue_pattern. fold issue_tail accept.
  rewrite re_go_seq, re_go_chr. destruct line as [|x line]; [done|].
  destruct (N.eqb_spec x DASH) as [->|]; [|done].
  rewrite re_go_seq, re_go_chr. destruct line as [|x line]; [done|].
  destruct (N.eqb_spec x SPACE) as [->|]; [|done].
  rewrite re_go_seq, re_go_group_lazy_dot.
  intros (g1 & s1 & -> & Hg1 & _ & H)%lazy_dot_Some.
  rewrite take_captured, re_go_seq, re_go_chr in H.
  destruct s1 as [|x s1]; [done|].
  destruct (N.eqb_spec x COLON) as [->|]; [|done].
  rewrite re_go_seq, re_go_group_lazy_dot in H.
  apply lazy_dot_Some in H as (g2 & tail & -> & Hg2 & _ & H).
  rewrite take_captured in H.
  exists g1, g2, tail. split; [done|]. split; [done|]. split; [done|].
  apply issue_tail_Some in H as [[-> _] | (g3 & e & -> & Hg3 & _ & _ & ->)].
  - rewrite lookup_insert_ne, lookup_insert_eq by done.
    rewrite lookup_insert_eq.
    rewrite !lookup_insert_ne, lookup_empty by done. eauto.
  - rewrite lookup_insert_eq.
    rewrite !lookup_insert_ne, !lookup_insert_eq by done.
    rewrite lookup_insert_ne, lookup_insert_eq by done. eauto 10.
Qed.

End IssuePattern.

Section IssuePatternRegular.

Lemma drop_in_prefix (pre post : str) (j : nat) :
  j < length pre → ∃ x t, drop j (pre ++ post) = x :: t ∧ x ∈ pre.
Proof.
  intros Hj. rewrite drop_app_le by lia.
  destruct (lookup_lt_is_Some_2 pre j Hj) as [x Hx].
  rewrite (drop_S _ _ _ Hx). exists x, (drop (S j) pre ++ post).
  split; [done|]. by eapply list_elem_of_lookup_2.
Qed.

Lemma take_captured_all (s : str) : take (length s - length ([] : str)) s = s.
Proof. simpl. rewrite Nat.sub_0_r. apply firstn_all. Qed.

Lemma issue_tail_end (g : gmap nat str) : re_go issue_tail [] g accept = Some g.
Proof. reflexivity. Qed.

Lemma issue_tail_arrow (sug : str) (g : gmap nat str) :
  sug ≠ [] → NL ∉ sug →
  re_go issue_tail (ARROW :: sug) g accept = Some (<[3 := sug]> g).
Proof.
  intros Hne Hnl. unfold issue_tail.
  rewrite re_go_seq, re_go_opt, re_go_seq, re_go_chr.
  change (ARROW =? ARROW)%N with true. cbv iota.
  rewrite re_go_group_lazy_dot.
  rewrite <- (app_nil_r sug) at 1.
  rewrite (lazy_dot_first _ sug [] (<[3 := sug]> g) Hne Hnl); [done| |].
  - by rewrite take_captured_all.
  - intros j Hj. destruct (drop_in_prefix sug [] j) as (x & t & E & Hx); [lia|].
    rewrite E, re_go_eos. destruct t; [|done].
    destruct (N.eqb_spec x NL) as [->|]; done.
Qed.

(** Where the tail of the pattern fails: before a character that is not
    the arrow, unless the text ends there. *)
Lemma issue_tail_other (x : char) (t : str) (g : gmap nat str) :
  x ≠ ARROW → x ≠ NL → re_go issue_tail (x :: t) g accept = None.
Proof.
  intros Ha Hn. unfold issue_tail.
  rewrite re_go_seq, re_go_opt, re_go_seq, re_go_chr.
  destruct (N.eqb_spec x ARROW) as [|_]; [done|].
  rewrite re_go_eos. destruct t; [|done].
  destruct (N.eqb_spec x NL); done.
Qed.

(** An issue line without arrow. *)
Lemma issue_match_plain (loc rest : str) :
  loc ≠ [] → COLON ∉ loc → NL ∉ loc →
  rest ≠ [] → ARROW ∉ rest → NL ∉ rest →
  re_match App.issue_pattern (DASH :: SPACE :: loc ++ COLON :: rest)
    = Some (<[2 := rest]> (<[1 := loc]> ∅)).
Proof.
  intros Hl Hlc Hln Hr Hra Hrn.
  unfold re_match, App.issue_pattern. fold issue_tail accept.
  rewrite re_go_seq, re_go_chr. change (DASH =? DASH)%N with true. cbv iota.
  rewrite re_go_seq, re_go_chr. change (SPACE =? SPACE)%N with true. cbv iota.
  rewrite re_go_seq, re_go_group_lazy_dot.
  apply lazy_dot_first; [done|done| |].
  - rewrite take_captured, re_go_seq, re_go_chr.
    change (COLON =? COLON)%N with true. cbv iota.
    rewrite re_go_seq, re_go_group_lazy_dot.
    rewrite <- (app_nil_r rest) at 1.
    apply lazy_dot_first; [done|done| |].
    + by rewrite take_captured_all.
    + intros j Hj.
      destruct (drop_in_prefix rest [] j) as (x & t & E & Hx); [lia|].
      rewrite E. apply issue_tail_other; intros ->; done.
  - intros j Hj.
    destruct (drop_in_prefix loc (COLON :: rest) j) as (x & t & E & Hx); [lia|].
    rewrite E, re_go_seq, re_go_chr.
    destruct (N.eqb_spec x COLON) as [->|]; done.
Qed.

(** An issue line with an arrow between a non-empty issue and a non-empty
    suggestion. *)
Lemma issue_match_arrow (loc iss sug : str) :
  loc ≠ [] → COLON ∉ loc → NL ∉ loc →
  iss ≠ [] → ARROW ∉ iss → NL ∉ iss →
  sug ≠ [] → NL ∉ sug →
  re_match App.issue_pattern
      (DASH :: SPACE :: loc ++ COLON :: iss ++ ARROW :: sug)
    = Some (<[3 := sug]> (<[2 := iss]> (<[1 := loc]> ∅))).
Proof.
  intros Hl Hlc Hln Hi Hia Hin Hs Hsn.
  unfold re_match, App.issue_pattern. fold issue_tail accept.
  rewrite re_go_seq, re_go_chr. change (DASH =? DASH)%N with true. cbv iota.
  rewrite re_go_seq, re_go_chr. change (SPACE =? SPACE)%N with true. cbv iota.
  rewrite re_go_seq, re_go_group_lazy_dot.
  apply lazy_dot_first; [done|done| |].
  - rewrite take_captured, re_go_seq, re_go_chr.
    change (COLON =? COLON)%N with true. cbv iota.
    rewrite re_go_seq, re_go_group_lazy_dot.
    apply lazy_dot_first; [done|done| |].
    + rewrite take_captured. by apply issue_tail_arrow.
    + intros j Hj.
      destruct (drop_in_prefix iss (ARROW :: sug) j) as (x & t & E & Hx); [lia|].
      rewrite E. apply issue_tail_other; intros ->; done.
  - intros j Hj.
    destruct (drop_in_prefix loc (COLON :: iss ++ ARROW :: sug) j)
      as (x & t & E & Hx); [lia|].
    rewrite E, re_go_seq, re_go_chr.
    destruct (N.eqb_spec x COLON) as [->|]; done.
Qed.

End IssuePatternRegular.

(** ** The shapes of lines *)

Section Shapes.

Lemma startswith_dash (line : str) :
  startswith (U "- ") line = true ↔ ∃ body, line = DASH :: SPACE :: body.
Proof.
  rewrite startswith_spec. change (U "- ") with [DASH; SPACE]. split.
  - intros ->. eexists. reflexivity.
  - by intros [body ->].
Qed.

Lemma startswith_lbracket (line : str) :
  startswith (U "【") line = true ↔ ∃ t, line = LBRACKET :: t.
Proof.
  rewrite startswith_spec. change (U "【") with [LBRACKET]. split.
  - intros ->. eexists. reflexivity.
  - by intros [t ->].
Qed.

Lemma endswith_rbracket (line : str) :
  endswith (U "】") line = true ↔ ∃ t, line = t ++ [RBRACKET].
Proof.
  unfold endswith. rewrite startswith_spec.
  change (rev (U "】")) with [RBRACKET]. split.
  - intros E. exists (rev (drop 1 (rev line))).
    apply (f_equal (@rev char)) in E. rewrite rev_involutive in E.
    rewrite E at 1. by rewrite rev_app_distr.
  - intros [t ->]. by rewrite rev_app_distr.
Qed.

Lemma bracketed_iff (line : str) :
  bracketed line = true ↔ ∃ inner, line = LBRACKET :: inner ++ [RBRACKET].
Proof.
  unfold bracketed.
  rewrite andb_true_iff, startswith_lbracket, endswith_rbracket. split.
  - intros [[t ->] [t' E]]. destruct t' as [|x t']; [done|].
    injection E as <- ->. by exists t'.
  - intros [inner ->]. split; [by eexists|]. by exists (LBRACKET :: inner).
Qed.

Lemma slice_inner (x y : char) (inner : str) :
  slice 1 (Some (-1)%Z) (x :: inner ++ [y]) = inner.
Proof.
  unfold slice, slice_index. simpl length. rewrite length_app. simpl length.
  replace (Z.to_nat (Z.min _ (Z.max 0 (if (1 <? 0)%Z then _ else 1%Z))))
    with 1 by (simpl; lia).
  replace (Z.to_nat (Z.min _ (Z.max 0 (if (-1 <? 0)%Z then _ else (-1)%Z))))
    with (S (length inner)) by (simpl; lia).
  simpl. rewrite Nat.sub_0_r. apply take_app_length.
Qed.

Lemma slice_body (x y : char) (body : str) : slice 2 None (x :: y :: body) = body.
Proof.
  unfold slice, slice_index. simpl length.
  replace (Z.to_nat (Z.min _ (Z.max 0 (if (2 <? 0)%Z then _ else 2%Z))))
    with 2 by (simpl; lia).
  simpl. rewrite Nat.sub_0_r. apply firstn_all.
Qed.

Lemma not_in_drop (c : char) (s : str) (j : nat) : c ∉ s → c ∉ drop j s.
Proof.
  intros H Hin. apply H. rewrite <- (take_drop j s).
  apply elem_of_app. by right.
Qed.

(** [strip] gives the empty string exactly on whitespace. *)
Lemma lstrip_nil (s : str) : lstrip s = [] ↔ ∀ c, c ∈ s → is_space c = true.
Proof.
  induction s as [|x s IH]; simpl.
  - split; [|done]. intros _ c Hc. by apply elem_of_nil in Hc.
  - destruct (is_space x) eqn:E.
    + rewrite IH. split.
      * intros H c [->|Hc]%elem_of_cons; auto.
      * intros H c Hc. apply H. by right.
    + split; [done|]. intros H. specialize (H x ltac:(left)). congruence.
Qed.

Lemma strip_nil (s : str) : strip s = [] ↔ ∀ c, c ∈ s → is_space c = true.
Proof.
  rewrite <- lstrip_nil. unfold strip, rstrip. split.
  - intros H. apply (f_equal (@rev char)) in H.
    rewrite rev_involutive in H. simpl in H.
    pose proof (proj1 (lstrip_nil _) H) as Hsp.
    destruct (lstrip s) as [|x t] eqn:E; [done|]. exfalso.
    assert (is_space x = true) as Hx.
    { apply Hsp. rewrite list_elem_of_In, <- in_rev. by left. }
    clear H Hsp. induction s as [|y s IH]; [done|]. simpl in E.
    destruct (is_space y) eqn:Ey; [auto|]. congruence.
  - by intros ->.
Qed.

End Shapes.

(** ** The patterns of utils/reviewer.py *)

Section ReviewerPatterns.

Lemma drop_at_lookup (pre post : str) (j : nat) :
  j < length pre → ∃ x t, drop j (pre ++ post) = x :: t ∧ pre !! j = Some x.
Proof.
  intros Hj. rewrite drop_app_le by lia.
  destruct (lookup_lt_is_Some_2 pre j Hj) as [x Hx].
  rewrite (drop_S _ _ _ Hx). by exists x, (drop (S j) pre ++ post).
Qed.

(** Every match of the category pattern: the line starts with 【, then a
    non-empty group, then 】; what follows is not looked at. *)
Lemma category_match_sound (line : str) (m : gmap nat str) :
  re_match Reviewer.category_pattern line = Some m →
  ∃ g rest, line = LBRACKET :: g ++ RBRACKET :: rest
            ∧ g ≠ [] ∧ (NL ∉ g) ∧ m = <[1 := g]> ∅.
Proof.
  unfold re_match, Reviewer.category_pattern.
  rewrite re_go_seq, re_go_chr. destruct line as [|x line]; [done|].
  destruct (N.eqb_spec x LBRACKET) as [->|]; [|done].
  rewrite re_go_seq, re_go_group_lazy_dot.
  intros (g & s1 & -> & Hg & Hnl & H)%lazy_dot_Some.
  rewrite take_captured, re_go_chr in H. destruct s1 as [|x rest]; [done|].
  destruct (N.eqb_spec x RBRACKET) as [->|]; [|done].
  injection H as <-. by exists g, rest.
Qed.

(** The group is the shortest one: it ends at the first 】 after its first
    character. *)
Lemma category_match_first (g rest : str) :
  g ≠ [] → NL ∉ g → RBRACKET ∉ drop 1 g →
  re_match Reviewer.category_pattern (LBRACKET :: g ++ RBRACKET :: rest)
    = Some (<[1 := g]> ∅).
Proof.
  intros Hg Hnl Hrb. unfold re_match, Reviewer.category_pattern.
  rewrite re_go_seq, re_go_chr.
  change (LBRACKET =? LBRACKET)%N with true. cbv iota.
  rewrite re_go_seq, re_go_group_lazy_dot.
  apply lazy_dot_first; [done|done| |].
  - rewrite take_captured, re_go_chr.
    by change (RBRACKET =? RBRACKET)%N with true.
  - intros j Hj.
    destruct (drop_at_lookup g (RBRACKET :: rest) j) as (x & t & E & Hx); [lia|].
    rewrite E, re_go_chr. destruct (N.eqb_spec x RBRACKET) as [->|]; [|done].
    exfalso. apply Hrb. apply list_elem_of_lookup. exists (j - 1).
    rewrite lookup_drop. by replace (1 + (j - 1)) with j by lia.
Qed.

Lemma reviewer_header_lbracket (line : str) :
  reviewer_header line = true → startswith (U "【") line = true.
Proof.
  unfold reviewer_header.
  destruct (re_match Reviewer.category_pattern line) as [m|] eqn:E; [|done].
  apply category_match_sound in E as (g & rest & -> & _). intros _.
  apply startswith_lbracket. by eexists.
Qed.

Lemma alt_nl_eos (s : str) (g : gmap nat str) :
  NL ∉ s → re_go (Alt (Chr NL) Eos) s g accept = re_go Eos s g accept.
Proof.
  intros Hnl. rewrite re_go_alt, re_go_chr. destruct s as [|x s]; [done|].
  apply not_elem_of_cons in Hnl as [Hx _].
  destruct (N.eqb_spec x NL) as [->|]; done.
Qed.

Lemma issue_tail_nl_eq (s : str) (g : gmap nat str) :
  NL ∉ s → re_go issue_tail_nl s g accept = re_go issue_tail s g accept.
Proof.
  intros Hnl. unfold issue_tail_nl, issue_tail.
  rewrite !re_go_seq, !re_go_opt, !re_go_seq, !re_go_chr.
  rewrite alt_nl_eos by done.
  destruct s as [|x s]; [done|]. destruct (x =? ARROW)%N; [|done].
  apply not_elem_of_cons in Hnl as [_ Hnl].
  rewrite !re_go_group_lazy_dot.
  rewrite (lazy_dot_ext _
    (fun s' => re_go Eos s' (<[3 := take (length s - length s') s]> g) accept)).
  - done.
  - intros j _. apply alt_nl_eos. by apply not_in_drop.
Qed.

(** On a line without newline the issue pattern of reviewer.py matches as
    the one of app.py does. *)
Lemma reviewer_issue_match (line : str) :
  NL ∉ line →
  re_match Reviewer.issue_pattern line = re_match App.issue_pattern line.
Proof.
  intros Hnl. unfold re_match, Reviewer.issue_pattern, App.issue_pattern.
  fold issue_tail issue_tail_nl accept.
  rewrite !re_go_seq, !re_go_chr. destruct line as [|x line]; [done|].
  destruct (x =? DASH)%N; [|done].
  rewrite !re_go_seq, !re_go_chr. destruct line as [|y line]; [done|].
  destruct (y =? SPACE)%N; [|done].
  apply not_elem_of_cons in Hnl as [_ Hnl].
  apply not_elem_of_cons in Hnl as [_ Hnl].
  rewrite !re_go_seq, !re_go_group_lazy_dot.
  apply lazy_dot_ext. intros j _.
  pose proof (not_in_drop NL line j Hnl) as Hd.
  rewrite !re_go_seq, !re_go_chr.
  destruct (drop j line) as [|z s1]; [done|]. destruct (z =? COLON)%N; [|done].
  apply not_elem_of_cons in Hd as [_ Hd].
  rewrite !re_go_seq, !re_go_group_lazy_dot.
  apply lazy_dot_ext. intros j' _.
  apply issue_tail_nl_eq. by apply not_in_drop.
Qed.

End ReviewerPatterns.

(** ** What a line can do to the state of an extractor *)

Lemma issue_match_record (cat line : str) (m : gmap nat str) :
  re_match App.issue_pattern line = Some m →
  ∃ r, record_of_match cat m = Some r ∧ (cat ≠ [] → emitted_from cat line r).
Proof.
  intros (g1 & g2 & tail & E & H1 & H2 & L1 & L2 & _)%issue_match_sound.
  unfold record_of_match. rewrite L1, L2. eexists. split; [done|].
  intros Hc. split; [done|]. split; [done|]. by exists g1, g2, tail.
Qed.

Section Extractor.

(** An extractor is a loop over the lines with a state that holds the
    current category and the records made so far. *)
Context {S : Type}.
Variable step : S → str → S.
Variable cat_of : S → str.
Variable recs_of : S → list IssueRecord.
Variable is_header : str → bool.
Variable sets_cat : str → str → Prop.

(** A header line sets the category and makes no record; another line
    keeps the category and either changes nothing or adds one record made
    from it under the current category. *)
Hypothesis step_cases : ∀ st line,
  NL ∉ line →
  (is_header line = true
   ∧ sets_cat line (cat_of (step st line))
   ∧ recs_of (step st line) = recs_of st)
  ∨ (is_header line = false
     ∧ cat_of (step st line) = cat_of st
     ∧ (step st line = st
        ∨ ∃ r, recs_of (step st line) = recs_of st ++ [r]
               ∧ emitted_from (cat_of st) line r)).

Lemma step_inactive st line :
  NL ∉ line → is_header line = false → cat_of st = [] → step st line = st.
Proof.
  intros Hnl Hh Hc.
  destruct (step_cases st line Hnl) as [[Hh' _] | (_ & _ & [E | (r & _ & Hr)])].
  - congruence.
  - done.
  - destruct Hr as [Hne _]. congruence.
Qed.

(** Lines without header leave an inactive extractor as it is. *)
Lemma fold_inactive lines st :
  (∀ l, l ∈ lines → (NL ∉ l) ∧ is_header l = false) →
  cat_of st = [] → fold_left step lines st = st.
Proof.
  induction lines as [|l lines IH]; intros H Hc; [done|]. simpl.
  destruct (H l ltac:(left)) as [Hnl Hh].
  rewrite (step_inactive st l Hnl Hh Hc). apply IH; [|done].
  intros l' Hl'. apply H. by right.
Qed.

(** Every record of the final state was there at the start or was made
    from a line of the input, under a category that was the category at
    the start or was set by a header line of the input. *)
Lemma fold_records lines st r :
  (∀ l, l ∈ lines → NL ∉ l) →
  r ∈ recs_of (fold_left step lines st) →
  r ∈ recs_of st
  ∨ ∃ line cat, line ∈ lines ∧ emitted_from cat line r
                ∧ (cat = cat_of st ∨ ∃ h, h ∈ lines ∧ sets_cat h cat).
Proof.
  revert st; induction lines as [|l lines IH]; intros st Hnl; [by left|].
  simpl. intros Hr.
  assert (NL ∉ l) as Hl by (apply Hnl; left).
  assert (∀ l', l' ∈ lines → NL ∉ l') as Hnl' by (intros; apply Hnl; by right).
  destruct (IH (step st l) Hnl' Hr)
    as [Hin | (line & cat & Hline & Hem & Hcat)].
  - destruct (step_cases st l Hl) as [(_ & _ & E) | (_ & _ & [E | (r' & E & Hem)])].
    + left. by rewrite <- E.
    + left. by rewrite <- E.
    + rewrite E in Hin. apply elem_of_app in Hin as [Hin | Hin]; [by left|].
      apply list_elem_of_singleton in Hin as ->. right.
      exists l, (cat_of st). split; [left|]. split; [done|]. by left.
  - right. exists line, cat. split; [by right|]. split; [done|].
    destruct Hcat as [-> | (h & Hh & Hs)].
    + destruct (step_cases st l Hl) as [(_ & Hs & _) | (_ & E & _)].
      * right. exists l. split; [left | done].
      * left. done.
    + right. exists h. split; [by right | done].
Qed.

End Extractor.

(** ** The extractors of app.py and utils/reviewer.py *)

Lemma truthy_nonempty (s : str) : truthy s = true → s ≠ [].
Proof. by destruct s. Qed.

Lemma app_step_cases (st : str * list IssueRecord) (line : str) :
  NL ∉ line →
  (bracketed line = true
   ∧ app_sets_cat line (fst (App.parse_review_line st line))
   ∧ snd (App.parse_review_line st line) = snd st)
  ∨ (bracketed line = false
     ∧ fst (App.parse_review_line st line) = fst st
     ∧ (App.parse_review_line st line = st
        ∨ ∃ r, snd (App.parse_review_line st line) = snd st ++ [r]
               ∧ emitted_from (fst st) line r)).
Proof.
  intros _. destruct st as [cat rs]. unfold App.parse_review_line.
  change (startswith (U "【") line && endswith (U "】") line)
    with (bracketed line).
  destruct (bracketed line) eqn:B.
  - left. split; [done|]. apply bracketed_iff in B as [inner ->].
    rewrite slice_inner. by split.
  - right. split; [done|].
    destruct (startswith (U "- ") line && truthy cat) eqn:D; [|by split; [|left]].
    apply andb_true_iff in D as [_ T%truthy_nonempty].
    destruct (re_match App.issue_pattern line) as [m|] eqn:M; [|by split; [|left]].
    destruct (issue_match_record cat line m M) as (r & -> & Hem).
    split; [done|]. right. exists r. split; [done|]. by apply Hem.
Qed.

Lemma reviewer_step_cases (st : str * list IssueRecord * list str) (line : str) :
  NL ∉ line →
  (reviewer_header line = true
   ∧ reviewer_sets_cat line (fst (fst (Reviewer.parse_review_line st line)))
   ∧ snd (fst (Reviewer.parse_review_line st line)) = snd (fst st))
  ∨ (reviewer_header line = false
     ∧ fst (fst (Reviewer.parse_review_line st line)) = fst (fst st)
     ∧ (Reviewer.parse_review_line st line = st
        ∨ ∃ r, snd (fst (Reviewer.parse_review_line st line))
                 = snd (fst st) ++ [r]
               ∧ emitted_from (fst (fst st)) line r)).
Proof.
  intros Hnl. destruct st as [[cat rs] sg].
  unfold Reviewer.parse_review_line, reviewer_header.
  destruct (re_match Reviewer.category_pattern line) as [m|] eqn:C.
  - left. split; [done|].
    apply category_match_sound in C as (g & rest & -> & Hg & _ & ->).
    rewrite lookup_insert_eq. simpl. split; [|done]. split; [done|].
    by exists rest.
  - right. split; [done|]. rewrite (reviewer_issue_match line Hnl).
    destruct (re_match App.issue_pattern line) as [m|] eqn:M; [|by split; [|left]].
    destruct (truthy cat) eqn:T; [|by split; [|left]].
    apply truthy_nonempty in T.
    destruct (issue_match_record cat line m M) as (r & -> & Hem).
    split; [done|]. right. exists r. split; [done|]. by apply Hem.
Qed.

Lemma reviewer_issues_fold (s phase : str) :
  Reviewer.issues (Reviewer._parse_review_response s phase)
  = snd (fst (fold_left Reviewer.parse_review_line (split [NL] s) ([], [], []))).
Proof.
  unfold Reviewer._parse_review_response.
  by destruct (fold_left Reviewer.parse_review_line (split [NL] s) ([], [], []))
    as [[c i] sg].
Qed.

Lemma no_header_lines (is_header : str → bool) (s : str) :
  forallb (fun l => negb (is_header l)) (split [NL] s) = true →
  ∀ l, l ∈ split [NL] s → (NL ∉ l) ∧ is_header l = false.
Proof.
  intros H l Hl. split; [by eapply split_lines_no_NL|].
  rewrite forallb_forall in H. apply negb_true_iff, H.
  by apply list_elem_of_In.
Qed.

(** ** Header lines *)

Lemma lbracket_not_dash (line : str) :
  startswith (U "【") line = true → startswith (U "- ") line = false.
Proof.
  intros [t ->]%startswith_lbracket. destruct (startswith _ _) eqn:E; [|done].
  apply startswith_dash in E as [body E]. discriminate E.
Qed.

Lemma app_line_header (cat inner : str) (rs : list IssueRecord) :
  App.parse_review_line (cat, rs) (LBRACKET :: inner ++ [RBRACKET]) = (inner, rs).
Proof.
  assert (bracketed (LBRACKET :: inner ++ [RBRACKET]) = true) as Hb
    by (apply bracketed_iff; by exists inner).
  unfold App.parse_review_line.
  change (startswith (U "【") ?l && endswith (U "】") ?l) with (bracketed l).
  by rewrite Hb, slice_inner.
Qed.

Lemma reviewer_line_header (cat g rest : str) (rs : list IssueRecord)
    (sg : list str) :
  g ≠ [] → NL ∉ g → RBRACKET ∉ drop 1 g →
  Reviewer.parse_review_line (cat, rs, sg) (LBRACKET :: g ++ RBRACKET :: rest)
    = (g, rs, sg).
Proof.
  intros Hg Hnl Hrb. unfold Reviewer.parse_review_line.
  by rewrite (category_match_first g rest Hg Hnl Hrb), lookup_insert_eq.
Qed.

(** In a text [g 】 rest] with a non-empty [g], the first 】 after the first
    character ends the shortest such [g]. *)
Lemma first_rbracket (g rest : str) :
  g ≠ [] → NL ∉ g →
  ∃ g' rest', g ++ RBRACKET :: rest = g' ++ RBRACKET :: rest'
              ∧ g' ≠ [] ∧ (NL ∉ g') ∧ (RBRACKET ∉ drop 1 g').
Proof.
  intros Hg Hnl. destruct g as [|x t]; [done|].
  destruct (decide (RBRACKET ∈ t)) as [Hin|Hin].
  - apply list_elem_of_split_l in Hin as (t1 & t2 & -> & H1).
    exists (x :: t1), (t2 ++ RBRACKET :: rest). split.
    { simpl. by rewrite <- app_assoc. }
    split; [done|]. split; [|done].
    intros H. apply Hnl. rewrite app_comm_cons. apply elem_of_app. by left.
  - by exists (x :: t), rest.
Qed.

(** The header lines of utils/reviewer.py are the lines [【 g 】 rest] with a
    non-empty [g]. *)
Lemma reviewer_header_iff (line : str) :
  reviewer_header line = true
  ↔ ∃ g rest, line = LBRACKET :: g ++ RBRACKET :: rest ∧ g ≠ [] ∧ (NL ∉ g).
Proof.
  unfold reviewer_header. split.
  - destruct (re_match Reviewer.category_pattern line) as [m|] eqn:E; [|done].
    intros _. apply category_match_sound in E as (g & rest & -> & Hg & Hnl & _).
    by exists g, rest.
  - intros (g & rest & -> & Hg & Hnl).
    destruct (first_rbracket g rest Hg Hnl)
      as (g' & rest' & E & Hg' & Hnl' & Hrb).
    rewrite E. by rewrite (category_match_first g' rest' Hg' Hnl' Hrb).
Qed.

Lemma reviewer_header_step (cat line : str) (rs : list IssueRecord)
    (sg : list str) :
  reviewer_header line = true →
  ∃ g rest, line = LBRACKET :: g ++ RBRACKET :: rest
            ∧ g ≠ [] ∧ (RBRACKET ∉ drop 1 g)
            ∧ Reviewer.parse_review_line (cat, rs, sg) line = (g, rs, sg).
Proof.
  intros (g & rest & -> & Hg & Hnl)%reviewer_header_iff.
  destruct (first_rbracket g rest Hg Hnl)
    as (g' & rest' & E & Hg' & Hnl' & Hrb).
  exists g', rest'. rewrite E. split; [done|]. split; [done|]. split; [done|].
  by apply reviewer_line_header.
Qed.

Lemma reviewer_other_step (cat line : str) (rs : list IssueRecord)
    (sg : list str) :
  reviewer_header line = false →
  fst (fst (Reviewer.parse_review_line (cat, rs, sg) line)) = cat
  ∧ (startswith (U "【") line = true →
     Reviewer.parse_review_line (cat, rs, sg) line = (cat, rs, sg)).
Proof.
  unfold reviewer_header, Reviewer.parse_review_line.
  destruct (re_match Reviewer.category_pattern line) as [m|]; [done|].
  intros _. split.
  - destruct (re_match Reviewer.issue_pattern line) as [m|]; [|done].
    destruct (truthy cat); [|done]. by destruct (record_of_match cat m).
  - intros [t ->]%startswith_lbracket.
    assert (re_match Reviewer.issue_pattern (LBRACKET :: t) = None) as ->;
      [|done].
    unfold re_match, Reviewer.issue_pattern. by rewrite re_go_seq, re_go_chr.
Qed.

(** C4, as the code has it.  In app.py a line is a header exactly when it
    starts with 【 and ends with 】: a line [【 inner 】] sets the category to
    [inner] and makes no record, and any other line keeps the category (one
    that starts with 【 changes nothing at all).  In utils/reviewer.py the
    header test is the pattern [【(.+?)】] at the start of the line: the
    headers are exactly the lines [【 g 】 rest] with a non-empty [g],
    whatever the rest of the line is; such a line sets the category to the
    [g] that has no 】 after its first character and makes no record; a
    line that the pattern does not match keeps the category, and changes
    nothing at all when it starts with 【. *)
Theorem header_line_sets_category
    (cat : str) (rs : list IssueRecord) (sg : list str)
    (inner line g rest l : str) :
  bracketed line = false →
  g ≠ [] → NL ∉ g → RBRACKET ∉ drop 1 g →
  (bracketed (LBRACKET :: inner ++ [RBRACKET]) = true
   ∧ App.parse_review_line (cat, rs) (LBRACKET :: inner ++ [RBRACKET])
       = (inner, rs))
  ∧ (fst (App.parse_review_line (cat, rs) line) = cat
     ∧ (startswith (U "【") line = true →
        App.parse_review_line (cat, rs) line = (cat, rs)))
  ∧ Reviewer.parse_review_line (cat, rs, sg) (LBRACKET :: g ++ RBRACKET :: rest)
      = (g, rs, sg)
  ∧ (reviewer_header l = true
     ↔ ∃ g' rest', l = LBRACKET :: g' ++ RBRACKET :: rest'
                   ∧ g' ≠ [] ∧ (NL ∉ g'))
  ∧ (reviewer_header l = true →
     ∃ g' rest', l = LBRACKET :: g' ++ RBRACKET :: rest'
                 ∧ g' ≠ [] ∧ (RBRACKET ∉ drop 1 g')
                 ∧ Reviewer.parse_review_line (cat, rs, sg) l = (g', rs, sg))
  ∧ (reviewer_header l = false →
     fst (fst (Reviewer.parse_review_line (cat, rs, sg) l)) = cat
     ∧ (startswith (U "【") l = true →
        Reviewer.parse_review_line (cat, rs, sg) l = (cat, rs, sg))).
Proof.
  intros B Hg Hnl Hrb. split; [|split; [|split; [|split; [|split]]]].
  - split; [|apply app_line_header]. apply bracketed_iff. by exists inner.
  - unfold App.parse_review_line.
    change (startswith (U "【") line && endswith (U "】") line)
      with (bracketed line).
    rewrite B. split.
    + destruct (startswith (U "- ") line && truthy cat); [|done].
      destruct (re_match App.issue_pattern line) as [m|]; [|done].
      by destruct (record_of_match cat m).
    + intros H. by rewrite (lbracket_not_dash line H).
  - by apply reviewer_line_header.
  - apply reviewer_header_iff.
  - apply reviewer_header_step.
  - apply reviewer_other_step.
Qed.

Lemma header_line_sets_category_witness :
  bracketed (U "【A】x") = false
  ∧ U "A" ≠ [] ∧ (NL ∉ U "A") ∧ (RBRACKET ∉ drop 1 (U "A"))
  ∧ (bracketed (LBRACKET :: U "設定" ++ [RBRACKET]) = true
     ∧ App.parse_review_line (U "B", []) (LBRACKET :: U "設定" ++ [RBRACKET])
         = (U "設定", []))
  ∧ (fst (App.parse_review_line (U "B", []) (U "【A】x")) = U "B"
     ∧ (startswith (U "【") (U "【A】x") = true →
        App.parse_review_line (U "B", []) (U "【A】x") = (U "B", [])))
  ∧ Reviewer.parse_review_line (U "B", [], [])
      (LBRACKET :: U "A" ++ RBRACKET :: U "x") = (U "A", [], [])
  ∧ (reviewer_header (U "【A") = true
     ↔ ∃ g' rest', U "【A" = LBRACKET :: g' ++ RBRACKET :: rest'
                   ∧ g' ≠ [] ∧ (NL ∉ g'))
  ∧ (reviewer_header (U "【A") = true →
     ∃ g' rest', U "【A" = LBRACKET :: g' ++ RBRACKET :: rest'
                 ∧ g' ≠ [] ∧ (RBRACKET ∉ drop 1 g')
                 ∧ Reviewer.parse_review_line (U "B", [], []) (U "【A")
                   = (g', [], []))
  ∧ (reviewer_header (U "【A") = false →
     fst (fst (Reviewer.parse_review_line (U "B", [], []) (U "【A"))) = U "B"
     ∧ (startswith (U "【") (U "【A") = true →
        Reviewer.parse_review_line (U "B", [], []) (U "【A")
        = (U "B", [], []))).
Proof.
  split; [by_computation|]. split; [by_computation|].
  split; [by_computation|]. split; [by_computation|].
  apply (header_line_sets_category (U "B") [] [] (U "設定") (U "【A】x")
           (U "A") (U "x") (U "【A")); by_computation.
Defined.

(** A line that starts with 【 and does not end with 】: utils/reviewer.py
    takes it as a header and changes the category, app.py does not. *)
Lemma reviewer_header_with_trailing_text :
  let line := U "【A】x" in
  startswith (U "【") line = true
  ∧ endswith (U "】") line = false
  ∧ Reviewer.parse_review_line (U "B", [], []) line = (U "A", [], [])
  ∧ fst (fst (Reviewer.parse_review_line (U "B", [], []) line)) ≠ U "B"
  ∧ App.parse_review_line (U "B", []) line = (U "B", []).
Proof. vm_compute. repeat split; discriminate. Qed.

(** ** Records and the current category *)

Lemma record_of_match_category (cat : str) (m : gmap nat str) (r : IssueRecord) :
  record_of_match cat m = Some r → category r = cat.
Proof.
  unfold record_of_match. destruct (m !! 1); [|done].
  destruct (m !! 2); [|done]. by intros [= <-].
Qed.

(** The records a line adds carry the current category, which is not
    empty. *)
Lemma app_step_category (cat line : str) (rs : list IssueRecord) (r : IssueRecord) :
  r ∈ snd (App.parse_review_line (cat, rs) line) →
  r ∈ rs ∨ (cat ≠ [] ∧ category r = cat).
Proof.
  unfold App.parse_review_line.
  destruct (startswith (U "【") line && endswith (U "】") line); [by left|].
  destruct (startswith (U "- ") line && truthy cat) eqn:D; [|by left].
  apply andb_true_iff in D as [_ T%truthy_nonempty].
  destruct (re_match App.issue_pattern line) as [m|]; [|by left].
  destruct (record_of_match cat m) as [r'|] eqn:E; [|by left].
  simpl. intros [Hin | ->%list_elem_of_singleton]%elem_of_app; [by left|].
  right. split; [done|]. by eapply record_of_match_category.
Qed.

Lemma reviewer_step_category (cat line : str) (rs : list IssueRecord)
    (sg : list str) (r : IssueRecord) :
  r ∈ snd (fst (Reviewer.parse_review_line (cat, rs, sg) line)) →
  r ∈ rs ∨ (cat ≠ [] ∧ category r = cat).
Proof.
  unfold Reviewer.parse_review_line.
  destruct (re_match Reviewer.category_pattern line); [by left|].
  destruct (re_match Reviewer.issue_pattern line) as [m|]; [|by left].
  destruct (truthy cat) eqn:T; [|by left]. apply truthy_nonempty in T.
  destruct (record_of_match cat m) as [r'|] eqn:E; [|by left].
  simpl. intros [Hin | ->%list_elem_of_singleton]%elem_of_app; [by left|].
  right. split; [done|]. by eapply record_of_match_category.
Qed.

(** C5, as the code has it.  In app.py the lines before the first header
    line (a line that starts with 【 and ends with 】) yield no record.  In
    utils/reviewer.py the same holds for its own header lines, the lines
    the pattern [【(.+?)】] matches; a line such as [【A】x] is one of them.
    In both, a record that a line adds is made under a non-empty current
    category and carries it, and so every record of the result has a
    non-empty category, one that a header line of the text has set. *)
Theorem records_need_active_category
    (s1 s2 phase cat line : str) (rs : list IssueRecord) (sg : list str) :
  ((forallb (fun l => negb (bracketed l)) (split [NL] s1) = true →
    App.parse_review_response s1 = []
    ∧ App.parse_review_response (s1 ++ NL :: s2) = App.parse_review_response s2)
   ∧ (∀ r, r ∈ snd (App.parse_review_line (cat, rs) line) →
        r ∈ rs ∨ (cat ≠ [] ∧ category r = cat))
   ∧ ∀ r, r ∈ App.parse_review_response s2 →
       category r ≠ []
       ∧ ∃ h, h ∈ split [NL] s2 ∧ app_sets_cat h (category r))
  ∧ ((forallb (fun l => negb (reviewer_header l)) (split [NL] s1) = true →
      Reviewer.issues (Reviewer._parse_review_response s1 phase) = []
      ∧ Reviewer.issues (Reviewer._parse_review_response (s1 ++ NL :: s2) phase)
        = Reviewer.issues (Reviewer._parse_review_response s2 phase))
     ∧ (∀ r, r ∈ snd (fst (Reviewer.parse_review_line (cat, rs, sg) line)) →
          r ∈ rs ∨ (cat ≠ [] ∧ category r = cat))
     ∧ ∀ r, r ∈ Reviewer.issues (Reviewer._parse_review_response s2 phase) →
         category r ≠ []
         ∧ ∃ h, h ∈ split [NL] s2 ∧ reviewer_sets_cat h (category r)).
Proof.
  split; (split; [|split]).
  - intros Ha.
    assert (fold_left App.parse_review_line (split [NL] s1) ([], [])
            = ([], [])) as E.
    { apply (fold_inactive App.parse_review_line fst snd bracketed
               app_sets_cat app_step_cases (split [NL] s1)); [|done].
      by apply no_header_lines. }
    unfold App.parse_review_response. split; [by rewrite E|].
    by rewrite split_lines_app, fold_left_app, E.
  - intros r. apply app_step_category.
  - intros r Hin. unfold App.parse_review_response in Hin.
    apply (fold_records App.parse_review_line fst snd bracketed
             app_sets_cat app_step_cases) in Hin;
      [|intros l Hl; by eapply split_lines_no_NL].
    destruct Hin as [Hin | (l & c & _ & (Hne & Hc & _) & Hcat)].
    { by apply elem_of_nil in Hin. }
    rewrite Hc. split; [done|]. by destruct Hcat as [-> | Hh].
  - intros Hr.
    assert (fold_left Reviewer.parse_review_line (split [NL] s1) ([], [], [])
            = ([], [], [])) as E.
    { apply (fold_inactive Reviewer.parse_review_line
               (fun st => fst (fst st)) (fun st => snd (fst st))
               reviewer_header reviewer_sets_cat reviewer_step_cases
               (split [NL] s1)); [|done].
      by apply no_header_lines. }
    rewrite !reviewer_issues_fold. split; [by rewrite E|].
    by rewrite split_lines_app, fold_left_app, E.
  - intros r. apply reviewer_step_category.
  - intros r Hin. rewrite reviewer_issues_fold in Hin.
    apply (fold_records Reviewer.parse_review_line
             (fun st => fst (fst st)) (fun st => snd (fst st))
             reviewer_header reviewer_sets_cat reviewer_step_cases) in Hin;
      [|intros l Hl; by eapply split_lines_no_NL].
    destruct Hin as [Hin | (l & c & _ & (Hne & Hc & _) & Hcat)].
    { by apply elem_of_nil in Hin. }
    rewrite Hc. split; [done|]. by destruct Hcat as [-> | Hh].
Qed.

Lemma records_need_active_category_witness :
  forallb (fun l => negb (bracketed l)) (split [NL] orphan_sample) = true
  ∧ forallb (fun l => negb (reviewer_header l)) (split [NL] orphan_sample) = true
  ∧ ((forallb (fun l => negb (bracketed l)) (split [NL] orphan_sample) = true →
      App.parse_review_response orphan_sample = []
      ∧ App.parse_review_response (orphan_sample ++ NL :: headed_sample)
        = App.parse_review_response headed_sample)
     ∧ (∀ r, r ∈ snd (App.parse_review_line (U "A", []) (U "- c：d→e")) →
          r ∈ [] ∨ (U "A" ≠ [] ∧ category r = U "A"))
     ∧ ∀ r, r ∈ App.parse_review_response headed_sample →
         category r ≠ []
         ∧ ∃ h, h ∈ split [NL] headed_sample ∧ app_sets_cat h (category r))
  ∧ ((forallb (fun l => negb (reviewer_header l)) (split [NL] orphan_sample)
      = true →
      Reviewer.issues (Reviewer._parse_review_response orphan_sample []) = []
      ∧ Reviewer.issues
          (Reviewer._parse_review_response (orphan_sample ++ NL :: headed_sample) [])
        = Reviewer.issues (Reviewer._parse_review_response headed_sample []))
     ∧ (∀ r, r ∈ snd (fst (Reviewer.parse_review_line (U "A", [], [])
                             (U "- c：d→e"))) →
          r ∈ [] ∨ (U "A" ≠ [] ∧ category r = U "A"))
     ∧ ∀ r, r ∈ Reviewer.issues (Reviewer._parse_review_response headed_sample []) →
         category r ≠ []
         ∧ ∃ h, h ∈ split [NL] headed_sample ∧ reviewer_sets_cat h (category r)).
Proof.
  split; [by_computation|]. split; [by_computation|].
  apply (records_need_active_category orphan_sample headed_sample []
           (U "A") (U "- c：d→e") [] []).
Defined.

(** A text without any line that starts with 【 and ends with 】: in
    utils/reviewer.py the line [【A】x] sets the category all the same, and
    the issue line after it yields a record; app.py returns none. *)
Lemma reviewer_record_without_header_line :
  forallb (fun l => negb (bracketed l)) (split [NL] unclosed_header_sample)
    = true
  ∧ Reviewer.issues (Reviewer._parse_review_response unclosed_header_sample [])
    = [mkIssue (U "A") (U "a") (U "b") []]
  ∧ Reviewer.issues (Reviewer._parse_review_response unclosed_header_sample [])
    ≠ []
  ∧ App.parse_review_response unclosed_header_sample = [].
Proof. vm_compute. repeat split; discriminate. Qed.

(** ** The issue field *)

(** *** The groups of a match *)

Section IssueGroups.

(** The prefix that [(.+?)] takes is the first one after which the rest of
    the pattern succeeds. *)
Lemma lazy_dot_Some_first {R : Type} (k : str → option R) (s : str) (m : R) :
  lazy_dot k s = Some m →
  ∃ pre post, s = pre ++ post ∧ pre ≠ [] ∧ (NL ∉ pre) ∧ k post = Some m
              ∧ ∀ j, 0 < j < length pre → k (drop j s) = None.
Proof.
  induction s as [|x s IH]; cbn [lazy_dot]; [discriminate|].
  destruct (N.eqb_spec x NL) as [|Hx]; [discriminate|].
  destruct (k s) as [m'|] eqn:E.
  - intros [= <-]. exists [x], s. split; [done|]. split; [done|].
    split; [|split; [done|]].
    + intros Heq%list_elem_of_singleton. congruence.
    + intros j Hj. simpl in Hj. lia.
  - intros (pre & post & -> & _ & Hnl & Hk & Hmin)%IH.
    exists (x :: pre), post. split; [done|]. split; [done|].
    split; [|split; [done|]].
    + intros [Heq|]%elem_of_cons; [congruence|done].
    + intros j Hj. destruct j as [|[|j]]; [lia|exact E|].
      apply (Hmin (S j)). simpl in Hj. lia.
Qed.

(** On a non-empty text without line break, [(.+?)] followed by something
    that accepts the end of the text succeeds. *)
Lemma lazy_dot_end {R : Type} (k : str → option R) (s : str) :
  s ≠ [] → NL ∉ s → k [] ≠ None → lazy_dot k s ≠ None.
Proof.
  intros Hne Hnl Hk. induction s as [|x s IH]; [done|].
  apply not_elem_of_cons in Hnl as [Hx Hnl]. cbn [lazy_dot].
  destruct (N.eqb_spec x NL) as [|_]; [done|].
  destruct (k s) as [m|] eqn:E; [done|].
  destruct s as [|y s]; [congruence|]. by apply IH.
Qed.

Lemma issue_tail_lone_arrow (g : gmap nat str) :
  re_go issue_tail [ARROW] g accept = None.
Proof. reflexivity. Qed.

Lemma colon_rest_matches (t : str) (g : gmap nat str) :
  t ≠ [] → NL ∉ t →
  re_go (Chr COLON +> Group 2 (PlusLazy Dot) +> issue_tail) (COLON :: t) g accept
    ≠ None.
Proof.
  intros Ht Hnl. rewrite re_go_seq, re_go_chr.
  change (COLON =? COLON)%N with true. cbv iota.
  rewrite re_go_seq, re_go_group_lazy_dot.
  apply lazy_dot_end; [done|done|]. by rewrite issue_tail_end.
Qed.

Lemma lookup_after_first (c : char) (s : str) (j : nat) :
  c ∉ drop 1 s → 0 < j → s !! j ≠ Some c.
Proof.
  intros H Hj E. apply H. apply list_elem_of_lookup. exists (j - 1).
  rewrite lookup_drop. by replace (1 + (j - 1)) with j by lia.
Qed.

Lemma drop_at (pre post : str) (j : nat) (x : char) :
  pre !! j = Some x → drop j (pre ++ post) = x :: drop (S j) pre ++ post.
Proof.
  intros H. pose proof (lookup_lt_Some _ _ _ H) as Hj.
  rewrite drop_app_le by lia. by rewrite (drop_S _ _ _ H).
Qed.

(** Every match of the issue pattern on a line without line break has the
    groups that [issue_groups] describes ... *)
Lemma issue_match_groups_sound (line : str) (m : gmap nat str) :
  NL ∉ line → re_match App.issue_pattern line = Some m →
  ∃ g1 g2 g3, issue_groups line g1 g2 g3 ∧ m = groups_match g1 g2 g3.
Proof.
  intros Hnl. unfold re_match, App.issue_pattern. fold issue_tail accept.
  rewrite re_go_seq, re_go_chr. destruct line as [|x line]; [done|].
  destruct (N.eqb_spec x DASH) as [->|]; [|done].
  rewrite re_go_seq, re_go_chr. destruct line as [|x line]; [done|].
  destruct (N.eqb_spec x SPACE) as [->|]; [|done].
  apply not_elem_of_cons in Hnl as [_ Hnl].
  apply not_elem_of_cons in Hnl as [_ Hnl].
  rewrite re_go_seq, re_go_group_lazy_dot.
  intros (g1 & s1 & -> & Hg1 & N1 & H & Hmin1)%lazy_dot_Some_first.
  rewrite take_captured, re_go_seq, re_go_chr in H.
  destruct s1 as [|x s1]; [done|].
  destruct (N.eqb_spec x COLON) as [->|]; [|done].
  rewrite re_go_seq, re_go_group_lazy_dot in H.
  apply lazy_dot_Some_first in H as (g2 & tail & -> & Hg2 & N2 & H & Hmin2).
  rewrite take_captured in H.
  assert (NL ∉ tail) as N3.
  { intros Hin. apply Hnl. rewrite elem_of_app, elem_of_cons, elem_of_app.
    auto. }
  assert (COLON ∉ drop 1 g1) as Hc.
  { intros (i & Hi)%list_elem_of_lookup. rewrite lookup_drop in Hi.
    pose proof (lookup_lt_Some _ _ _ Hi) as Hlt.
    pose proof (Hmin1 (1 + i) ltac:(lia)) as Hn. cbv beta in Hn.
    rewrite (drop_at _ _ _ _ Hi) in Hn. revert Hn.
    apply colon_rest_matches.
    - by destruct (drop (S (1 + i)) g1).
    - intros Hin. apply Hnl. rewrite <- (take_drop (S (1 + i)) g1).
      rewrite <- app_assoc. apply elem_of_app. by right. }
  assert (∀ j sug, 0 < j → g2 !! j = Some ARROW →
            drop (S j) g2 ++ tail = sug → sug ≠ [] → False) as Harrow.
  { intros j sug Hj Hlk Esug Hsug.
    pose proof (lookup_lt_Some _ _ _ Hlk) as Hlt.
    pose proof (Hmin2 j ltac:(lia)) as Hn. cbv beta in Hn.
    rewrite (drop_at _ _ _ _ Hlk), Esug in Hn.
    rewrite issue_tail_arrow in Hn; [done|done|].
    subst sug. intros [Hin|Hin]%elem_of_app; [|done].
    apply N2. rewrite <- (take_drop (S j) g2). apply elem_of_app. by right. }
  apply issue_tail_Some in H as [[-> Ht] | (g3 & e & -> & Hg3 & Hn3 & He & ->)].
  - assert (tail = []) as ->.
    { destruct Ht as [->| ->]; [done|]. exfalso. apply N3. left. }
    exists g1, g2, None. split; [|done].
    split; [done|]. split; [done|]. split; [done|].
    split; [by rewrite app_nil_r|].
    intros j Hj Hlk. pose proof (lookup_lt_Some _ _ _ Hlk) as Hlt.
    destruct (decide (S j = length g2)) as [|Hne]; [done|]. exfalso.
    apply (Harrow j (drop (S j) g2 ++ []) Hj Hlk eq_refl).
    rewrite app_nil_r. intros E. apply (f_equal length) in E.
    rewrite length_drop in E. simpl in E. lia.
  - assert (e = []) as ->.
    { destruct He as [->| ->]; [done|]. exfalso. apply N3.
      right. apply elem_of_app. right. left. }
    rewrite app_nil_r in *.
    exists g1, g2, (Some g3). split; [|done].
    split; [done|]. split; [done|]. split; [done|].
    split; [done|]. split; [done|].
    intros (i & Hi)%list_elem_of_lookup. rewrite lookup_drop in Hi.
    apply (Harrow (1 + i) (drop (S (1 + i)) g2 ++ ARROW :: g3)
             ltac:(lia) Hi eq_refl).
    by destruct (drop (S (1 + i)) g2).
Qed.

(** ... and a line with such groups is matched with them. *)
Lemma issue_match_groups_complete (line g1 g2 : str) (g3 : option str) :
  NL ∉ line → issue_groups line g1 g2 g3 →
  re_match App.issue_pattern line = Some (groups_match g1 g2 g3).
Proof.
  intros Hnl (Hg1 & Hc & Hg2 & H).
  assert (∀ post, NL ∉ DASH :: SPACE :: g1 ++ COLON :: g2 ++ post →
            (NL ∉ g1) ∧ (NL ∉ g2) ∧ (NL ∉ post)) as Hparts.
  { intros post Hn.
    apply not_elem_of_cons in Hn as [_ Hn].
    apply not_elem_of_cons in Hn as [_ Hn].
    rewrite elem_of_app, elem_of_cons, elem_of_app in Hn. tauto. }
  unfold re_match, App.issue_pattern. fold issue_tail accept.
  assert (∀ post j, 0 < j < length g1 →
            re_go (Chr COLON +> Group 2 (PlusLazy Dot) +> issue_tail)
              (drop j (g1 ++ post))
              (<[1 := take (length (g1 ++ post) - length (drop j (g1 ++ post)))
                        (g1 ++ post)]> ∅) accept = None) as Hmin1.
  { intros post j Hj.
    destruct (lookup_lt_is_Some_2 g1 j ltac:(lia)) as [x Hx].
    rewrite (drop_at _ _ _ _ Hx), re_go_seq, re_go_chr.
    destruct (N.eqb_spec x COLON) as [->|]; [|done].
    by destruct (lookup_after_first COLON g1 j Hc ltac:(lia)). }
  destruct g3 as [g3|].
  - destruct H as (-> & Hg3 & Ha).
    destruct (Hparts _ Hnl) as (N1 & N2 & N3).
    apply not_elem_of_cons in N3 as [_ N3].
    rewrite re_go_seq, re_go_chr. change (DASH =? DASH)%N with true. cbv iota.
    rewrite re_go_seq, re_go_chr. change (SPACE =? SPACE)%N with true. cbv iota.
    rewrite re_go_seq, re_go_group_lazy_dot.
    apply lazy_dot_first; [done|done| |apply Hmin1].
    rewrite take_captured, re_go_seq, re_go_chr.
    change (COLON =? COLON)%N with true. cbv iota.
    rewrite re_go_seq, re_go_group_lazy_dot.
    apply lazy_dot_first; [done|done| |].
    + rewrite take_captured. by apply issue_tail_arrow.
    + intros j Hj.
      destruct (lookup_lt_is_Some_2 g2 j ltac:(lia)) as [x Hx].
      rewrite (drop_at _ _ _ _ Hx). apply issue_tail_other.
      * intros ->. by destruct (lookup_after_first ARROW g2 j Ha ltac:(lia)).
      * intros ->. apply N2. by eapply list_elem_of_lookup_2.
  - destruct H as (-> & Hlast).
    assert (NL ∉ DASH :: SPACE :: g1 ++ COLON :: g2 ++ []) as Hnl'
      by (by rewrite app_nil_r).
    destruct (Hparts _ Hnl') as (N1 & N2 & _).
    rewrite re_go_seq, re_go_chr. change (DASH =? DASH)%N with true. cbv iota.
    rewrite re_go_seq, re_go_chr. change (SPACE =? SPACE)%N with true. cbv iota.
    rewrite re_go_seq, re_go_group_lazy_dot.
    apply lazy_dot_first; [done|done| |apply Hmin1].
    rewrite take_captured, re_go_seq, re_go_chr.
    change (COLON =? COLON)%N with true. cbv iota.
    rewrite re_go_seq, re_go_group_lazy_dot.
    rewrite <- (app_nil_r g2) at 1.
    apply lazy_dot_first; [done|done| |].
    + by rewrite take_captured_all.
    + intros j Hj.
      destruct (lookup_lt_is_Some_2 g2 j ltac:(lia)) as [x Hx].
      rewrite (drop_at _ _ _ _ Hx).
      destruct (decide (x = ARROW)) as [->|Hne].
      * rewrite app_nil_r, drop_ge by (rewrite <- (Hlast j); [lia|lia|done]).
        apply issue_tail_lone_arrow.
      * apply issue_tail_other; [done|].
        intros ->. apply N2. by eapply list_elem_of_lookup_2.
Qed.

Lemma groups_match_lookup (g1 g2 : str) (g3 : option str) :
  groups_match g1 g2 g3 !! 1 = Some g1
  ∧ groups_match g1 g2 g3 !! 2 = Some g2
  ∧ groups_match g1 g2 g3 !! 3 = g3.
Proof.
  destruct g3 as [g3|]; unfold groups_match;
    repeat split;
    repeat first [rewrite lookup_insert_eq | rewrite lookup_insert_ne by done];
    done.
Qed.

(** The groups of a line are determined by the line. *)
Lemma issue_groups_unique (line g1 g2 h1 h2 : str) (g3 h3 : option str) :
  NL ∉ line →
  issue_groups line g1 g2 g3 → issue_groups line h1 h2 h3 →
  h1 = g1 ∧ h2 = g2 ∧ h3 = g3.
Proof.
  intros Hnl Hg Hh.
  apply (issue_match_groups_complete _ _ _ _ Hnl) in Hg.
  apply (issue_match_groups_complete _ _ _ _ Hnl) in Hh.
  rewrite Hg in Hh. injection Hh as E.
  destruct (groups_match_lookup g1 g2 g3) as (A1 & A2 & A3).
  destruct (groups_match_lookup h1 h2 h3) as (B1 & B2 & B3).
  rewrite E in A1, A2, A3. split; [congruence|]. split; congruence.
Qed.

End IssueGroups.

(** *** Where a record comes from *)

Lemma fold_origin {S : Type} (step : S → str → S)
    (recs : S → list IssueRecord) (Q : str → IssueRecord → Prop)
    (lines : list str) (st : S) (r : IssueRecord) :
  (∀ st line r, r ∈ recs (step st line) → r ∈ recs st ∨ Q line r) →
  r ∈ recs (fold_left step lines st) →
  r ∈ recs st ∨ ∃ line, line ∈ lines ∧ Q line r.
Proof.
  intros Hstep. revert st; induction lines as [|l lines IH]; intros st;
    [by left|].
  simpl. intros [Hin | (line & Hl & HQ)]%IH.
  - apply Hstep in Hin as [Hin | HQ]; [by left|].
    right. exists l. split; [left | done].
  - right. exists line. split; [by right | done].
Qed.

Lemma app_step_origin (st : str * list IssueRecord) (line : str)
    (r : IssueRecord) :
  r ∈ snd (App.parse_review_line st line) →
  r ∈ snd st
  ∨ ∃ cat m, re_match App.issue_pattern line = Some m
             ∧ record_of_match cat m = Some r.
Proof.
  destruct st as [cat rs]. unfold App.parse_review_line.
  destruct (startswith (U "【") line && endswith (U "】") line); [by left|].
  destruct (startswith (U "- ") line && truthy cat); [|by left].
  destruct (re_match App.issue_pattern line) as [m|]; [|by left].
  destruct (record_of_match cat m) as [r'|] eqn:E; [|by left].
  simpl. intros [Hin | ->%list_elem_of_singleton]%elem_of_app; [by left|].
  right. by exists cat, m.
Qed.

Lemma reviewer_step_origin (st : str * list IssueRecord * list str)
    (line : str) (r : IssueRecord) :
  r ∈ snd (fst (Reviewer.parse_review_line st line)) →
  r ∈ snd (fst st)
  ∨ ∃ cat m, re_match Reviewer.issue_pattern line = Some m
             ∧ record_of_match cat m = Some r.
Proof.
  destruct st as [[cat rs] sg]. unfold Reviewer.parse_review_line.
  destruct (re_match Reviewer.category_pattern line); [by left|].
  destruct (re_match Reviewer.issue_pattern line) as [m|]; [|by left].
  destruct (truthy cat); [|by left].
  destruct (record_of_match cat m) as [r'|] eqn:E; [|by left].
  simpl. intros [Hin | ->%list_elem_of_singleton]%elem_of_app; [by left|].
  right. by exists cat, m.
Qed.

(** C6, as the code has it: the issue of every record is the trimmed text
    of group 2 of the issue pattern on a line of the input.  The line is
    matched by the pattern of app.py and by the one of utils/reviewer.py
    with the same groups; [issue_groups] says which they are, and the line
    has no other such groups: group 2 starts after the first ： that is
    not the first character of the text after ["- "], it is not empty, and
    it ends before the first → after its first character that is not the
    last character of the line, or at the end of the line when there is
    none.  The issue is empty exactly when group 2 is white space only,
    which the pattern accepts. *)
Theorem issue_is_trimmed_nonempty_text (s phase : str) (r : IssueRecord) :
  r ∈ App.parse_review_response s
  ∨ r ∈ Reviewer.issues (Reviewer._parse_review_response s phase) →
  ∃ (line g1 g2 : str) (g3 : option str),
    line ∈ split [NL] s
    ∧ re_match App.issue_pattern line = Some (groups_match g1 g2 g3)
    ∧ re_match Reviewer.issue_pattern line = Some (groups_match g1 g2 g3)
    ∧ issue_groups line g1 g2 g3
    ∧ (∀ h1 h2 h3, issue_groups line h1 h2 h3 → h1 = g1 ∧ h2 = g2 ∧ h3 = g3)
    ∧ g2 ≠ []
    ∧ issue r = strip g2
    ∧ (issue r = [] ↔ ∀ c, c ∈ g2 → is_space c = true).
Proof.
  intros H.
  assert (∃ line cat m, line ∈ split [NL] s
                        ∧ re_match App.issue_pattern line = Some m
                        ∧ record_of_match cat m = Some r)
    as (line & cat & m & Hline & M & Hr).
  { destruct H as [Hin | Hin].
    - unfold App.parse_review_response in Hin.
      apply (fold_origin App.parse_review_line snd
               (fun line r => ∃ cat m, re_match App.issue_pattern line = Some m
                                       ∧ record_of_match cat m = Some r))
        in Hin; [|apply app_step_origin].
      destruct Hin as [Hin | (line & Hl & cat & m & M & Hr)];
        [by apply elem_of_nil in Hin|].
      by exists line, cat, m.
    - rewrite reviewer_issues_fold in Hin.
      apply (fold_origin Reviewer.parse_review_line (fun st => snd (fst st))
               (fun line r => ∃ cat m,
                    re_match Reviewer.issue_pattern line = Some m
                    ∧ record_of_match cat m = Some r))
        in Hin; [|apply reviewer_step_origin].
      destruct Hin as [Hin | (line & Hl & cat & m & M & Hr)];
        [by apply elem_of_nil in Hin|].
      exists line, cat, m. split; [done|]. split; [|done].
      rewrite <- reviewer_issue_match; [done|]. by eapply split_lines_no_NL. }
  pose proof (split_lines_no_NL _ _ Hline) as Hnl.
  destruct (issue_match_groups_sound line m Hnl M) as (g1 & g2 & g3 & Hg & ->).
  destruct (groups_match_lookup g1 g2 g3) as (L1 & L2 & _).
  unfold record_of_match in Hr. rewrite L1, L2 in Hr. injection Hr as <-.
  exists line, g1, g2, g3. cbn [issue].
  split; [done|]. split; [done|].
  split; [by rewrite reviewer_issue_match|]. split; [done|].
  split; [intros h1 h2 h3 Hh; by apply (issue_groups_unique line)|].
  split; [by destruct Hg as (_ & _ & ? & _)|]. split; [done|].
  apply strip_nil.
Qed.

Lemma issue_is_trimmed_nonempty_text_witness :
  (blank_issue_record ∈ App.parse_review_response blank_issue_sample
   ∨ blank_issue_record
       ∈ Reviewer.issues (Reviewer._parse_review_response blank_issue_sample []))
  ∧ ∃ (line g1 g2 : str) (g3 : option str),
      line ∈ split [NL] blank_issue_sample
      ∧ re_match App.issue_pattern line = Some (groups_match g1 g2 g3)
      ∧ re_match Reviewer.issue_pattern line = Some (groups_match g1 g2 g3)
      ∧ issue_groups line g1 g2 g3
      ∧ (∀ h1 h2 h3, issue_groups line h1 h2 h3 → h1 = g1 ∧ h2 = g2 ∧ h3 = g3)
      ∧ g2 ≠ []
      ∧ issue blank_issue_record = strip g2
      ∧ (issue blank_issue_record = [] ↔ ∀ c, c ∈ g2 → is_space c = true).
Proof.
  assert (blank_issue_record ∈ App.parse_review_response blank_issue_sample)
    as Hin by by_computation.
  split; [by left|].
  apply (issue_is_trimmed_nonempty_text blank_issue_sample [] blank_issue_record).
  by left.
Defined.

(** A line whose text after the full-width colon is one space: a record
    with an empty issue is made. *)
Lemma whitespace_issue_gives_empty_field :
  App.parse_review_response blank_issue_sample = [blank_issue_record]
  ∧ Reviewer.issues (Reviewer._parse_review_response blank_issue_sample [])
      = [blank_issue_record]
  ∧ issue blank_issue_record = []
  ∧ ¬ (∀ r, r ∈ App.parse_review_response blank_issue_sample → issue r ≠ []).
Proof.
  assert (App.parse_review_response blank_issue_sample = [blank_issue_record])
    as E by by_computation.
  split; [done|]. split; [by_computation|]. split; [done|].
  intros H. apply (H blank_issue_record); [|done]. rewrite E. left.
Qed.

(** ** The three extractors compared *)

Section Agreement.

Lemma split_max_one (sep s : str) :
  split_max 1 sep s =
  match find sep s with
  | None => [s]
  | Some i => [take i s; drop (i + length sep) s]
  end.
Proof. reflexivity. Qed.

Lemma issue_no_match_without_dash (line : str) :
  startswith (U "- ") line = false → re_match App.issue_pattern line = None.
Proof.
  intros H. destruct (re_match App.issue_pattern line) as [m|] eqn:M; [|done].
  apply issue_match_sound in M as (g1 & g2 & tail & -> & _).
  by rewrite (proj2 (startswith_dash _)) in H by by eexists.
Qed.

Lemma issue_no_match_without_colon (body : str) :
  COLON ∉ body → re_match App.issue_pattern (DASH :: SPACE :: body) = None.
Proof.
  intros H.
  destruct (re_match App.issue_pattern (DASH :: SPACE :: body)) as [m|] eqn:M;
    [|done].
  apply issue_match_sound in M as (g1 & g2 & tail & E & _).
  injection E as ->. exfalso. apply H. apply elem_of_app. right. left.
Qed.

Lemma category_no_match (line : str) :
  startswith (U "【") line = false →
  re_match Reviewer.category_pattern line = None.
Proof.
  intros H.
  destruct (re_match Reviewer.category_pattern line) as [m|] eqn:M; [|done].
  apply category_match_sound in M as (g & rest & -> & _).
  by rewrite (proj2 (startswith_lbracket _)) in H by by eexists.
Qed.

Lemma not_bracketed (line : str) :
  startswith (U "【") line = false → bracketed line = false.
Proof. unfold bracketed. by intros ->. Qed.

Lemma record_of_match_plain (cat loc rest : str) :
  record_of_match cat (<[2 := rest]> (<[1 := loc]> ∅))
  = Some {| category := cat; location := strip loc;
            issue := strip rest; suggestion := [] |}.
Proof.
  unfold record_of_match.
  rewrite (lookup_insert_ne _ 2 1), (lookup_insert_eq _ 1) by done.
  rewrite (lookup_insert_eq _ 2).
  by rewrite !lookup_insert_ne, lookup_empty by done.
Qed.

Lemma record_of_match_arrow (cat loc iss sug : str) :
  sug ≠ [] →
  record_of_match cat (<[3 := sug]> (<[2 := iss]> (<[1 := loc]> ∅)))
  = Some {| category := cat; location := strip loc;
            issue := strip iss; suggestion := strip sug |}.
Proof.
  intros Hs. unfold record_of_match.
  rewrite (lookup_insert_ne _ 3 1), (lookup_insert_ne _ 2 1),
    (lookup_insert_eq _ 1) by done.
  rewrite (lookup_insert_ne _ 3 2), (lookup_insert_eq _ 2) by done.
  rewrite (lookup_insert_eq _ 3). by destruct sug.
Qed.

(** The split of a text at the first occurrence of a character. *)
Lemma find_char_parts (c : char) (s : str) (i : nat) :
  find [c] s = Some i →
  s = take i s ++ c :: drop (i + 1) s
  ∧ (c ∉ take i s) ∧ length (take i s) = i.
Proof.
  intros (E & Hni & Hlt)%find_char_Some.
  replace (i + 1) with (S i) by lia. split; [done|]. split; [done|].
  apply length_take_le. lia.
Qed.

Lemma not_in_parts (c : char) (a b : str) (x : char) :
  c ∉ a ++ x :: b → (c ∉ a) ∧ (c ∉ b).
Proof.
  intros H. apply not_elem_of_app in H as [Ha H].
  by apply not_elem_of_cons in H as [_ Hb].
Qed.

End Agreement.

Section AgreementSteps.

(** A regular issue line: what the split of scenario_review_tool.py finds
    is what the pattern of app.py captures. *)
Lemma regular_issue_record (cat body : str) (i : nat) :
  NL ∉ body →
  find [COLON] body = Some i →
  regular_issue body i = true →
  ∃ loc rest iss sug m,
    split_max 1 [COLON] body = [loc; rest]
    ∧ (if contains [ARROW] rest then
         match split_max 1 [ARROW] rest with
         | [iss; sug] => (iss, sug)
         | _ => (rest, [])
         end
       else (rest, [])) = (iss, sug)
    ∧ re_match App.issue_pattern (DASH :: SPACE :: body) = Some m
    ∧ record_of_match cat m
        = Some {| category := cat; location := strip loc;
                  issue := strip iss; suggestion := strip sug |}.
Proof.
  intros Hnl F Hreg. unfold regular_issue in Hreg. cbv zeta in Hreg.
  apply andb_true_iff in Hreg as [Hreg Harrow].
  apply andb_true_iff in Hreg as [Hi%Nat.ltb_lt Hrest%truthy_nonempty].
  pose proof (find_char_parts _ _ _ F) as (E & Hlc & Hlen).
  assert (split_max 1 [COLON] body = [take i body; drop (i + 1) body]) as Hsplit
    by (by rewrite split_max_one, F).
  revert Hsplit Harrow Hrest Hlc Hlen E.
  generalize (take i body) as loc. generalize (drop (i + 1) body) as rest.
  intros rest loc Hsplit Harrow Hrest Hlc Hlen E.
  assert (loc ≠ []) as Hloc by (intros ->; simpl in Hlen; lia).
  clear F. subst body. apply not_in_parts in Hnl as [Hln Hrn].
  exists loc, rest.
  destruct (find [ARROW] rest) as [j|] eqn:FA.
  - apply andb_true_iff in Harrow as [Hj%Nat.ltb_lt Hj'%Nat.ltb_lt].
    pose proof (find_char_parts _ _ _ FA) as (E & Hia & Hilen).
    assert (contains [ARROW] rest = true) as ->
      by (apply contains_true; eauto).
    rewrite (split_max_one [ARROW]), FA.
    assert (drop (j + 1) rest ≠ []) as Hsug.
    { intros Hnil. apply (f_equal length) in Hnil.
      rewrite length_drop in Hnil. simpl in Hnil. lia. }
    revert Hsug Hia Hilen E.
    change (length [ARROW]) with 1.
    generalize (take j rest) as iss. generalize (drop (j + 1) rest) as sug.
    intros sug iss Hsug Hia Hilen E.
    assert (iss ≠ []) as Hiss by (intros ->; simpl in Hilen; lia).
    clear FA Hj'. subst rest. apply not_in_parts in Hrn as [Hin Hsn].
    exists iss, sug, (<[3 := sug]> (<[2 := iss]> (<[1 := loc]> ∅))).
    split; [done|]. split; [done|]. split.
    + by apply issue_match_arrow.
    + by apply record_of_match_arrow.
  - assert (contains [ARROW] rest = false) as -> by (by apply contains_false).
    apply find_char_None in FA.
    exists rest, [], (<[2 := rest]> (<[1 := loc]> ∅)).
    split; [done|]. split; [done|]. split.
    + by apply issue_match_plain.
    + apply record_of_match_plain.
Qed.

Lemma tool_line_header (cat inner : str) (rs : list IssueRecord) :
  Tool.parse_text_line (cat, rs) (LBRACKET :: inner ++ [RBRACKET]) = (inner, rs).
Proof.
  assert (bracketed (LBRACKET :: inner ++ [RBRACKET]) = true) as Hb
    by (apply bracketed_iff; by exists inner).
  unfold Tool.parse_text_line.
  change (startswith (U "【") ?l && endswith (U "】") ?l) with (bracketed l).
  by rewrite Hb, slice_inner.
Qed.

(** On a regular line the three loops make the same step. *)
Lemma regular_line_steps (cat : str) (rs : list IssueRecord) (sg : list str)
    (line : str) :
  NL ∉ line →
  regular_line (truthy cat) line = true →
  ∃ cat' rs' sg',
    App.parse_review_line (cat, rs) line = (cat', rs')
    ∧ Tool.parse_text_line (cat, rs) line = (cat', rs')
    ∧ Reviewer.parse_review_line (cat, rs, sg) line = (cat', rs', sg')
    ∧ truthy cat' = truthy cat || startswith (U "【") line.
Proof.
  intros Hnl Hreg. unfold regular_line in Hreg.
  destruct (startswith (U "【") line) eqn:SB.
  - unfold regular_header in Hreg.
    apply andb_true_iff in Hreg as [Hreg Hrb].
    apply andb_true_iff in Hreg as [Hb Hne].
    apply bracketed_iff in Hb as [inner ->]. rewrite slice_inner in Hne, Hrb.
    apply negb_true_iff in Hrb.
    assert (RBRACKET ∉ inner) as Hni
      by (intros Hin%contains_char; congruence).
    apply not_elem_of_cons in Hnl as [_ Hnl].
    apply not_elem_of_app in Hnl as [Hnl _].
    exists inner, rs, sg. split; [apply app_line_header|].
    split; [apply tool_line_header|]. split.
    + apply reviewer_line_header;
        [by apply truthy_nonempty | done | by apply not_in_drop].
    + by rewrite Hne, orb_true_r.
  - rewrite orb_false_r.
    assert (App.parse_review_line (cat, rs) line =
            if startswith (U "- ") line && truthy cat then
              match re_match App.issue_pattern line with
              | Some m => match record_of_match cat m with
                          | Some r => (cat, rs ++ [r])
                          | None => (cat, rs)
                          end
              | None => (cat, rs)
              end
            else (cat, rs)) as ->.
    { unfold App.parse_review_line.
      change (startswith (U "【") line && endswith (U "】") line)
        with (bracketed line).
      by rewrite (not_bracketed _ SB). }
    unfold Tool.parse_text_line, Reviewer.parse_review_line.
    change (startswith (U "【") line && endswith (U "】") line)
      with (bracketed line).
    rewrite (not_bracketed _ SB), (category_no_match _ SB).
    rewrite (reviewer_issue_match _ Hnl).
    destruct (startswith (U "- ") line) eqn:SD.
    + cbn [andb]. pose proof SD as [body ->]%startswith_dash.
      rewrite slice_body in Hreg |- *.
      apply not_elem_of_cons in Hnl as [_ Hnl].
      apply not_elem_of_cons in Hnl as [_ Hnl].
      destruct (find [COLON] body) as [i|] eqn:F.
      * apply andb_true_iff in Hreg as [T Hreg].
        destruct (regular_issue_record cat body i Hnl F Hreg)
          as (loc & rest & iss & sug & m & -> & -> & -> & ->).
        rewrite T. eexists cat, _, _. by repeat split.
      * apply find_char_None in F.
        rewrite (issue_no_match_without_colon body F).
        assert (split_max 1 [COLON] body = [body]) as ->.
        { rewrite split_max_one.
          by rewrite (proj2 (find_char_None COLON body) F). }
        exists cat, rs, sg. by destruct (truthy cat).
    + cbn [andb]. rewrite (issue_no_match_without_dash _ SD).
      by exists cat, rs, sg.
Qed.

(** On regular lines the three loops stay together. *)
Lemma regular_lines_folds (lines : list str) (cat : str)
    (rs : list IssueRecord) (sg : list str) :
  (∀ l, l ∈ lines → NL ∉ l) →
  regular_lines (truthy cat) lines = true →
  ∃ cat' rs' sg',
    fold_left App.parse_review_line lines (cat, rs) = (cat', rs')
    ∧ fold_left Tool.parse_text_line lines (cat, rs) = (cat', rs')
    ∧ fold_left Reviewer.parse_review_line lines (cat, rs, sg)
        = (cat', rs', sg').
Proof.
  revert cat rs sg; induction lines as [|l lines IH]; intros cat rs sg Hnl Hreg.
  - by exists cat, rs, sg.
  - cbn [regular_lines] in Hreg. apply andb_true_iff in Hreg as [Hl Hreg].
    destruct (regular_line_steps cat rs sg l (Hnl l ltac:(left)) Hl)
      as (cat1 & rs1 & sg1 & Ea & Et & Er & Hact).
    rewrite <- Hact in Hreg. cbn [fold_left]. rewrite Ea, Et, Er.
    apply IH; [|done]. intros l' Hl'. apply Hnl. by right.
Qed.

End AgreementSteps.

(** C10, as the code has it: on a text in the expected format the three
    implementations return the same records in the same order.  (On other
    texts they differ: see [extractors_disagree].) *)
Theorem extractors_agree_on_regular_text (text phase : str) :
  regular text = true →
  App.parse_review_response text
    = Reviewer.issues (Reviewer._parse_review_response text phase)
  ∧ App.parse_review_response text = Tool._parse_text_response text.
Proof.
  intros Hreg. rewrite reviewer_issues_fold.
  unfold App.parse_review_response, Tool._parse_text_response.
  destruct (regular_lines_folds (split [NL] text) [] [] [])
    as (cat' & rs' & sg' & -> & -> & ->);
    [intros l Hl; by eapply split_lines_no_NL | exact Hreg | done].
Qed.

Lemma extractors_agree_on_regular_text_witness :
  regular example_review = true
  ∧ App.parse_review_response example_review
      = Reviewer.issues (Reviewer._parse_review_response example_review [])
  ∧ App.parse_review_response example_review
      = Tool._parse_text_response example_review.
Proof.
  split; [by_computation|].
  apply (extractors_agree_on_regular_text example_review []). by_computation.
Defined.

(** Texts on which the implementations differ: an issue line before any
    header (scenario_review_tool.py makes a record with an empty category),
    and a header followed by more text (utils/reviewer.py takes it as a
    header). *)
Lemma extractors_disagree :
  let orphan := U "- a：b" in
  let trailing := U "【A】x" ++ [NL] ++ U "- a：b" in
  App.parse_review_response orphan = []
  ∧ Tool._parse_text_response orphan
      = [ {| category := []; location := U "a";
             issue := U "b"; suggestion := [] |} ]
  ∧ App.parse_review_response orphan ≠ Tool._parse_text_response orphan
  ∧ App.parse_review_response trailing = []
  ∧ Reviewer.issues (Reviewer._parse_review_response trailing [])
      = [ {| category := U "A"; location := U "a";
             issue := U "b"; suggestion := [] |} ]
  ∧ App.parse_review_response trailing
      ≠ Reviewer.issues (Reviewer._parse_review_response trailing []).
Proof. vm_compute. repeat split; discriminate. Qed.

(* ===================================================================== *)
(** * Part V: properties of the other functions                           *)
(* ===================================================================== *)

(** ** [estimate_tokens] *)

Section Findall.

Variable p : str → option (str * str).

(** A match is not empty: what is left is shorter. *)
Hypothesis p_consumes : ∀ s m rest,
  p s = Some (m, rest) → length rest < length s.

Lemma findall_fuel_length (n : nat) (s : str) :
  length (findall_fuel n p s) ≤ length s.
Proof.
  revert s; induction n as [|n IH]; intros s; simpl; [lia|].
  destruct s as [|x s]; [simpl; lia|].
  destruct (p (x :: s)) as [[m rest]|] eqn:E.
  - apply p_consumes in E. specialize (IH rest). simpl in *. lia.
  - specialize (IH s). simpl. lia.
Qed.

Lemma findall_fuel_enough (n k : nat) (s : str) :
  length s < n → length s < k → findall_fuel n p s = findall_fuel k p s.
Proof.
  revert k s; induction n as [|n IH]; intros k s Hn Hk; [lia|].
  destruct k as [|k]; [lia|]. simpl. destruct s as [|x s]; [done|].
  destruct (p (x :: s)) as [[m rest]|] eqn:E.
  - apply p_consumes in E. f_equal. simpl in *. apply IH; lia.
  - simpl in *. apply IH; lia.
Qed.

Lemma findall_cons (x : char) (s : str) :
  findall p (x :: s) =
  match p (x :: s) with
  | Some (m, rest) => m :: findall p rest
  | None => findall p s
  end.
Proof.
  unfold findall.
  change (findall_fuel (S (length (x :: s))) p (x :: s))
    with (match p (x :: s) with
          | Some (m, rest) => m :: findall_fuel (length (x :: s)) p rest
          | None => findall_fuel (length (x :: s)) p s
          end).
  destruct (p (x :: s)) as [[m rest]|] eqn:E.
  - apply p_consumes in E. f_equal.
    simpl in E. apply findall_fuel_enough; simpl; lia.
  - apply findall_fuel_enough; simpl; lia.
Qed.

Lemma findall_none (s : str) :
  (∀ j, p (drop j s) = None) → findall p s = [].
Proof.
  induction s as [|x s IH]; intros H; [done|].
  rewrite findall_cons. pose proof (H 0) as H0. simpl in H0. rewrite H0.
  apply IH. intros j. apply (H (S j)).
Qed.

End Findall.

Section EstimateTokens.

Lemma class_run_spec (c : char → bool) (s : str) :
  s = (class_run c s).1 ++ (class_run c s).2
  ∧ forallb c (class_run c s).1 = true.
Proof.
  induction s as [|x s [IH1 IH2]]; simpl; [done|].
  destruct (c x) eqn:E; [|done].
  destruct (class_run c s) as [run rest]. simpl in *.
  split; [by f_equal|]. by rewrite E.
Qed.

Lemma class_plus_consumes (c : char → bool) (s m rest : str) :
  class_plus c s = Some (m, rest) → length rest < length s.
Proof.
  unfold class_plus. destruct (class_run_spec c s) as [E _].
  destruct (class_run c s) as [[|x run] r]; [done|].
  intros [= <- <-]. rewrite E. simpl. rewrite length_app. lia.
Qed.

Lemma japanese_run_consumes (s m rest : str) :
  AppMore.japanese_run s = Some (m, rest) → length rest < length s.
Proof.
  unfold AppMore.japanese_run.
  destruct (class_plus AppMore.hiragana s) as [[m1 r1]|] eqn:E1.
  { intros [= <- <-]. by eapply class_plus_consumes. }
  destruct (class_plus AppMore.katakana s) as [[m2 r2]|] eqn:E2.
  { intros [= <- <-]. by eapply class_plus_consumes. }
  apply class_plus_consumes.
Qed.

(** The number of matches is at most the number of characters. *)
Lemma findall_length (text : str) :
  length (findall AppMore.japanese_run text) ≤ length text.
Proof. apply findall_fuel_length, japanese_run_consumes. Qed.

Lemma class_plus_all (c : char → bool) (s : str) :
  s ≠ [] → forallb c s = true → class_plus c s = Some (s, []).
Proof.
  intros Hne Hall. unfold class_plus.
  assert (class_run c s = (s, [])) as ->.
  { clear Hne. induction s as [|x s IH]; [done|]. simpl in *.
    apply andb_true_iff in Hall as [-> Hall]. by rewrite IH. }
  by destruct s.
Qed.

Lemma class_plus_not (c : char → bool) (x : char) (s : str) :
  c x = false → class_plus c (x :: s) = None.
Proof. intros H. unfold class_plus. simpl. by rewrite H. Qed.

Lemma japanese_run_not (x : char) (s : str) :
  AppMore.hiragana x || AppMore.katakana x || AppMore.kanji x = false →
  AppMore.japanese_run (x :: s) = None.
Proof.
  intros H. apply orb_false_iff in H as [H Hk].
  apply orb_false_iff in H as [Hh Hka].
  unfold AppMore.japanese_run. by rewrite !class_plus_not.
Qed.

(** The three classes are disjoint. *)
Lemma classes_disjoint (c : char) :
  (AppMore.hiragana c = true → AppMore.katakana c = false ∧ AppMore.kanji c = false)
  ∧ (AppMore.katakana c = true → AppMore.hiragana c = false ∧ AppMore.kanji c = false)
  ∧ (AppMore.kanji c = true → AppMore.hiragana c = false ∧ AppMore.katakana c = false).
Proof.
  unfold AppMore.hiragana, AppMore.katakana, AppMore.kanji.
  repeat first
    [ rewrite andb_true_iff | rewrite orb_true_iff | rewrite andb_false_iff
    | rewrite orb_false_iff | rewrite N.leb_le | rewrite N.leb_gt
    | rewrite N.eqb_eq | rewrite N.eqb_neq ].
  lia.
Qed.

(** The estimate lies between a quarter of the number of characters and
    the number of characters. *)
Theorem estimate_tokens_bounds (text : str) :
  length text / 4 ≤ AppMore.estimate_tokens text
  ∧ AppMore.estimate_tokens text ≤ length text.
Proof.
  unfold AppMore.estimate_tokens. cbv zeta.
  pose proof (findall_length text) as Hj.
  set (j := length (findall AppMore.japanese_run text)) in *.
  set (L := length text) in *.
  pose proof (Nat.div_mod_eq (L - j) 4) as E1.
  pose proof (Nat.mod_upper_bound (L - j) 4 ltac:(lia)) as B1.
  pose proof (Nat.div_mod_eq L 4) as E2.
  pose proof (Nat.mod_upper_bound L 4 ltac:(lia)) as B2.
  lia.
Qed.

(** A text without hiragana, katakana and kanji counts a quarter of its
    characters, rounded down. *)
Theorem estimate_tokens_other (text : str) :
  forallb (fun c => negb (AppMore.hiragana c || AppMore.katakana c
                          || AppMore.kanji c)) text = true →
  AppMore.estimate_tokens text = length text / 4.
Proof.
  intros H. unfold AppMore.estimate_tokens. cbv zeta.
  rewrite (findall_none _ japanese_run_consumes).
  - simpl. by rewrite Nat.sub_0_r.
  - intros j.
    assert (forallb (fun c => negb (AppMore.hiragana c || AppMore.katakana c
                          || AppMore.kanji c)) (drop j text) = true) as Hd.
    { rewrite forallb_forall in H |- *. intros c Hc. apply H.
      rewrite <- (take_drop j text). apply in_or_app. by right. }
    destruct (drop j text) as [|x s]; [done|]. simpl in Hd.
    apply andb_true_iff in Hd as [Hx%negb_true_iff _].
    by apply japanese_run_not.
Qed.

Lemma estimate_tokens_other_witness :
  forallb (fun c => negb (AppMore.hiragana c || AppMore.katakana c
                          || AppMore.kanji c)) (U "hello, world") = true
  ∧ AppMore.estimate_tokens (U "hello, world") = length (U "hello, world") / 4.
Proof.
  split; [by_computation|].
  apply (estimate_tokens_other (U "hello, world")). by_computation.
Defined.

(** A non-empty text whose characters all lie in one of the three ranges of
    the pattern (all in [ぁ-ん], or all in [ァ-ヴ] or [ー], or all in
    [一-龠]) is one match of the pattern, whatever its length: it counts 1,
    and the characters beyond the first count a quarter each.  Characters
    of the three scripts outside these ranges (such as ゔ, ヶ or 㐀) are not
    covered: the pattern does not match them. *)
Theorem estimate_tokens_one_script (text : str) :
  text ≠ [] →
  forallb AppMore.hiragana text = true
  ∨ forallb AppMore.katakana text = true
  ∨ forallb AppMore.kanji text = true →
  AppMore.estimate_tokens text = 1 + (length text - 1) / 4.
Proof.
  intros Hne Hall.
  assert (AppMore.japanese_run text = Some (text, [])) as Hrun.
  { unfold AppMore.japanese_run.
    destruct text as [|x s]; [done|].
    destruct Hall as [H | [H | H]].
    - by rewrite (class_plus_all _ _ Hne H).
    - pose proof H as Hx. simpl in Hx. apply andb_true_iff in Hx as [Hx _].
      destruct (classes_disjoint x) as (_ & [Hh _]%(fun f => f Hx) & _).
      by rewrite (class_plus_not _ _ _ Hh), (class_plus_all _ _ Hne H).
    - pose proof H as Hx. simpl in Hx. apply andb_true_iff in Hx as [Hx _].
      destruct (classes_disjoint x) as (_ & _ & [Hh Hk]%(fun f => f Hx)).
      by rewrite (class_plus_not _ _ _ Hh), (class_plus_not _ _ _ Hk),
        (class_plus_all _ _ Hne H). }
  unfold AppMore.estimate_tokens. cbv zeta.
  destruct text as [|x s]; [done|].
  by rewrite (findall_cons _ japanese_run_consumes), Hrun.
Qed.

Lemma estimate_tokens_one_script_witness :
  U "あいうえおかきくけこ" ≠ []
  ∧ (forallb AppMore.hiragana (U "あいうえおかきくけこ") = true
     ∨ forallb AppMore.katakana (U "あいうえおかきくけこ") = true
     ∨ forallb AppMore.kanji (U "あいうえおかきくけこ") = true)
  ∧ AppMore.estimate_tokens (U "あいうえおかきくけこ")
      = 1 + (length (U "あいうえおかきくけこ") - 1) / 4.
Proof.
  split; [by_computation|]. split; [left; by_computation|].
  apply (estimate_tokens_one_script (U "あいうえおかきくけこ"));
    [by_computation | left; by_computation].
Defined.

End EstimateTokens.


(** ** [create_backup] *)

Section Backup.

Context {D : Type}.
Implicit Types (l es : list (str * D)).

Lemma last_items_short {A : Type} (n : nat) (l : list A) :
  length l ≤ n → last_items n l = l.
Proof.
  intros H. unfold last_items. by replace (length l - n) with 0 by lia.
Qed.

Lemma last_items_length {A : Type} (n : nat) (l : list A) :
  length (last_items n l) = min (length l) n.
Proof. unfold last_items. rewrite length_drop. lia. Qed.

Lemma last_items_app {A : Type} (n : nat) (a b : list A) :
  last_items n (last_items n a ++ b) = last_items n (a ++ b).
Proof.
  unfold last_items. rewrite length_app, length_drop, length_app.
  destruct (decide (length a ≤ n)) as [H|H].
  - replace (length a - n) with 0 by lia. by rewrite drop_0, Nat.sub_0_r.
  - rewrite <- (drop_app_le a b) by lia. rewrite drop_drop. f_equal. lia.
Qed.

Lemma create_backup_last_items (now : str) (data : D) l :
  AppMore.create_backup now data l = last_items 10 (l ++ [(now, data)]).
Proof.
  unfold AppMore.create_backup. cbv zeta.
  destruct (10 <? length (l ++ [(now, data)])) eqn:E; [done|].
  apply Nat.ltb_ge in E. by rewrite last_items_short.
Qed.

(** After a backup the store holds at most 10 entries, one more than
    before when there is room, and the new entry is the last one. *)
Theorem create_backup_bounded (now : str) (data : D) l :
  length (AppMore.create_backup now data l) = min (S (length l)) 10
  ∧ List.last (AppMore.create_backup now data l) (now, data) = (now, data)
  ∧ ∃ dropped, l ++ [(now, data)]
               = dropped ++ AppMore.create_backup now data l.
Proof.
  rewrite create_backup_last_items. split; [|split].
  - rewrite last_items_length, length_app. simpl. lia.
  - unfold last_items. rewrite length_app. simpl.
    destruct (decide (length l + 1 - 10 ≤ length l)) as [H|H]; [|lia].
    rewrite drop_app_le by done. apply last_last.
  - exists (take (length (l ++ [(now, data)]) - 10) (l ++ [(now, data)])).
    unfold last_items. by rewrite take_drop.
Qed.

(** A store of at most 10 entries that receives any number of backups
    holds the 10 most recent of all entries, in their order. *)
Theorem create_backup_keeps_most_recent l es :
  length l ≤ 10 →
  fold_left (fun st e => AppMore.create_backup e.1 e.2 st) es l
  = last_items 10 (l ++ es).
Proof.
  revert l; induction es as [|[now data] es IH]; intros l Hl.
  - rewrite app_nil_r. by rewrite last_items_short.
  - cbn [fold_left]. rewrite IH.
    + rewrite create_backup_last_items, last_items_app.
      by rewrite <- app_assoc.
    + rewrite create_backup_last_items, last_items_length. lia.
Qed.

End Backup.

Lemma create_backup_keeps_most_recent_witness :
  length ([(U "t0", 0)] : list (list N * nat)) ≤ 10
  ∧ fold_left (fun st e => AppMore.create_backup e.1 e.2 st)
      [(U "t1", 1); (U "t2", 2)] [(U "t0", 0)]
    = last_items 10 ([(U "t0", 0)] ++ [(U "t1", 1); (U "t2", 2)]).
Proof.
  split; [simpl; lia|].
  apply (create_backup_keeps_most_recent [(U "t0", 0)]
           [(U "t1", 1); (U "t2", 2)]).
  simpl; lia.
Defined.

(** ** [check_ng_expressions] *)

Section NgExpressions.

Lemma find_startswith (sub s : str) (i : nat) :
  find sub s = Some i → startswith sub (drop i s) = true.
Proof.
  revert i; induction s as [|c s IH]; intros i; simpl.
  - destruct (startswith sub []) eqn:E; [|discriminate]. by intros [= <-].
  - destruct (startswith sub (c :: s)) eqn:E; [by intros [= <-]|].
    destruct (find sub s) as [j|]; simpl; [|discriminate].
    intros [= <-]. by apply IH.
Qed.

Lemma occurrences_fuel_sound (n : nat) (sub s : str) (offset pos : nat) :
  pos ∈ occurrences_fuel n sub s offset →
  ∃ i, pos = offset + i ∧ startswith sub (drop i s) = true.
Proof.
  revert s offset; induction n as [|n IH]; intros s offset; simpl.
  { intros H. by apply elem_of_nil in H. }
  destruct (find sub s) as [i|] eqn:F; [|intros H; by apply elem_of_nil in H].
  intros [->|Hin]%elem_of_cons.
  - exists i. split; [done|]. by apply find_startswith.
  - apply IH in Hin as (j & -> & Hj). exists (i + length sub + j).
    split; [lia|]. by rewrite drop_drop in Hj.
Qed.

Lemma occurrences_first (sub s : str) (i : nat) :
  find sub s = Some i → i ∈ occurrences sub s.
Proof. intros F. unfold occurrences. simpl. rewrite F. left. Qed.

Lemma insert_by_perm {A : Type} (key : A → nat) (x : A) (l : list A) :
  insert_by key x l ≡ₚ x :: l.
Proof.
  induction l as [|y l IH]; simpl; [done|].
  destruct (key x <=? key y); [done|]. rewrite IH. apply Permutation_swap.
Qed.

Lemma sorted_by_perm {A : Type} (key : A → nat) (l : list A) :
  sorted_by key l ≡ₚ l.
Proof.
  induction l as [|x l IH]; simpl; [done|].
  by rewrite insert_by_perm, IH.
Qed.

Lemma insert_by_sorted {A : Type} (key : A → nat) (x : A) (l : list A) :
  StronglySorted (fun a b => key a ≤ key b) l →
  StronglySorted (fun a b => key a ≤ key b) (insert_by key x l).
Proof.
  induction 1 as [|y l Hs IH Hy]; simpl.
  - repeat constructor.
  - destruct (key x <=? key y) eqn:E.
    + apply Nat.leb_le in E. constructor; [by constructor|].
      constructor; [done|]. eapply Forall_impl; [exact Hy|].
      intros z Hz. simpl in Hz. lia.
    + apply Nat.leb_gt in E. constructor; [done|].
      rewrite insert_by_perm. constructor; [lia|done].
Qed.

Lemma sorted_by_sorted {A : Type} (key : A → nat) (l : list A) :
  StronglySorted (fun a b => key a ≤ key b) (sorted_by key l).
Proof.
  induction l as [|x l IH]; simpl; [constructor|]. by apply insert_by_sorted.
Qed.

Lemma found_ng_elem (content ng : str) (pos : nat) :
  (ng, pos) ∈ ReviewerMore.found_ng content ↔
  ng ∈ Config.NG_EXPRESSIONS ∧ pos ∈ occurrences ng content.
Proof.
  unfold ReviewerMore.found_ng. rewrite list_elem_of_In, in_flat_map. split.
  - intros (ng' & Hng & Hin). apply in_map_iff in Hin as (p & [= <- <-] & Hp).
    by rewrite !list_elem_of_In.
  - intros [Hng Hp]. exists ng. rewrite <- !list_elem_of_In. split; [done|].
    rewrite list_elem_of_In. apply in_map. by apply list_elem_of_In.
Qed.

(** Every reported pair is an expression of the list at a position where
    it stands in the content. *)
Theorem check_ng_expressions_sound (content ng : str) (pos : nat) :
  (ng, pos) ∈ ReviewerMore.check_ng_expressions content →
  ng ∈ Config.NG_EXPRESSIONS
  ∧ take (length ng) (drop pos content) = ng.
Proof.
  unfold ReviewerMore.check_ng_expressions. rewrite sorted_by_perm.
  intros [Hng Hp]%found_ng_elem. split; [done|].
  apply occurrences_fuel_sound in Hp as (i & -> & Hs).
  apply startswith_spec in Hs. simpl. rewrite Hs. apply take_app_length.
Qed.

Lemma check_ng_expressions_sound_witness :
  (U "のだ。", 3) ∈ ReviewerMore.check_ng_expressions (U "そうなのだ。")
  ∧ U "のだ。" ∈ Config.NG_EXPRESSIONS
  ∧ take (length (U "のだ。")) (drop 3 (U "そうなのだ。")) = U "のだ。".
Proof.
  assert ((U "のだ。", 3) ∈ ReviewerMore.check_ng_expressions (U "そうなのだ。"))
    as H by by_computation.
  split; [exact H|].
  exact (check_ng_expressions_sound (U "そうなのだ。") (U "のだ。") 3 H).
Defined.

(** The report is in the order of the positions. *)
Theorem check_ng_expressions_sorted (content : str) :
  StronglySorted (fun a b => a.2 ≤ b.2)
    (ReviewerMore.check_ng_expressions content).
Proof. apply sorted_by_sorted. Qed.

(** An expression of the list that occurs in the content is reported, at
    its first occurrence. *)
Theorem check_ng_expressions_complete (content ng : str) (i : nat) :
  ng ∈ Config.NG_EXPRESSIONS →
  find ng content = Some i →
  (ng, i) ∈ ReviewerMore.check_ng_expressions content.
Proof.
  intros Hng F. unfold ReviewerMore.check_ng_expressions.
  rewrite sorted_by_perm. apply found_ng_elem. split; [done|].
  by apply occurrences_first.
Qed.

Lemma check_ng_expressions_complete_witness :
  U "のだ。" ∈ Config.NG_EXPRESSIONS
  ∧ find (U "のだ。") (U "そうなのだ。") = Some 3
  ∧ (U "のだ。", 3) ∈ ReviewerMore.check_ng_expressions (U "そうなのだ。").
Proof.
  split; [by_computation|]. split; [by_computation|].
  apply (check_ng_expressions_complete (U "そうなのだ。") (U "のだ。") 3);
    by_computation.
Defined.

End NgExpressions.

(** ** [validate_scenario_length] *)

(** An optimal length is a valid length, and a valid length is what the
    input column of app.py recommends. *)
Theorem optimal_length_is_valid (content : str) :
  ReviewerMore.is_optimal (ReviewerMore.validate_scenario_length content) = true →
  ReviewerMore.is_valid (ReviewerMore.validate_scenario_length content) = true
  ∧ AppMore.length_recommended content = true.
Proof.
  unfold ReviewerMore.validate_scenario_length, AppMore.length_recommended.
  cbn [ReviewerMore.is_optimal ReviewerMore.is_valid].
  unfold Config.SCENARIO_MIN_LENGTH, Config.SCENARIO_MAX_LENGTH,
    Config.SCENARIO_OPTIMAL_LENGTH.
  intros H%Z.leb_le. rewrite !andb_true_iff, !Z.leb_le. lia.
Qed.

Lemma optimal_length_is_valid_witness :
  let content : str := replicate (N.to_nat 6000) 12354%N in
  ReviewerMore.is_optimal (ReviewerMore.validate_scenario_length content) = true
  ∧ ReviewerMore.is_valid (ReviewerMore.validate_scenario_length content) = true
  ∧ AppMore.length_recommended content = true.
Proof.
  intros content. split; [vm_compute; reflexivity|].
  apply (optimal_length_is_valid content). vm_compute; reflexivity.
Defined.


(** ** Trimming *)

Section Strip.

Implicit Types (s t a b : str).

Lemma lstrip_blank a s : blank a → lstrip (a ++ s) = lstrip s.
Proof.
  induction a as [|x a IH]; intros H; [done|]. simpl.
  rewrite (H x) by left. apply IH. intros c Hc. apply H. by right.
Qed.

Lemma lstrip_head s c t : lstrip s = c :: t → is_space c = false.
Proof.
  induction s as [|x s IH]; simpl; [done|].
  destruct (is_space x) eqn:E; [done|]. by intros [= <- _].
Qed.

Lemma lstrip_fix s c t : s = c :: t → is_space c = false → lstrip s = s.
Proof. intros -> H. simpl. by rewrite H. Qed.

Lemma lstrip_idem s : lstrip (lstrip s) = lstrip s.
Proof.
  destruct (lstrip s) as [|c t] eqn:E; [done|].
  eapply lstrip_fix; [done|]. by eapply lstrip_head.
Qed.

Lemma lstrip_app s b : lstrip s ≠ [] → lstrip (s ++ b) = lstrip s ++ b.
Proof.
  induction s as [|x s IH]; simpl; [done|].
  destruct (is_space x); [done|]. done.
Qed.

(** [lstrip] keeps a suffix and [rstrip] a prefix. *)
Lemma lstrip_suffix s : ∃ a, s = a ++ lstrip s ∧ blank a.
Proof.
  induction s as [|x s (a & E & Ha)]; simpl.
  - exists []. split; [done|]. intros c Hc. by apply elem_of_nil in Hc.
  - destruct (is_space x) eqn:Ex.
    + exists (x :: a). split; [by rewrite E at 1|].
      intros c [->|Hc]%elem_of_cons; [done|by apply Ha].
    + exists []. split; [done|]. intros c Hc. by apply elem_of_nil in Hc.
Qed.

Lemma rstrip_prefix s : ∃ b, s = rstrip s ++ b ∧ blank b.
Proof.
  unfold rstrip. destruct (lstrip_suffix (rev s)) as (a & E & Ha).
  exists (rev a). split.
  - apply (f_equal (@rev N)) in E. rewrite rev_involutive in E.
    by rewrite rev_app_distr in E.
  - intros c Hc. apply Ha. rewrite list_elem_of_In in *. by apply in_rev.
Qed.

Lemma rstrip_blank s b : blank b → rstrip (s ++ b) = rstrip s.
Proof.
  intros H. unfold rstrip. rewrite rev_app_distr. rewrite lstrip_blank; [done|].
  intros c Hc. apply H. rewrite list_elem_of_In in *. by apply in_rev.
Qed.

Lemma rstrip_idem s : rstrip (rstrip s) = rstrip s.
Proof. unfold rstrip. by rewrite rev_involutive, lstrip_idem. Qed.

Lemma lstrip_rstrip s : lstrip (rstrip (lstrip s)) = rstrip (lstrip s).
Proof.
  destruct (rstrip_prefix (lstrip s)) as (b & E & _).
  destruct (rstrip (lstrip s)) as [|c t] eqn:R; [done|].
  eapply lstrip_fix; [done|]. apply (lstrip_head s c (t ++ b)). exact E.
Qed.

(** Trimming twice is trimming once. *)
Lemma strip_idem s : strip (strip s) = strip s.
Proof. unfold strip. by rewrite lstrip_rstrip, rstrip_idem. Qed.

(** Blank text around a text does not change what trimming gives. *)
Lemma strip_pad a s b : blank a → blank b → strip (a ++ s ++ b) = strip s.
Proof.
  intros Ha Hb. unfold strip. rewrite lstrip_blank by done.
  destruct (lstrip s) as [|c t] eqn:E.
  - pose proof (proj1 (lstrip_nil s) E : blank s) as Hs.
    rewrite lstrip_blank by done.
    by rewrite (proj2 (lstrip_nil b) Hb).
  - rewrite lstrip_app by (by rewrite E). rewrite E. by apply rstrip_blank.
Qed.

Lemma last_rev s d : last s = Some d ↔ ∃ u, rev s = d :: u.
Proof.
  rewrite last_Some. split.
  - intros [l' ->]. rewrite rev_app_distr. by eexists.
  - intros [u E]. exists (rev u). apply (f_equal (@rev N)) in E.
    by rewrite rev_involutive in E.
Qed.

(** A text that starts and ends with a character that is not white space
    is its own trimming. *)
Lemma strip_fix s c d :
  head s = Some c → last s = Some d →
  is_space c = false → is_space d = false → strip s = s.
Proof.
  intros [t ->]%head_Some [u E]%last_rev Hc Hd. unfold strip.
  rewrite (lstrip_fix (c :: t) c t) by done.
  unfold rstrip. rewrite (lstrip_fix _ d u E Hd). apply rev_involutive.
Qed.

(** What trimming gives, when it is not empty, starts and ends with a
    character that is not white space. *)
Lemma strip_ends s :
  strip s ≠ [] →
  ∃ c d, head (strip s) = Some c ∧ last (strip s) = Some d
         ∧ is_space c = false ∧ is_space d = false.
Proof.
  intros Hne.
  assert (∃ c, head (strip s) = Some c ∧ is_space c = false) as (c & Hc & Hsc).
  { pose proof (lstrip_rstrip s) as E. fold (strip s) in E.
    destruct (strip s) as [|c t] eqn:S; [done|]. exists c. split; [done|].
    by eapply lstrip_head. }
  exists c.
  assert (∃ d, last (strip s) = Some d ∧ is_space d = false) as (d & Hd & Hsd).
  { pose proof (rstrip_idem (lstrip s)) as E. fold (strip s) in E.
    unfold rstrip in E. apply (f_equal (@rev N)) in E.
    rewrite rev_involutive in E.
    destruct (rev (strip s)) as [|d u] eqn:R.
    { apply (f_equal (@rev N)) in R. rewrite rev_involutive in R. done. }
    exists d. split; [|by eapply lstrip_head].
    apply last_rev. by exists u. }
  by exists d.
Qed.

End Strip.


(** ** The transcript of a video *)

Section TranscriptText.

Implicit Types (s p sep : str) (parts : list str).

Lemma collapse_head s : head (collapse_newlines s) = head s.
Proof.
  induction s as [|c s IH]; [done|]. simpl.
  destruct (N.eqb_spec c NL) as [->|]; [|done].
  destruct s as [|d s]; [done|].
  destruct (N.eqb_spec d NL) as [->|]; [|done]. by rewrite IH.
Qed.

Lemma collapse_nil s : collapse_newlines s = [] → s = [].
Proof.
  intros H. pose proof (collapse_head s) as E. rewrite H in E.
  by destruct s.
Qed.

Lemma collapse_last s : last (collapse_newlines s) = last s.
Proof.
  induction s as [|c s IH]; [done|].
  destruct s as [|d s].
  { simpl. by destruct (N.eqb_spec c NL) as [->|]. }
  assert (last (collapse_newlines (d :: s)) = last (d :: s)
          ∧ collapse_newlines (d :: s) ≠ []) as [E Hne].
  { split; [done|]. intros H. by apply collapse_nil in H. }
  rewrite last_cons_cons.
  change (collapse_newlines (c :: d :: s))
    with (if (c =? NL)%N then
            if (d =? NL)%N then collapse_newlines (d :: s)
            else NL :: collapse_newlines (d :: s)
          else c :: collapse_newlines (d :: s)).
  destruct (c =? NL)%N; [destruct (d =? NL)%N|]; [done| |];
    rewrite last_cons, E;
    (destruct (last (d :: s)) eqn:L; [done | by apply last_None in L]).
Qed.

(** After [re.sub(r'\n+', '\n', s)] no newline follows a newline. *)
Lemma collapse_no_double s : find [NL; NL] (collapse_newlines s) = None.
Proof.
  induction s as [|c s IH]; [done|].
  destruct s as [|d s].
  { simpl. destruct (N.eqb_spec c NL) as [->|]; [reflexivity|].
    simpl. by rewrite andb_false_r. }
  pose proof (collapse_head (d :: s)) as Hh.
  change (collapse_newlines (c :: d :: s))
    with (if (c =? NL)%N then
            if (d =? NL)%N then collapse_newlines (d :: s)
            else NL :: collapse_newlines (d :: s)
          else c :: collapse_newlines (d :: s)).
  destruct (N.eqb_spec c NL) as [->|Hc].
  - destruct (N.eqb_spec d NL) as [->|Hd]; [done|].
    destruct (collapse_newlines (d :: s)) as [|e u] eqn:E; [done|].
    injection Hh as ->.
    change (find [NL; NL] (NL :: d :: u))
      with (if (NL =? NL)%N && ((NL =? d)%N && true) then Some 0
            else option_map S (find [NL; NL] (d :: u))).
    destruct (N.eqb_spec NL d) as [<-|_]; [done|]. by rewrite IH.
  - change (find [NL; NL] (c :: collapse_newlines (d :: s)))
      with (if startswith [NL; NL] (c :: collapse_newlines (d :: s)) then Some 0
            else option_map S (find [NL; NL] (collapse_newlines (d :: s)))).
    rewrite IH. cbn [startswith].
    destruct (N.eqb_spec NL c) as [E|_]; [by symmetry in E|done].
Qed.

Lemma join_head sep p parts :
  p ≠ [] → head (join sep (p :: parts)) = head p.
Proof. intros Hp. destruct parts; [done|]. simpl. by destruct p. Qed.

Lemma join_last sep parts p :
  last parts = Some p → p ≠ [] → last (join sep parts) = last p.
Proof.
  induction parts as [|q parts IH]; [done|]. intros Hl Hp.
  destruct parts as [|q' parts]; [by injection Hl as ->|].
  rewrite last_cons_cons in Hl. specialize (IH Hl Hp).
  change (join sep (q :: q' :: parts))
    with (q ++ sep ++ join sep (q' :: parts)).
  rewrite !last_app, IH. destruct (last p) eqn:L; [done|].
  apply last_None in L. done.
Qed.

Lemma text_parts_elem (data : list str) p :
  p ∈ List.filter truthy (map strip data) →
  p ≠ [] ∧ ∃ t, t ∈ data ∧ p = strip t.
Proof.
  rewrite list_elem_of_In, filter_In, in_map_iff.
  intros [(t & <- & Ht) Hp]. split; [by apply truthy_nonempty|].
  exists t. by rewrite list_elem_of_In.
Qed.

Lemma text_parts_nil (data : list str) :
  List.filter truthy (map strip data) = [] ↔ ∀ t, t ∈ data → blank t.
Proof.
  induction data as [|t data IH]; simpl.
  - split; [|done]. intros _ t Ht. by apply elem_of_nil in Ht.
  - destruct (strip t) as [|c u] eqn:E; simpl.
    + rewrite IH. split.
      * intros H t' [->|Ht']%elem_of_cons;
          [exact (proj1 (strip_nil t) E) | by apply H].
      * intros H t' Ht'. apply H. by right.
    + split; [done|]. intros H. specialize (H t ltac:(left)).
      pose proof (proj2 (strip_nil t) H). congruence.
Qed.

(** From fetched entries no text comes out exactly when every entry is
    white space only; this includes the case of no entry at all. *)
Theorem transcript_none_iff_blank (data : list str) :
  Transcript._fetch_and_format_transcript (Some data) = None
  ↔ ∀ t, t ∈ data → blank t.
Proof.
  unfold Transcript._fetch_and_format_transcript. cbv zeta.
  destruct data as [|t data].
  { split; [|done]. intros _ t Ht. by apply elem_of_nil in Ht. }
  rewrite <- text_parts_nil.
  by destruct (List.filter truthy (map strip (t :: data))).
Qed.

(** The text that comes out is not empty, starts and ends with a character
    that is not white space, and has no empty line. *)
Theorem transcript_text_shape (fetched : option (list str)) (r : str) :
  Transcript._fetch_and_format_transcript fetched = Some r →
  r ≠ [] ∧ strip r = r ∧ find [NL; NL] r = None.
Proof.
  unfold Transcript._fetch_and_format_transcript. cbv zeta.
  destruct fetched as [[|t data]|]; [done| |done].
  destruct (List.filter truthy (map strip (t :: data))) as [|p parts] eqn:E;
    [done|].
  intros Hr.
  assert (r = collapse_newlines (join [NL] (p :: parts))) as ->
    by congruence.
  clear Hr.
  assert (∀ q, q ∈ p :: parts → q ≠ [] ∧ ∃ u, q = strip u) as Hparts.
  { intros q Hq. rewrite <- E in Hq.
    apply text_parts_elem in Hq as (Hne & u & _ & ->). eauto. }
  destruct (Hparts p ltac:(left)) as (Hp & u & Hu).
  assert (∃ q, last (p :: parts) = Some q) as [q Hq].
  { destruct (last (p :: parts)) eqn:L; [by eexists|].
    by apply last_None in L. }
  destruct (Hparts q (last_Some_elem_of _ _ Hq)) as (Hqne & v & Hv).
  destruct (strip_ends u ltac:(by rewrite <- Hu)) as (c & _ & Hc & _ & Hsc & _).
  destruct (strip_ends v ltac:(by rewrite <- Hv)) as (_ & d & _ & Hd & _ & Hsd).
  rewrite <- Hu in Hc. rewrite <- Hv in Hd.
  assert (head (collapse_newlines (join [NL] (p :: parts))) = Some c) as Hh
    by (by rewrite collapse_head, join_head).
  assert (last (collapse_newlines (join [NL] (p :: parts))) = Some d) as Hl
    by (by rewrite collapse_last, (join_last _ _ q)).
  split; [|split].
  - intros H. by rewrite H in Hh.
  - by apply (strip_fix _ c d).
  - apply collapse_no_double.
Qed.

Lemma transcript_text_shape_witness :
  Transcript._fetch_and_format_transcript
    (Some [U " a "; [NL]; U "b" ++ [NL; NL] ++ U "c "])
    = Some (U "a" ++ [NL] ++ U "b" ++ [NL] ++ U "c")
  ∧ U "a" ++ [NL] ++ U "b" ++ [NL] ++ U "c" ≠ []
  ∧ strip (U "a" ++ [NL] ++ U "b" ++ [NL] ++ U "c")
      = U "a" ++ [NL] ++ U "b" ++ [NL] ++ U "c"
  ∧ find [NL; NL] (U "a" ++ [NL] ++ U "b" ++ [NL] ++ U "c") = None.
Proof.
  split; [by_computation|].
  apply (transcript_text_shape
           (Some [U " a "; [NL]; U "b" ++ [NL; NL] ++ U "c "])).
  by_computation.
Defined.

Lemma slice_take (m : Z) (s : str) :
  (0 ≤ m)%Z → (m ≤ Z.of_nat (length s))%Z →
  slice 0 (Some m) s = take (Z.to_nat m) s.
Proof.
  intros H0 Hm. unfold slice, slice_index. cbv zeta.
  change (0 <? 0)%Z with false. cbv iota.
  destruct (m <? 0)%Z eqn:E; [lia|].
  replace (Z.to_nat (Z.min (Z.of_nat (length s)) (Z.max 0 0))) with 0 by lia.
  replace (Z.to_nat (Z.min (Z.of_nat (length s)) (Z.max 0 m)))
    with (Z.to_nat m) by lia.
  by rewrite Nat.sub_0_r, drop_0.
Qed.

(** With a transcript and a limit that is not negative, [get_summary]
    succeeds; its text is the transcript when it fits the limit, and
    otherwise the first [max_length] characters followed by a notice of 10
    characters; the reported length is the length of that text. *)
Theorem get_summary_truncates (transcript : str) (max_length : Z) :
  transcript ≠ [] → (0 ≤ max_length)%Z →
  let r := Transcript.get_summary (Some transcript) max_length in
  Transcript.success r = true
  ∧ Transcript.length r = Some (Z.of_nat (length (Transcript.text r)))
  ∧ take (Z.to_nat max_length) (Transcript.text r)
      = take (Z.to_nat max_length) transcript
  ∧ (if (max_length <? Z.of_nat (length transcript))%Z
     then Z.of_nat (length (Transcript.text r)) = (max_length + 10)%Z
     else Transcript.text r = transcript).
Proof.
  intros Hne Hm. destruct transcript as [|c t]; [done|].
  unfold Transcript.get_summary. cbv zeta.
  destruct (max_length <? Z.of_nat (length (c :: t)))%Z eqn:E;
    cbn [Transcript.success Transcript.length Transcript.text];
    [|done].
  apply Z.ltb_lt in E. rewrite slice_take by lia.
  split; [done|]. split; [done|]. split.
  - rewrite take_app_le by (rewrite length_take; lia).
    rewrite take_take. f_equal. lia.
  - rewrite length_app, length_take.
    change (length (U "..." ++ [NL] ++ U "（以下省略）")) with 10. lia.
Qed.

Lemma get_summary_truncates_witness :
  U "abcdef" ≠ [] ∧ (0 ≤ 3)%Z
  ∧ let r := Transcript.get_summary (Some (U "abcdef")) 3 in
    Transcript.success r = true
    ∧ Transcript.length r = Some (Z.of_nat (length (Transcript.text r)))
    ∧ take (Z.to_nat 3) (Transcript.text r) = take (Z.to_nat 3) (U "abcdef")
    ∧ (if (3 <? Z.of_nat (length (U "abcdef")))%Z
       then Z.of_nat (length (Transcript.text r)) = (3 + 10)%Z
       else Transcript.text r = U "abcdef").
Proof.
  split; [by_computation|]. split; [lia|].
  apply (get_summary_truncates (U "abcdef") 3); [by_computation | lia].
Defined.

End TranscriptText.


(** ** More on the three extractors *)

Section ExtractorsMore.

Lemma record_of_match_trimmed (cat : str) (m : gmap nat str) (r : IssueRecord) :
  record_of_match cat m = Some r → trimmed r.
Proof.
  unfold record_of_match. destruct (m !! 1) as [g1|]; [|done].
  destruct (m !! 2) as [g2|]; [|done]. intros [= <-].
  unfold trimmed. cbn [location issue suggestion].
  rewrite !strip_idem. split; [done|]. split; [done|].
  destruct (m !! 3) as [g3|]; [|done].
  destruct (truthy g3); [apply strip_idem | done].
Qed.

Lemma Forall_snoc_intro {A : Type} (P : A → Prop) (l : list A) (x : A) :
  Forall P l → P x → Forall P (l ++ [x]).
Proof. intros Hl Hx. apply Forall_app. split; [done|]. by constructor. Qed.

Lemma app_step_trimmed (st : str * list IssueRecord) (line : str) :
  Forall trimmed st.2 → Forall trimmed (App.parse_review_line st line).2.
Proof.
  destruct st as [cat rs]. unfold App.parse_review_line. intros H.
  destruct (startswith (U "【") line && endswith (U "】") line); [done|].
  destruct (startswith (U "- ") line && truthy cat); [|done].
  destruct (re_match App.issue_pattern line) as [m|]; [|done].
  destruct (record_of_match cat m) as [r|] eqn:E; [|done].
  apply Forall_snoc_intro; [done|]. by eapply record_of_match_trimmed.
Qed.

Lemma reviewer_step_trimmed (st : str * list IssueRecord * list str)
    (line : str) :
  Forall trimmed st.1.2 →
  Forall trimmed (Reviewer.parse_review_line st line).1.2.
Proof.
  destruct st as [[cat rs] sg]. unfold Reviewer.parse_review_line. intros H.
  destruct (re_match Reviewer.category_pattern line); [done|].
  destruct (re_match Reviewer.issue_pattern line) as [m|]; [|done].
  destruct (truthy cat); [|done].
  destruct (record_of_match cat m) as [r|] eqn:E; [|done].
  apply Forall_snoc_intro; [done|]. by eapply record_of_match_trimmed.
Qed.

Lemma tool_step_trimmed (st : str * list IssueRecord) (line : str) :
  Forall trimmed st.2 → Forall trimmed (Tool.parse_text_line st line).2.
Proof.
  destruct st as [cat rs]. unfold Tool.parse_text_line. intros H.
  destruct (startswith (U "【") line && endswith (U "】") line); [done|].
  destruct (startswith (U "- ") line); [|done].
  destruct (split_max 1 [COLON] (slice 2 None line)) as [|loc [|ias [|]]];
    try done.
  destruct (if contains [ARROW] ias then _ else _) as [iss sug].
  apply Forall_snoc_intro; [done|].
  unfold trimmed. cbn [location issue suggestion]. by rewrite !strip_idem.
Qed.

Lemma fold_Forall {S : Type} (step : S → str → S) (recs : S → list IssueRecord)
    (P : IssueRecord → Prop) (lines : list str) (st : S) :
  (∀ st line, Forall P (recs st) → Forall P (recs (step st line))) →
  Forall P (recs st) → Forall P (recs (fold_left step lines st)).
Proof.
  intros Hstep. revert st; induction lines as [|l lines IH]; intros st H;
    [done|].
  simpl. apply IH. by apply Hstep.
Qed.

(** In the three implementations, location, issue and suggestion of every
    record are trimmed: they neither start nor end with white space. *)
Theorem record_fields_trimmed (s phase : str) (r : IssueRecord) :
  r ∈ App.parse_review_response s
  ∨ r ∈ Reviewer.issues (Reviewer._parse_review_response s phase)
  ∨ r ∈ Tool._parse_text_response s →
  strip (location r) = location r
  ∧ strip (issue r) = issue r
  ∧ strip (suggestion r) = suggestion r.
Proof.
  intros H. change (trimmed r). revert r H. 
  assert (Forall trimmed (App.parse_review_response s)) as Ha.
  { unfold App.parse_review_response.
    apply (fold_Forall App.parse_review_line snd);
      [apply app_step_trimmed | constructor]. }
  assert (Forall trimmed
            (Reviewer.issues (Reviewer._parse_review_response s phase))) as Hr.
  { rewrite reviewer_issues_fold.
    apply (fold_Forall Reviewer.parse_review_line (fun st => st.1.2));
      [apply reviewer_step_trimmed | constructor]. }
  assert (Forall trimmed (Tool._parse_text_response s)) as Ht.
  { unfold Tool._parse_text_response.
    apply (fold_Forall Tool.parse_text_line snd);
      [apply tool_step_trimmed | constructor]. }
  rewrite Forall_forall in Ha, Hr, Ht.
  intros r [H | [H | H]]; auto.
Qed.

Lemma record_fields_trimmed_witness :
  (blank_issue_record ∈ App.parse_review_response blank_issue_sample
   ∨ blank_issue_record
       ∈ Reviewer.issues (Reviewer._parse_review_response blank_issue_sample [])
   ∨ blank_issue_record ∈ Tool._parse_text_response blank_issue_sample)
  ∧ strip (location blank_issue_record) = location blank_issue_record
  ∧ strip (issue blank_issue_record) = issue blank_issue_record
  ∧ strip (suggestion blank_issue_record) = suggestion blank_issue_record.
Proof.
  assert (blank_issue_record ∈ App.parse_review_response blank_issue_sample)
    as Hin by by_computation.
  split; [by left|].
  apply (record_fields_trimmed blank_issue_sample [] blank_issue_record).
  by left.
Defined.

Lemma reviewer_suggestions_fold (s phase : str) :
  Reviewer.suggestions (Reviewer._parse_review_response s phase)
  = (fold_left Reviewer.parse_review_line (split [NL] s) ([], [], [])).2.
Proof.
  unfold Reviewer._parse_review_response.
  by destruct (fold_left Reviewer.parse_review_line (split [NL] s) ([], [], []))
    as [[c i] sg].
Qed.

Lemma reviewer_step_suggestions (st : str * list IssueRecord * list str)
    (line : str) :
  st.2 = List.filter truthy (map suggestion st.1.2) →
  (Reviewer.parse_review_line st line).2
  = List.filter truthy (map suggestion (Reviewer.parse_review_line st line).1.2).
Proof.
  destruct st as [[cat rs] sg]. unfold Reviewer.parse_review_line. simpl.
  intros ->.
  destruct (re_match Reviewer.category_pattern line); [done|].
  destruct (re_match Reviewer.issue_pattern line) as [m|]; [|done].
  destruct (truthy cat); [|done].
  destruct (record_of_match cat m) as [r|]; [|done]. simpl.
  rewrite map_app, List.filter_app. simpl.
  destruct (truthy (suggestion r)); [done|]. by rewrite app_nil_r.
Qed.

(** The list of suggestions of a review result is the list of the
    non-empty suggestions of its issues, in their order. *)
Theorem reviewer_suggestions_of_issues (s phase : str) :
  Reviewer.suggestions (Reviewer._parse_review_response s phase)
  = List.filter truthy
      (map suggestion (Reviewer.issues (Reviewer._parse_review_response s phase))).
Proof.
  rewrite reviewer_suggestions_fold, reviewer_issues_fold.
  generalize (split [NL] s) as lines. intros lines.
  assert (∀ st : str * list IssueRecord * list str,
            st.2 = List.filter truthy (map suggestion st.1.2) →
            (fold_left Reviewer.parse_review_line lines st).2
            = List.filter truthy
                (map suggestion
                   (fold_left Reviewer.parse_review_line lines st).1.2)) as H.
  { induction lines as [|l lines IH]; intros st Hst; [done|].
    simpl. apply IH. by apply reviewer_step_suggestions. }
  by apply H.
Qed.

(** One step of scenario_review_tool.py: one more record exactly for a
    line that is no header, starts with ["- "] and has a ： after it. *)
Lemma tool_step_count (cat : str) (rs : list IssueRecord) (line : str) :
  length (Tool.parse_text_line (cat, rs) line).2
  = length rs + (if tool_issue_line line then 1 else 0).
Proof.
  unfold Tool.parse_text_line, tool_issue_line.
  change (startswith (U "【") line && endswith (U "】") line)
    with (bracketed line).
  destruct (bracketed line); [simpl; lia|].
  destruct (startswith (U "- ") line); [|simpl; lia].
  cbn [negb andb]. rewrite split_max_one. unfold contains.
  destruct (find [COLON] (slice 2 None line)) as [i|]; [|simpl; lia].
  destruct (if match find [ARROW] _ with Some _ => true | None => false end
            then _ else _) as [iss sug].
  simpl. rewrite length_app. simpl. lia.
Qed.

Lemma tool_step_cat (cat : str) (rs rs' : list IssueRecord) (line : str) :
  (Tool.parse_text_line (cat, rs) line).1
  = (Tool.parse_text_line (cat, rs') line).1.
Proof.
  unfold Tool.parse_text_line.
  destruct (startswith (U "【") line && endswith (U "】") line); [done|].
  destruct (startswith (U "- ") line); [|done].
  destruct (split_max 1 [COLON] (slice 2 None line)) as [|loc [|ias [|]]];
    try done.
  by destruct (if contains [ARROW] ias then _ else _) as [iss sug].
Qed.

(** scenario_review_tool.py makes one record for each line that is no
    header, starts with ["- "] and has a ： after these two characters,
    whatever the current category is. *)
Theorem tool_record_count (text : str) :
  length (Tool._parse_text_response text)
  = length (List.filter tool_issue_line (split [NL] text)).
Proof.
  unfold Tool._parse_text_response.
  generalize (split [NL] text) as lines. intros lines.
  assert (∀ cat rs,
            length (fold_left Tool.parse_text_line lines (cat, rs)).2
            = length rs + length (List.filter tool_issue_line lines)) as H.
  { induction lines as [|l lines IH]; intros cat rs; [simpl; lia|].
    cbn [fold_left List.filter].
    destruct (Tool.parse_text_line (cat, rs) l) as [cat' rs'] eqn:E.
    rewrite IH. pose proof (tool_step_count cat rs l) as Hc.
    rewrite E in Hc. simpl in Hc. rewrite Hc.
    destruct (tool_issue_line l); simpl; lia. }
  by rewrite H.
Qed.

(** One step of app.py and of scenario_review_tool.py from the same
    category: the same category after it, and a record in app.py only if
    there is one in scenario_review_tool.py. *)
Lemma app_tool_step (cat : str) (rsa rst : list IssueRecord) (line : str) :
  (App.parse_review_line (cat, rsa) line).1
  = (Tool.parse_text_line (cat, rst) line).1
  ∧ length (App.parse_review_line (cat, rsa) line).2 - length rsa
    ≤ length (Tool.parse_text_line (cat, rst) line).2 - length rst.
Proof.
  rewrite (tool_step_count cat rst line).
  unfold App.parse_review_line, Tool.parse_text_line, tool_issue_line.
  change (startswith (U "【") line && endswith (U "】") line)
    with (bracketed line).
  destruct (bracketed line); [simpl; split; [done|lia]|].
  destruct (startswith (U "- ") line) eqn:SD; cbn [negb andb];
    [|simpl; split; [done|lia]].
  assert ((let '(current_category, issues) := (cat, rst) in
           match split_max 1 [COLON] (slice 2 None line) with
           | [loc; issue_and_suggestion] =>
               let '(iss, sug) :=
                 if contains [ARROW] issue_and_suggestion
                 then match split_max 1 [ARROW] issue_and_suggestion with
                      | [iss; sug] => (iss, sug)
                      | _ => (issue_and_suggestion, [])
                      end
                 else (issue_and_suggestion, []) in
               (current_category,
                issues ++ [ {| category := current_category;
                               location := strip loc;
                               issue := strip iss;
                               suggestion := strip sug |} ])
           | _ => (cat, rst)
           end).1 = cat) as ->.
  { destruct (split_max 1 [COLON] (slice 2 None line)) as [|loc [|ias [|]]];
      try done.
    by destruct (if contains [ARROW] ias then _ else _) as [iss sug]. }
  destruct (truthy cat); [|simpl; split; [done|lia]].
  destruct (re_match App.issue_pattern line) as [m|] eqn:M;
    [|simpl; split; [done|lia]].
  destruct (record_of_match cat m) as [r|]; [|simpl; split; [done|lia]].
  apply issue_match_sound in M as (g1 & g2 & tail & -> & _).
  rewrite slice_body.
  assert (contains [COLON] (g1 ++ COLON :: g2 ++ tail) = true) as ->.
  { apply contains_char, elem_of_app. right. left. }
  simpl. rewrite length_app. simpl. split; [done|lia].
Qed.

(** app.py never returns more records than scenario_review_tool.py: a
    line that gives a record in app.py gives one there too. *)
Theorem app_records_at_most_tool (text : str) :
  length (App.parse_review_response text)
  ≤ length (Tool._parse_text_response text).
Proof.
  unfold App.parse_review_response, Tool._parse_text_response.
  generalize (split [NL] text) as lines. intros lines.
  assert (∀ cat rsa rst,
            length rsa ≤ length rst →
            length (fold_left App.parse_review_line lines (cat, rsa)).2
            ≤ length (fold_left Tool.parse_text_line lines (cat, rst)).2) as H.
  { induction lines as [|l lines IH]; intros cat rsa rst Hle; [done|].
    cbn [fold_left].
    destruct (app_tool_step cat rsa rst l) as [Hc Hl].
    pose proof (tool_step_count cat rst l) as Ht.
    destruct (App.parse_review_line (cat, rsa) l) as [ca ra].
    destruct (Tool.parse_text_line (cat, rst) l) as [ct rt].
    simpl in Hc, Hl, Ht. subst ct. apply IH. lia. }
  by apply H.
Qed.

End ExtractorsMore.


(** ** More on the highlighter *)

Section HighlighterMore.

Lemma highlighted_length (loc : str) : length loc ≤ length (App.highlighted loc).
Proof. unfold App.highlighted. rewrite !length_app. lia. Qed.

Lemma replace_length (old new s : str) :
  length old ≤ length new → length s ≤ length (replace old new s).
Proof.
  intros Hlen. destruct old as [|o old].
  - unfold replace. rewrite length_app.
    assert (length s ≤ length (flat_map (fun c => c :: new) s)); [|lia].
    induction s as [|x s IH]; simpl; [lia|]. rewrite length_app. lia.
  - remember (length s) as n eqn:Hn. revert s Hn.
    induction (lt_wf n) as [n _ IH]; intros s ->.
    rewrite (replace_unfold (o :: old) ltac:(done)).
    destruct (find (o :: old) s) as [i|] eqn:F; [|done].
    pose proof (find_consumes (o :: old) ltac:(done) _ _ F) as Hc.
    pose proof (find_bound _ _ _ F) as Hb.
    specialize (IH _ Hc _ eq_refl).
    rewrite !length_app, length_take. rewrite length_drop in IH. lia.
Qed.

(** Highlighting never makes the text shorter. *)
Theorem highlight_never_shortens (content : str) (reviews : list IssueRecord) :
  length content ≤ length (App.highlight_issues_in_text content reviews).
Proof.
  unfold App.highlight_issues_in_text.
  revert content; induction reviews as [|r reviews IH]; intros content; [done|].
  simpl. etransitivity; [|apply IH].
  unfold App.highlight_issue. cbv zeta.
  destruct (contains (location r) content); [|done].
  apply replace_length, highlighted_length.
Qed.

(** When no location of the records occurs in the content, the content
    comes back as it is. *)
Theorem highlight_absent_locations (content : str) (reviews : list IssueRecord) :
  forallb (fun r => negb (contains (location r) content)) reviews = true →
  App.highlight_issues_in_text content reviews = content.
Proof.
  unfold App.highlight_issues_in_text.
  induction reviews as [|r reviews IH]; [done|]. simpl.
  intros [Hr H]%andb_true_iff. apply negb_true_iff in Hr.
  unfold App.highlight_issue at 2. cbv zeta. rewrite Hr. by apply IH.
Qed.

Lemma highlight_absent_locations_witness :
  forallb (fun r => negb (contains (location r) (U "hello")))
    [blank_issue_record; mkIssue (U "A") (U "x") (U "y") []] = true
  ∧ App.highlight_issues_in_text (U "hello")
      [blank_issue_record; mkIssue (U "A") (U "x") (U "y") []] = U "hello".
Proof.
  split; [by_computation|].
  apply (highlight_absent_locations (U "hello")). by_computation.
Defined.

End HighlighterMore.

(** ** The overall evaluation of a review *)

Section OverallEvaluation.

Lemma slice_from_nat (e : nat) (s : str) : slice (Z.of_nat e) None s = drop e s.
Proof.
  unfold slice, slice_index. cbv zeta.
  destruct (Z.of_nat e <? 0)%Z eqn:E; [apply Z.ltb_lt in E; lia|].
  destruct (decide (e ≤ length s)) as [H|H].
  - replace (Z.to_nat (Z.min (Z.of_nat (length s)) (Z.max 0 (Z.of_nat e))))
      with e by lia.
    apply firstn_all2. rewrite length_drop. lia.
  - replace (Z.to_nat (Z.min (Z.of_nat (length s)) (Z.max 0 (Z.of_nat e))))
      with (length s) by lia.
    rewrite !drop_ge by lia. by rewrite Nat.sub_diag.
Qed.

Lemma overall_evaluation_from (text phase : str) (e : nat) :
  Z.max (Reviewer.find_int (U "全体評価") text)
        (Reviewer.find_int (U "総評") text) = Z.of_nat e →
  Reviewer.overall_evaluation (Reviewer._parse_review_response text phase)
  = strip (List.last (split_max 2 [NL] (drop e text)) []).
Proof.
  intros He. unfold Reviewer._parse_review_response.
  destruct (fold_left Reviewer.parse_review_line (split [NL] text) ([], [], []))
    as [[c i] sg].
  cbn [Reviewer.overall_evaluation]. cbv zeta.
  assert (contains (U "全体評価") text || contains (U "総評") text = true) as ->.
  { unfold Reviewer.find_int, contains in *.
    destruct (find (U "全体評価") text); [done|].
    destruct (find (U "総評") text); [done|]. lia. }
  rewrite He.
  assert ((-1 <? Z.of_nat e)%Z = true) as -> by (apply Z.ltb_lt; lia).
  by rewrite slice_from_nat.
Qed.

Lemma split_max_char (n : nat) (c : char) (pre post : str) :
  c ∉ pre →
  split_max (S n) [c] (pre ++ c :: post) = pre :: split_max n [c] post.
Proof.
  intros H. simpl. rewrite find_char_app by done.
  rewrite take_app_length. f_equal. f_equal.
  replace (pre ++ c :: post) with ((pre ++ [c]) ++ post)
    by (by rewrite <- app_assoc).
  replace (length pre + 1) with (length (pre ++ [c]))
    by (rewrite length_app; simpl; lia).
  apply drop_app_length.
Qed.

(** When the keyword (of the two, the one whose first occurrence comes
    later) is followed by at least two line breaks, the evaluation is the
    text after the second of them: the rest of the line of the keyword and
    the whole next line are left out. *)
Theorem overall_evaluation_skips_two_lines
    (text phase heading first rest : str) (e : nat) :
  Z.max (Reviewer.find_int (U "全体評価") text)
        (Reviewer.find_int (U "総評") text) = Z.of_nat e →
  drop e text = heading ++ NL :: first ++ NL :: rest →
  NL ∉ heading → NL ∉ first →
  Reviewer.overall_evaluation (Reviewer._parse_review_response text phase)
  = strip rest.
Proof.
  intros He Hd Hh Hf. rewrite (overall_evaluation_from _ _ e He), Hd.
  by rewrite !split_max_char.
Qed.

Lemma overall_evaluation_skips_two_lines_witness :
  Z.max (Reviewer.find_int (U "全体評価") evaluation_sample)
        (Reviewer.find_int (U "総評") evaluation_sample) = Z.of_nat 1
  ∧ drop 1 evaluation_sample
      = U "全体評価】" ++ NL :: U "良い作品です。" ++ NL :: U "改善点は二つ。"
  ∧ (NL ∉ U "全体評価】") ∧ (NL ∉ U "良い作品です。")
  ∧ Reviewer.overall_evaluation
      (Reviewer._parse_review_response evaluation_sample [])
    = strip (U "改善点は二つ。").
Proof.
  split; [by_computation|]. split; [by_computation|].
  split; [by_computation|]. split; [by_computation|].
  apply (overall_evaluation_skips_two_lines evaluation_sample []
           (U "全体評価】") (U "良い作品です。") (U "改善点は二つ。") 1);
    by_computation.
Defined.

(** When no line break follows the keyword, the evaluation is the text
    from the keyword on, the keyword included. *)
Theorem overall_evaluation_single_line (text phase : str) (e : nat) :
  Z.max (Reviewer.find_int (U "全体評価") text)
        (Reviewer.find_int (U "総評") text) = Z.of_nat e →
  NL ∉ drop e text →
  Reviewer.overall_evaluation (Reviewer._parse_review_response text phase)
  = strip (drop e text).
Proof.
  intros He Hd. rewrite (overall_evaluation_from _ _ e He).
  cbn [split_max]. by rewrite (proj2 (find_char_None NL _) Hd).
Qed.

Lemma overall_evaluation_single_line_witness :
  Z.max (Reviewer.find_int (U "全体評価") (U "以上。総評：良い"))
        (Reviewer.find_int (U "総評") (U "以上。総評：良い")) = Z.of_nat 3
  ∧ (NL ∉ drop 3 (U "以上。総評：良い"))
  ∧ Reviewer.overall_evaluation
      (Reviewer._parse_review_response (U "以上。総評：良い") [])
    = strip (drop 3 (U "以上。総評：良い")).
Proof.
  split; [by_computation|]. split; [by_computation|].
  apply (overall_evaluation_single_line (U "以上。総評：良い") [] 3);
    by_computation.
Defined.

End OverallEvaluation.


(** ** The rewrite splitter on the format the prompt asks for *)

Section RewriteFormat.

Lemma find_first_intro (sub s : str) (i : nat) :
  startswith sub (drop i s) = true → i ≤ length s →
  (∀ j, j < i → startswith sub (drop j s) = false) →
  find sub s = Some i.
Proof.
  revert i; induction s as [|c s IH]; intros i Hi Hlen Hj.
  - simpl in Hlen. assert (i = 0) as -> by lia. simpl in *. by rewrite Hi.
  - destruct i as [|i]; simpl in *; [by rewrite Hi|].
    pose proof (Hj 0 ltac:(lia)) as H0. simpl in H0. rewrite H0.
    rewrite (IH i); [done | done | lia |].
    intros j Hlt. apply (Hj (S j)). lia.
Qed.

Lemma startswith_app_char (sub u t : str) (c : char) :
  c ∉ sub → startswith sub (u ++ c :: t) = startswith sub u.
Proof.
  revert u; induction sub as [|y sub IH]; intros u H; [done|].
  apply not_elem_of_cons in H as [Hne H].
  destruct u as [|x u]; simpl.
  - destruct (N.eqb_spec y c); [congruence | done].
  - by rewrite IH.
Qed.

(** A marker whose first character does not occur again in it cannot
    overlap a copy of itself. *)
Lemma startswith_head_unique (c : char) (sub u t : str) :
  c ∉ sub → u ≠ [] →
  startswith (c :: sub) (u ++ c :: t) = startswith (c :: sub) u.
Proof.
  intros H Hu. destruct u as [|x u]; [done|]. simpl.
  by rewrite startswith_app_char.
Qed.

Lemma find_after (c : char) (sub a t : str) :
  c ∉ sub → find (c :: sub) a = None →
  find (c :: sub) (a ++ (c :: sub) ++ t) = Some (length a).
Proof.
  intros H F. apply find_first_intro.
  - rewrite drop_app_length. apply startswith_app.
  - rewrite length_app. lia.
  - intros j Hj. rewrite drop_app_le by lia.
    change ((c :: sub) ++ t) with (c :: (sub ++ t)).
    rewrite startswith_head_unique; [by apply find_None | done |].
    intros E. apply (f_equal length) in E. rewrite length_drop in E.
    simpl in E. lia.
Qed.

Lemma find_changes_after_rewritten (doc : str) :
  find CHANGES_MARK doc = None →
  find CHANGES_MARK (REWRITTEN_MARK ++ doc) = None.
Proof.
  intros F.
  assert (∀ j, startswith CHANGES_MARK (drop j (REWRITTEN_MARK ++ doc)) = false)
    as H.
  { intros j. destruct (decide (j < length REWRITTEN_MARK)) as [Hj|Hj].
    - do 7 (destruct j as [|j]; [vm_compute; reflexivity|]).
      vm_compute in Hj. lia.
    - rewrite drop_app_ge by lia. by apply find_None. }
  destruct (find CHANGES_MARK (REWRITTEN_MARK ++ doc)) as [i|] eqn:E; [|done].
  apply find_startswith in E. by rewrite H in E.
Qed.

(** A response in the format the rewrite prompt asks for is taken apart
    into its two texts, each trimmed: the rewritten marker, a document
    without markers, the changes marker, and changes without a changes
    marker.  The inline split of app.py gives the same pair. *)
Theorem rewrite_round_trip (doc chg : str) :
  contains REWRITTEN_MARK doc = false →
  contains CHANGES_MARK doc = false →
  contains CHANGES_MARK chg = false →
  Reviewer._parse_rewrite_response (REWRITTEN_MARK ++ doc ++ CHANGES_MARK ++ chg)
    = (strip doc, strip chg)
  ∧ App.rewrite_parts (REWRITTEN_MARK ++ doc ++ CHANGES_MARK ++ chg)
    = Some (strip doc, strip chg).
Proof.
  intros H1 H2 H3.
  apply contains_false in H1. apply contains_false in H2.
  apply contains_false in H3.
  set (s := REWRITTEN_MARK ++ doc ++ CHANGES_MARK ++ chg).
  assert (find CHANGES_MARK s = Some (length (REWRITTEN_MARK ++ doc))) as F.
  { subst s. rewrite (app_assoc REWRITTEN_MARK).
    assert (∃ c sub, CHANGES_MARK = c :: sub ∧ c ∉ sub) as (c & sub & E & Hc).
    { eexists _, _. split; [vm_compute; reflexivity | by_computation]. }
    rewrite E. apply find_after; [done|]. rewrite <- E.
    by apply find_changes_after_rewritten. }
  assert (contains REWRITTEN_MARK s = true) as C.
  { apply contains_true. exists 0. apply find_first_intro.
    - apply startswith_app.
    - lia.
    - intros j Hj. lia. }
  pose proof (rewrite_split_at s _ C F) as R. cbv zeta in R.
  assert (take (length (REWRITTEN_MARK ++ doc)) s = REWRITTEN_MARK ++ doc) as Et.
  { subst s. rewrite (app_assoc REWRITTEN_MARK). apply take_app_length. }
  assert (drop (length (REWRITTEN_MARK ++ doc) + length CHANGES_MARK) s = chg)
    as Ed.
  { subst s. rewrite (app_assoc REWRITTEN_MARK), (app_assoc _ CHANGES_MARK).
    rewrite <- length_app. apply drop_app_length. }
  rewrite Et, Ed in R.
  assert (text_before_first CHANGES_MARK chg = chg) as Eb
    by (unfold text_before_first; by rewrite H3).
  assert (replace REWRITTEN_MARK [] (REWRITTEN_MARK ++ doc) = doc) as Er.
  { rewrite (replace_unfold _ REWRITTEN_MARK_nonempty).
    assert (find REWRITTEN_MARK (REWRITTEN_MARK ++ doc) = Some 0) as ->.
    { apply find_first_intro; [apply startswith_app | lia | intros; lia]. }
    rewrite take_0, Nat.add_0_l, drop_app_length, !app_nil_l.
    rewrite (replace_unfold _ REWRITTEN_MARK_nonempty). by rewrite H1. }
  by rewrite Eb, Er in R.
Qed.

Lemma rewrite_round_trip_witness :
  let doc := NL :: U "私は夫と決着をつけた。" ++ [NL; NL] in
  let chg := NL :: U "- 冒頭文を追加" ++ [NL] in
  contains REWRITTEN_MARK doc = false
  ∧ contains CHANGES_MARK doc = false
  ∧ contains CHANGES_MARK chg = false
  ∧ Reviewer._parse_rewrite_response
      (REWRITTEN_MARK ++ doc ++ CHANGES_MARK ++ chg)
    = (strip doc, strip chg)
  ∧ App.rewrite_parts (REWRITTEN_MARK ++ doc ++ CHANGES_MARK ++ chg)
    = Some (strip doc, strip chg).
Proof.
  intros doc chg.
  split; [by_computation|]. split; [by_computation|]. split; [by_computation|].
  apply (rewrite_round_trip doc chg); by_computation.
Defined.

(** Whatever the response, neither of the two texts the splitter returns
    starts or ends with white space. *)
Theorem rewrite_results_trimmed (s : str) :
  strip (fst (Reviewer._parse_rewrite_response s))
    = fst (Reviewer._parse_rewrite_response s)
  ∧ strip (snd (Reviewer._parse_rewrite_response s))
    = snd (Reviewer._parse_rewrite_response s).
Proof.
  unfold Reviewer._parse_rewrite_response.
  destruct (contains (U "【リライト後】") s && contains (U "【変更点】") s);
    cbv zeta; cbn [fst snd].
  - split; [apply strip_idem|].
    destruct (1 <? length (split (U "【変更点】") s));
      [apply strip_idem | reflexivity].
  - split; [apply strip_idem | vm_compute; reflexivity].
Qed.

End RewriteFormat.


(** ** The summary of the issues in the rewrite prompt *)

Section Summaries.

Lemma filter_none {A} (P : A → Prop) `{∀ x, Decision (P x)} (l : list A) :
  (∀ x, x ∈ l → ¬ P x) → filter P l = [].
Proof.
  induction l as [|x l IH]; intros Hl; [done|].
  rewrite filter_cons_False by (apply Hl; left).
  apply IH. intros y Hy. apply Hl. by right.
Qed.

Lemma first_occurrences_elem (x : str) (l : list str) :
  x ∈ first_occurrences l ↔ x ∈ l.
Proof.
  induction l as [|y l IH]; simpl; [done|].
  rewrite !elem_of_cons, list_elem_of_filter, IH.
  destruct (decide (x = y)); naive_solver.
Qed.

Lemma first_occurrences_NoDup (l : list str) : NoDup (first_occurrences l).
Proof.
  induction l as [|y l IH]; simpl; [constructor|].
  constructor; [|by apply NoDup_filter].
  rewrite list_elem_of_filter. naive_solver.
Qed.

Lemma first_occurrences_snoc (l : list str) (x : str) :
  first_occurrences (l ++ [x])
  = if decide (x ∈ l) then first_occurrences l else first_occurrences l ++ [x].
Proof.
  induction l as [|y l IH].
  - done.
  - cbn [app first_occurrences].
    rewrite IH. destruct (decide (x ∈ l)) as [Hin|Hin].
    + rewrite decide_True; [done | by right].
    + rewrite filter_app. destruct (decide (x = y)) as [->|Hne].
      * rewrite decide_True by left.
        rewrite (filter_cons_False _ y) by naive_solver.
        by rewrite filter_nil, app_nil_r.
      * rewrite decide_False by (rewrite elem_of_cons; naive_solver).
        rewrite (filter_cons_True _ x) by done. by rewrite filter_nil.
Qed.

Lemma dict_append_map (k v : str) (G : str → list str) (keys : list str) :
  NoDup keys →
  Prompts.dict_append k v (map (fun k' => (k', G k')) keys)
  = if decide (k ∈ keys)
    then map (fun k' => (k', if decide (k' = k) then G k' ++ [v] else G k')) keys
    else map (fun k' => (k', G k')) keys ++ [(k, [v])].
Proof.
  induction keys as [|k' keys IH]; intros Hnd.
  - done.
  - apply NoDup_cons in Hnd as [Hk' Hnd]. cbn [map Prompts.dict_append].
    destruct (decide (k = k')) as [->|Hne].
    + rewrite decide_True by left. rewrite decide_True by done.
      f_equal. apply map_ext_in. intros a Ha%list_elem_of_In.
      rewrite decide_False; [done | congruence].
    + rewrite (IH Hnd). destruct (decide (k ∈ keys)) as [Hin|Hin].
      * rewrite decide_True by (by right).
        rewrite (decide_False (P := k' = k)) by done. done.
      * rewrite decide_False by (rewrite elem_of_cons; naive_solver). done.
Qed.

(** The dict of the summary: one entry for each category, in the order of
    first occurrence, with the lines of the records of that category in
    their order. *)
Lemma summary_by_category_spec (issues : list IssueRecord) :
  Prompts.summary_by_category issues
  = map (fun k => (k, map Prompts.issue_line
                        (filter (fun r => category r = k) issues)))
      (first_occurrences (map category issues)).
Proof.
  induction issues as [|r issues IH] using rev_ind; [done|].
  unfold Prompts.summary_by_category in *.
  rewrite fold_left_app. simpl. rewrite IH, dict_get_category.
  rewrite (dict_append_map _ _
             (fun k => map Prompts.issue_line
                         (filter (fun r => category r = k) issues)))
    by apply first_occurrences_NoDup.
  rewrite map_app. simpl. rewrite first_occurrences_snoc.
  destruct (decide (category r ∈ map category issues)) as [Hin|Hin].
  - rewrite decide_True by (by apply first_occurrences_elem).
    apply map_ext. intros k. f_equal. rewrite filter_app, map_app.
    destruct (decide (k = category r)) as [->|Hne].
    + by rewrite filter_cons_True, filter_nil.
    + rewrite filter_cons_False by congruence.
      by rewrite filter_nil, app_nil_r.
  - rewrite decide_False by (by rewrite first_occurrences_elem).
    rewrite map_app. simpl. f_equal.
    + apply map_ext_in. intros k Hk%list_elem_of_In.
      apply (proj1 (first_occurrences_elem _ _)) in Hk.
      f_equal. rewrite filter_app, map_app.
      assert (category r ≠ k) as Hne by (intros E; apply Hin; by rewrite E).
      rewrite filter_cons_False by done.
      by rewrite filter_nil, app_nil_r.
    + do 2 f_equal. rewrite filter_app, map_app.
      rewrite filter_cons_True, filter_nil by done.
      assert (filter (fun r0 => category r0 = category r) issues = []) as ->;
        [|done].
      apply filter_none. intros r0 H0 E. apply Hin.
      rewrite <- E. apply list_elem_of_fmap. by exists r0.
Qed.

(** For a non-empty list of records, the summary of the rewrite prompt is
    made of one block for each category, in the order in which the
    categories first occur: the bracketed category, one line
    [- location: issue] for each record of the category, in their order,
    and an empty line; the lines are joined by line breaks. *)
Theorem summarize_issues_blocks (issues : list IssueRecord) :
  issues ≠ [] →
  Prompts._summarize_issues issues
  = join [NL]
      (flat_map (category_block issues)
         (first_occurrences (map category issues))).
Proof.
  intros Hne. destruct issues as [|r issues]; [done|].
  unfold Prompts._summarize_issues, Prompts.summary_text.
  rewrite summary_by_category_spec. f_equal.
  induction (first_occurrences (map category (r :: issues))) as [|k ks IH];
    [done|].
  rewrite map_cons. cbn [flat_map]. by rewrite IH.
Qed.

Lemma summarize_issues_blocks_witness :
  summary_sample ≠ []
  ∧ Prompts._summarize_issues summary_sample
    = join [NL]
        (flat_map (category_block summary_sample)
           (first_occurrences (map category summary_sample))).
Proof.
  split; [discriminate|].
  apply (summarize_issues_blocks summary_sample). discriminate.
Defined.

Lemma count_by_lookup (key : IssueRecord → str) (l : list IssueRecord)
    (d : gmap str nat) (k : str) :
  count_by key l d !! k
  = match length (filter (fun r => key r = k) l) with
    | 0 => d !! k
    | S n => Some (default 0 (d !! k) + S n)
    end.
Proof.
  unfold count_by.
  revert d; induction l as [|x l IH]; intros d; [done|].
  cbn [fold_left]. rewrite IH. destruct (decide (key x = k)) as [E|E].
  - rewrite filter_cons_True by done. rewrite E, lookup_insert_eq.
    cbn [length default].
    destruct (length (filter (fun r => key r = k) l)); [done|].
    f_equal. simpl. lia.
  - rewrite filter_cons_False by done. by rewrite lookup_insert_ne.
Qed.

Lemma extract_issues_summary_count_by (rr : Reviewer.ReviewResult) :
  Reviewer.extract_issues_summary rr = count_by category (Reviewer.issues rr) ∅.
Proof.
  unfold Reviewer.extract_issues_summary, count_by.
  generalize (∅ : gmap str nat).
  induction (Reviewer.issues rr) as [|x l IH]; intros d; simpl; [done|].
  by rewrite dict_get_category, IH.
Qed.

(** The count of a category is the number of records of that category,
    and a category without records has no entry: for
    [extract_issues_summary] of utils/reviewer.py as for the statistics of
    app.py. *)
Theorem category_count_is_number_of_records
    (rr : Reviewer.ReviewResult) (reviews : list IssueRecord) (k : str) :
  Reviewer.extract_issues_summary rr !! k
    = match length (filter (fun r => category r = k) (Reviewer.issues rr)) with
      | 0 => None
      | S n => Some (S n)
      end
  ∧ App.category_counts reviews !! k
    = match length (filter (fun r => category r = k) reviews) with
      | 0 => None
      | S n => Some (S n)
      end.
Proof.
  split.
  - rewrite extract_issues_summary_count_by, count_by_lookup.
    by rewrite lookup_empty.
  - change (App.category_counts reviews) with (count_by category reviews ∅).
    rewrite count_by_lookup. by rewrite lookup_empty.
Qed.

(** The summary of the rewrite prompt and the aggregation agree: a
    category has as many lines in the summary dict as the aggregation
    counts for it. *)
Theorem summary_lines_match_counts
    (rr : Reviewer.ReviewResult) (k : str) (lines : list str) :
  (k, lines) ∈ Prompts.summary_by_category (Reviewer.issues rr) →
  Reviewer.extract_issues_summary rr !! k = Some (length lines).
Proof.
  rewrite summary_by_category_spec.
  intros (k' & [= <- ->] & Hk)%list_elem_of_fmap.
  apply (proj1 (first_occurrences_elem _ _)) in Hk.
  apply list_elem_of_fmap in Hk as (r & E & Hr).
  rewrite extract_issues_summary_count_by, count_by_lookup, lookup_empty.
  rewrite length_map.
  assert (r ∈ filter (fun r0 => category r0 = k) (Reviewer.issues rr)) as Hin
    by (by apply list_elem_of_filter).
  destruct (filter (fun r0 => category r0 = k) (Reviewer.issues rr));
    [by apply elem_of_nil in Hin | done].
Qed.

Lemma summary_lines_match_counts_witness :
  (U "A", [U "- p1: x"; U "- p3: z"])
    ∈ Prompts.summary_by_category (Reviewer.issues summary_result)
  ∧ Reviewer.extract_issues_summary summary_result !! U "A"
    = Some (length [U "- p1: x"; U "- p3: z"]).
Proof.
  split; [by_computation|].
  apply (summary_lines_match_counts summary_result (U "A")
           [U "- p1: x"; U "- p3: z"]).
  by_computation.
Defined.

End Summaries.


(** ** [extract_video_id] *)

Section VideoId.

Import YouTube.

Lemma existsb_eqb (x : char) (cs : list char) :
  existsb (N.eqb x) cs = true ↔ x ∈ cs.
Proof.
  induction cs as [|c cs IH]; simpl.
  - split; [discriminate | intros H; by apply elem_of_nil in H].
  - rewrite orb_true_iff, IH, elem_of_cons, N.eqb_eq. tauto.
Qed.

Lemma existsb_eqb_false (x : char) (cs : list char) :
  existsb (N.eqb x) cs = false ↔ x ∉ cs.
Proof.
  rewrite <- existsb_eqb. by destruct (existsb (N.eqb x) cs).
Qed.

Lemma id_chars_stops {R : Type} (rest : str) (g : option str)
    (k : str → option str → option R) :
  stops rest = true → go id_chars rest g k = None.
Proof.
  destruct rest as [|c rest]; [done|]. simpl. unfold ID_STOP. by intros ->.
Qed.

(** The greedy repetition takes the whole run of id characters when the
    continuation accepts what follows. *)
Lemma star_ids_all {R : Type} (n : nat) (s rest : str) (g : option str)
    (k : str → option str → option R) (r : R) :
  (∀ c, c ∈ s → c ∉ ID_STOP) → stops rest = true → k rest g = Some r →
  length s ≤ n →
  star (go id_chars) n (s ++ rest) g k = Some r.
Proof.
  intros Hs Hrest Hk. revert n; induction s as [|x s IH]; intros n Hn.
  - destruct n as [|n]; [done|].
    cbn [app star]. by rewrite id_chars_stops.
  - destruct n as [|n]; [simpl in Hn; lia|].
    cbn [app star go id_chars].
    assert (existsb (N.eqb x) [38%N; NL; 63%N; 35%N] = false) as ->.
    { apply existsb_eqb_false, Hs. left. }
    assert ((length (s ++ rest) <? length (x :: s ++ rest)) = true) as ->
      by (apply Nat.ltb_lt; simpl; lia).
    rewrite IH; [done | | simpl in Hn; lia].
    intros c Hc. apply Hs. by right.
Qed.

Lemma go_group_all {R : Type} (id rest : str) (g : option str)
    (k : str → option str → option R) (r : R) :
  id ≠ [] → (∀ c, c ∈ id → c ∉ ID_STOP) → stops rest = true →
  k rest (Some id) = Some r →
  go (Capture (Plus id_chars)) (id ++ rest) g k = Some r.
Proof.
  intros Hne Hid Hrest Hk. destruct id as [|x id]; [done|].
  cbn [app go id_chars].
  assert (existsb (N.eqb x) [38%N; NL; 63%N; 35%N] = false) as ->.
  { apply existsb_eqb_false, Hid. left. }
  apply star_ids_all; [| done | | rewrite length_app; lia].
  - intros c Hc. apply Hid. by right.
  - replace (length (x :: id ++ rest) - length rest) with (length (x :: id))
      by (simpl; rewrite length_app; lia).
    change (x :: id ++ rest) with ((x :: id) ++ rest).
    by rewrite take_app_length.
Qed.

Lemma search_here (p : pattern) (s : str) (g : option str) :
  go p s None (fun _ g => Some g) = Some g → search p s = Some g.
Proof. intros H. destruct s; simpl; by rewrite H. Qed.

Lemma first_found_here (p : pattern) (ps : list pattern) (url id : str) :
  search p url = Some (Some id) → first_found (p :: ps) url = Some id.
Proof. intros H. simpl. by rewrite H. Qed.

Lemma go_lit_app {R : Type} (l t : str) (g : option str)
    (k : str → option str → option R) :
  go (Lit l) (l ++ t) g k = k t g.
Proof. simpl. by rewrite startswith_app, drop_app_length. Qed.

Lemma go_lit_fail {R : Type} (l s : str) (g : option str)
    (k : str → option str → option R) :
  startswith l s = false → go (Lit l) s g k = None.
Proof. simpl. by intros ->. Qed.

(** A URL as [get_video_info] builds it, or a short URL, gives back the
    id it was built from, also when parameters or a fragment follow the
    id: the id is not empty and has none of the characters [&], line
    break, [?] and [#], and what follows it is nothing or starts with one
    of them. *)
Theorem extract_video_id_round_trip (id rest : str) :
  id ≠ [] → (∀ c, c ∈ id → c ∉ ID_STOP) → stops rest = true →
  extract_video_id (info_url id ++ rest) = Some id
  ∧ extract_video_id (info_embed_url id ++ rest) = Some id
  ∧ extract_video_id (U "https://youtu.be/" ++ id ++ rest) = Some id.
Proof.
  intros Hne Hid Hrest.
  set (G := Capture (Plus id_chars)).
  assert (go G (id ++ rest) None (fun _ g => Some g) = Some (Some id)) as HG
    by (by apply go_group_all).
  unfold extract_video_id, patterns, info_url, info_embed_url.
  fold G. split; [|split]; apply first_found_here.
  - set (p := Cat _ G).
    assert (∀ t, search p (U "https://www.youtube.com/watch?v=" ++ t)
                 = search p (U "youtube.com/watch?v=" ++ t)) as E
      by (intros; vm_compute; reflexivity).
    rewrite <- app_assoc, E. clear E.
    apply search_here. subst p. cbn [go].
    rewrite startswith_app, drop_app_length. by rewrite HG.
  - set (p := Cat _ G).
    assert (∀ t, search p (U "https://www.youtube.com/embed/" ++ t)
                 = search p (U "youtube.com/embed/" ++ t)) as E
      by (intros; vm_compute; reflexivity).
    rewrite <- app_assoc, E. clear E.
    apply search_here. subst p. cbn [go].
    assert (∀ t, startswith (U "youtube.com/watch?v=")
                   (U "youtube.com/embed/" ++ t) = false) as ->
      by (intros; vm_compute; reflexivity).
    assert (∀ t, startswith (U "youtu.be/")
                   (U "youtube.com/embed/" ++ t) = false) as ->
      by (intros; vm_compute; reflexivity).
    rewrite startswith_app, drop_app_length. by rewrite HG.
  - set (p := Cat _ G).
    assert (∀ t, search p (U "https://youtu.be/" ++ t)
                 = search p (U "youtu.be/" ++ t)) as E
      by (intros; vm_compute; reflexivity).
    rewrite E. clear E.
    apply search_here. subst p. cbn [go].
    assert (∀ t, startswith (U "youtube.com/watch?v=")
                   (U "youtu.be/" ++ t) = false) as ->
      by (intros; vm_compute; reflexivity).
    rewrite startswith_app, drop_app_length. by rewrite HG.
Qed.

Lemma extract_video_id_round_trip_witness :
  U "dQw4w9WgXcQ" ≠ []
  ∧ (∀ c, c ∈ U "dQw4w9WgXcQ" → c ∉ ID_STOP)
  ∧ stops (U "&t=42s") = true
  ∧ extract_video_id (info_url (U "dQw4w9WgXcQ") ++ U "&t=42s")
    = Some (U "dQw4w9WgXcQ")
  ∧ extract_video_id (info_embed_url (U "dQw4w9WgXcQ") ++ U "&t=42s")
    = Some (U "dQw4w9WgXcQ")
  ∧ extract_video_id (U "https://youtu.be/" ++ U "dQw4w9WgXcQ" ++ U "&t=42s")
    = Some (U "dQw4w9WgXcQ").
Proof.
  assert (∀ c, c ∈ U "dQw4w9WgXcQ" → c ∉ ID_STOP) as H.
  { apply Forall_forall. by_computation. }
  split; [discriminate|]. split; [exact H|]. split; [reflexivity|].
  apply (extract_video_id_round_trip (U "dQw4w9WgXcQ") (U "&t=42s"));
    [discriminate | exact H | reflexivity].
Defined.

(** What a match consumes is a prefix of the text, and the continuation
    has accepted the rest. *)
Lemma star_split {R : Type}
    (m : str → option str → (str → option str → option R) → option R) :
  (∀ s g k r, m s g k = Some r →
     ∃ pre rest, s = pre ++ rest ∧ k rest g = Some r) →
  ∀ n s g k r, star m n s g k = Some r →
     ∃ pre rest, s = pre ++ rest ∧ k rest g = Some r.
Proof.
  intros Hm. induction n as [|n IH]; intros s g k r; simpl.
  - intros H. by exists [], s.
  - destruct (m s g _) as [r'|] eqn:E.
    + intros [= ->]. apply Hm in E as (pre & rest & -> & E).
      destruct (length rest <? length (pre ++ rest)); [|discriminate].
      apply IH in E as (pre2 & rest2 & -> & E).
      exists (pre ++ pre2), rest2. by rewrite <- app_assoc.
    + intros H. by exists [], s.
Qed.

Lemma go_plain {R : Type} (p : pattern) :
  plain p = true →
  ∀ s g (k : str → option str → option R) r, go p s g k = Some r →
    ∃ pre rest, s = pre ++ rest ∧ k rest g = Some r.
Proof.
  induction p as [l|cs| |p IHp q IHq|p IHp q IHq|p IHp|p IHp|p IHp];
    cbn [go plain]; intros Hp s g k r.
  - destruct (startswith l s) eqn:E; [|discriminate].
    apply startswith_spec in E. intros H. by exists l, (drop (length l) s).
  - destruct s as [|x s]; [discriminate|].
    destruct (existsb (N.eqb x) cs); [discriminate|].
    intros H. by exists [x], s.
  - destruct s as [|x s]; [discriminate|].
    destruct (x =? NL)%N; [discriminate|].
    intros H. by exists [x], s.
  - apply andb_true_iff in Hp as [Hp Hq].
    intros (pre & rest & -> & H)%(IHp Hp).
    apply (IHq Hq) in H as (pre2 & rest2 & -> & H).
    exists (pre ++ pre2), rest2. by rewrite <- app_assoc.
  - apply andb_true_iff in Hp as [Hp Hq].
    destruct (go p s g k) as [r'|] eqn:E.
    + intros [= ->]. by apply (IHp Hp) in E.
    + by apply (IHq Hq).
  - apply star_split. by apply IHp.
  - intros (pre & rest & -> & H)%(IHp Hp).
    apply (star_split _ (IHp Hp)) in H as (pre2 & rest2 & -> & H).
    exists (pre ++ pre2), rest2. by rewrite <- app_assoc.
  - discriminate.
Qed.

Lemma star_ids_sound {R : Type} (n : nat) (s : str) (g : option str)
    (k : str → option str → option R) (r : R) :
  star (go id_chars) n s g k = Some r →
  ∃ pre rest,
    s = pre ++ rest ∧ (∀ c, c ∈ pre → c ∉ ID_STOP) ∧ k rest g = Some r.
Proof.
  assert (∀ c : char, c ∈ @nil char → c ∉ ID_STOP) as Hnil
    by (intros c H; by apply elem_of_nil in H).
  revert s; induction n as [|n IH]; intros s; cbn [star].
  - intros H. by exists [], s.
  - destruct (go id_chars s g _) as [r'|] eqn:E.
    + intros [= ->]. destruct s as [|x s]; [discriminate|].
      cbn [go id_chars] in E.
      destruct (existsb (N.eqb x) [38%N; NL; 63%N; 35%N]) eqn:Ex;
        [discriminate|].
      destruct (length s <? length (x :: s)); [|discriminate].
      apply IH in E as (pre & rest & -> & Hpre & E).
      exists (x :: pre), rest. split; [done|]. split; [|done].
      intros c [->|Hc]%elem_of_cons; [|by apply Hpre].
      by apply existsb_eqb_false.
    + intros H. by exists [], s.
Qed.

Lemma go_group_sound {R : Type} (s : str) (g : option str)
    (k : str → option str → option R) (r : R) :
  go (Capture (Plus id_chars)) s g k = Some r →
  ∃ id rest,
    s = id ++ rest ∧ id ≠ [] ∧ (∀ c, c ∈ id → c ∉ ID_STOP)
    ∧ k rest (Some id) = Some r.
Proof.
  cbn [go id_chars]. destruct s as [|x s]; [discriminate|].
  destruct (existsb (N.eqb x) [38%N; NL; 63%N; 35%N]) eqn:Ex; [discriminate|].
  intros (pre & rest & -> & Hpre & H)%star_ids_sound.
  exists (x :: pre), rest. split; [done|]. split; [done|]. split.
  - intros c [->|Hc]%elem_of_cons; [|by apply Hpre].
    by apply existsb_eqb_false.
  - replace (length (x :: pre ++ rest) - length rest) with (length (x :: pre))
      in H by (simpl; rewrite length_app; lia).
    change (x :: pre ++ rest) with ((x :: pre) ++ rest) in H.
    by rewrite take_app_length in H.
Qed.

Lemma search_sound (p : pattern) (s : str) (g : option str) :
  search p s = Some g →
  ∃ a t, s = a ++ t ∧ go p t None (fun _ g => Some g) = Some g.
Proof.
  induction s as [|x s IH]; simpl.
  - destruct (go p [] None _) as [g'|] eqn:E; [|discriminate].
    intros [= ->]. by exists [], [].
  - destruct (go p (x :: s) None _) as [g'|] eqn:E.
    + intros [= ->]. by exists [], (x :: s).
    + intros (a & t & -> & H)%IH. by exists (x :: a), t.
Qed.

Lemma search_cat_assoc (p q r : pattern) (s : str) :
  search (Cat p (Cat q r)) s = search (Cat (Cat p q) r) s.
Proof. induction s as [|x s IH]; simpl; [done|]. by rewrite IH. Qed.

Lemma found_with_group (X : pattern) (url : str) (g : option str) :
  plain X = true →
  search (Cat X (Capture (Plus id_chars))) url = Some g →
  ∃ id a b,
    g = Some id ∧ id ≠ [] ∧ (∀ c, c ∈ id → c ∉ ID_STOP)
    ∧ url = a ++ id ++ b.
Proof.
  intros HX (a & t & -> & H)%search_sound.
  change (go X t None
            (fun s' g' => go (Capture (Plus id_chars)) s' g'
                            (fun _ g => Some g)) = Some g) in H.
  apply (go_plain X HX) in H as (pre & rest & -> & H).
  apply go_group_sound in H as (id & b & -> & Hne & Hid & [= <-]).
  exists id, (a ++ pre), b. by rewrite <- app_assoc.
Qed.

(** Whatever the URL, an id that is returned is a non-empty piece of the
    URL without any of the characters [&], line break, [?] and [#]. *)
Theorem extract_video_id_sound (url id : str) :
  extract_video_id url = Some id →
  id ≠ [] ∧ (∀ c, c ∈ id → c ∉ ID_STOP) ∧ ∃ a b, url = a ++ id ++ b.
Proof.
  assert (∀ X g, plain X = true →
            search (Cat X (Capture (Plus id_chars))) url = Some g →
            g = Some id →
            id ≠ [] ∧ (∀ c, c ∈ id → c ∉ ID_STOP) ∧ ∃ a b, url = a ++ id ++ b)
    as Hfound.
  { intros X g HX (id' & a & b & -> & Hne & Hid & ->)%found_with_group;
      [|done].
    intros [= ->]. split; [done|]. split; [done|]. by exists a, b. }
  unfold extract_video_id, patterns. cbn [first_found].
  destruct (search (Cat (Or _ _) _) url) as [g|] eqn:E1.
  { intros ->. eapply Hfound; [|exact E1|done]. reflexivity. }
  rewrite !search_cat_assoc.
  destruct (search (Cat (Cat _ _) _) url) as [g|] eqn:E2.
  { intros ->. eapply Hfound; [|exact E2|done]. reflexivity. }
  destruct (search (Cat (Lit _) _) url) as [g|] eqn:E3; [|discriminate].
  intros ->. eapply Hfound; [|exact E3|done]. reflexivity.
Qed.

Lemma extract_video_id_sound_witness :
  extract_video_id (U "https://youtu.be/abc?t=1") = Some (U "abc")
  ∧ U "abc" ≠ []
  ∧ (∀ c, c ∈ U "abc" → c ∉ ID_STOP)
  ∧ ∃ a b, U "https://youtu.be/abc?t=1" = a ++ U "abc" ++ b.
Proof.
  split; [vm_compute; reflexivity|].
  apply (extract_video_id_sound (U "https://youtu.be/abc?t=1") (U "abc")).
  vm_compute; reflexivity.
Defined.

Lemma startswith_app_l (a b t : str) :
  startswith (a ++ b) t = true → startswith a t = true.
Proof.
  revert t; induction a as [|x a IH]; intros t; [done|].
  destruct t as [|y t]; simpl; [done|].
  rewrite !andb_true_iff. intros [? ?]. split; [done|]. by apply IH.
Qed.

Lemma startswith_needs_prefix (pre l t : str) :
  startswith pre l = true → startswith pre t = false →
  startswith l t = false.
Proof.
  intros Hl%startswith_spec Ht.
  destruct (startswith l t) eqn:E; [|done].
  rewrite Hl in E. apply startswith_app_l in E. congruence.
Qed.

Lemma search_none (p : pattern) (pre url : str) :
  (∀ t, startswith pre t = false →
     go p t None (fun _ g => Some g) = None) →
  find pre url = None → search p url = None.
Proof.
  intros Hp F.
  assert (∀ j, startswith pre (drop j url) = false) as H
    by (intros j; by apply find_None).
  clear F. induction url as [|x url IH].
  - simpl. by rewrite (Hp [] (H 0)).
  - simpl. rewrite (Hp (x :: url) (H 0)). apply IH.
    intros j. apply (H (S j)).
Qed.

(** A URL in which the text [youtu] does not occur has no video id. *)
Theorem extract_video_id_needs_youtu (url : str) :
  contains (U "youtu") url = false → extract_video_id url = None.
Proof.
  intros F%contains_false.
  unfold extract_video_id, patterns. cbn [first_found].
  set (G := Capture (Plus id_chars)).
  rewrite !(search_none _ (U "youtu") url); [done | | done | | done | | done].
  - intros t Ht. cbn [go].
    by rewrite (startswith_needs_prefix (U "youtu") _ t)
      by (done || by_computation).
  - intros t Ht. cbn [go].
    by rewrite (startswith_needs_prefix (U "youtu") _ t)
      by (done || by_computation).
  - intros t Ht. cbn [go].
    by rewrite !(startswith_needs_prefix (U "youtu") _ t)
      by (done || by_computation).
Qed.

Lemma extract_video_id_needs_youtu_witness :
  contains (U "youtu") (U "https://example.com/watch?v=abc") = false
  ∧ extract_video_id (U "https://example.com/watch?v=abc") = None.
Proof.
  split; [vm_compute; reflexivity|].
  apply (extract_video_id_needs_youtu (U "https://example.com/watch?v=abc")).
  vm_compute; reflexivity.
Defined.

End VideoId.

